(** * Slade360 SDK: the bulk-submission pipeline of [slade360/api.py]

  A shallow embedding of the per-claim orchestrator
  ([send_a_claim_and_its_children] and its [_process_*] helpers), of the
  creation wrappers of [slade360/wrappers/submit_visits.py] it calls, of
  the worker pool ([_worker], [_process_tasks]) and of the bulk dispatcher
  ([send_claims_in_bulk]).

  Python values are a small inductive type, dictionaries are association
  lists in insertion order, exceptions are values of [exn], and the code
  that threads a session, a deque and a dictionary through many calls is
  written in a state-and-exception monad that keeps the state when an
  exception is raised.  Threads are modelled by an interleaving
  semantics: one atomic step of one thread at a time, chosen by a
  schedule.  The records of a batch are the caller's dict objects: the
  dispatcher keeps them in a store and a batch is a list of addresses, so
  that the [pop]s of two calls on one object are seen by both.

  The module [SDK] adds what lies under the pipeline: the session of
  [slade360/wrappers/__init__.py] ([__init__], [authenticate],
  [_make_request]) with its headers, its token expiry, the clock, the
  network and the file system, the two attachment operations that the
  tasks call, and the wrappers of [start_visits.py] and
  [post_visit.py]. *)

From Stdlib Require Import String Ascii ZArith Lia Bool Arith List Permutation.
Set Warnings "-register-all".
Set Default Goal Selector "!".
Import ListNotations.
Local Open Scope string_scope.
Local Open Scope nat_scope.
Local Open Scope list_scope.

(** ** Python values *)

Module Py.

(** The JSON-like values that travel through the pipeline.  Floats never
    influence control flow here and are left out. *)
Inductive value : Type :=
| VNone
| VBool (b : bool)
| VInt (z : Z)
| VStr (s : string)
| VList (items : list value)
| VDict (entries : list (string * value)).

(** A [Dict[str, Any]]: keys in insertion order. *)
Definition dict := list (string * value).

Inductive exn : Type :=
| TypeError
| KeyError (key : string)
| AttributeError
| ValueError
| RequestError (what : string).

Definition result (A : Type) : Type := (exn + A)%type.

Fixpoint lookup (k : string) (d : dict) : option value :=
  match d with
  | [] => None
  | (k', v) :: rest => if String.eqb k k' then Some v else lookup k rest
  end.

Definition has_key (k : string) (d : dict) : bool :=
  match lookup k d with Some _ => true | None => false end.

Definition remove (k : string) (d : dict) : dict :=
  filter (fun kv => negb (String.eqb k (fst kv))) d.

Definition keys (d : dict) : list string := map fst d.

(** [d.pop(k, default)]: the value and the dictionary left behind. *)
Definition pop (k : string) (default : value) (d : dict) : value * dict :=
  (match lookup k d with Some v => v | None => default end, remove k d).

(** [v[k]] for a string subscript [k]. *)
Definition getitem (v : value) (k : string) : result value :=
  match v with
  | VDict d => match lookup k d with Some x => inr x | None => inl (KeyError k) end
  | _ => inl TypeError
  end.

(** [v.get(k, default)]. *)
Definition get (v : value) (k : string) (default : value) : result value :=
  match v with
  | VDict d => inr (match lookup k d with Some x => x | None => default end)
  | _ => inl AttributeError
  end.

Fixpoint chars (s : string) : list value :=
  match s with
  | EmptyString => []
  | String c rest => VStr (String c EmptyString) :: chars rest
  end.

(** What [for x in v] iterates over. *)
Definition iter (v : value) : result (list value) :=
  match v with
  | VList items => inr items
  | VDict d => inr (map VStr (keys d))
  | VStr s => inr (chars s)
  | _ => inl TypeError
  end.

(** Truth value, as used by [copays or []]. *)
Definition truthy (v : value) : bool :=
  match v with
  | VNone => false
  | VBool b => b
  | VInt z => negb (Z.eqb z 0)
  | VStr s => negb (String.eqb s "")
  | VList items => match items with [] => false | _ => true end
  | VDict d => match d with [] => false | _ => true end
  end.

Definition or_ (a b : value) : value := if truthy a then a else b.

(** A function signature: the parameters after [self]. *)
Record signature : Type := {
  required : list string;
  optional : list (string * value)
}.

Definition params (sg : signature) : list string :=
  required sg ++ map fst (optional sg).

Definition mem (k : string) (l : list string) : bool := existsb (String.eqb k) l.

(** [f(a=x, **star)]: the keyword arguments handed to [f].  [star] must
    be a mapping and must not repeat an explicit argument. *)
Definition keywords (explicit : dict) (star : value) : result dict :=
  match star with
  | VDict d =>
      if existsb (fun k => mem k (keys explicit)) (keys d)
      then inl TypeError
      else inr (explicit ++ d)
  | _ => inl TypeError
  end.

(** Binding keyword arguments to a signature: an unexpected keyword or a
    missing required parameter is a [TypeError]; the result lists every
    parameter with its value, defaults filled in. *)
Definition bind_arguments (sg : signature) (kwargs : dict) : result dict :=
  if negb (forallb (fun k => mem k (params sg)) (keys kwargs)) then inl TypeError
  else if negb (forallb (fun p => has_key p kwargs) (required sg)) then inl TypeError
  else inr (map (fun p => (p, match lookup p kwargs with Some v => v | None => VNone end))
                (required sg)
            ++ map (fun pd => (fst pd, match lookup (fst pd) kwargs with
                                       | Some v => v
                                       | None => snd pd
                                       end))
                (optional sg)).

(** Reading a bound parameter. *)
Definition arg (bound : dict) (p : string) : value :=
  match lookup p bound with Some v => v | None => VNone end.

End Py.

Import Py.

(** ** Tasks and the session state *)

(** The two operations a task can defer. *)
Inductive attachment_operation : Type :=
| submit_claim_attachment
| submit_invoice_attachment.

(** A task is the tuple [(func, args)]. *)
Record task : Type := Task { func : attachment_operation; args : list value }.

Inductive creation_operation : Type :=
| op_create_claim
| op_submit_invoices
| op_submit_credit_note.

(** One HTTP request of [_make_request]. *)
Record request : Type := Request {
  request_method : string;
  url : string;
  json : dict
}.

(** One call of a creation wrapper: the keyword arguments it was called
  with and what came back (a decoded response or an exception). *)
Record call : Type := Call {
  call_op : creation_operation;
  call_kwargs : dict;
  call_result : result value
}.

(** What one orchestration touches: the caller's record (mutated by
    [pop]), the calls made so far, and the [tasks] deque. *)
Record state : Type := State {
  bundled_claim : dict;
  calls : list call;
  tasks : list task
}.

(** State and exceptions; the state survives a raise. *)
Definition M (A : Type) : Type := state -> result A * state.

Definition ret {A} (a : A) : M A := fun st => (inr a, st).

Definition raise {A} (e : exn) : M A := fun st => (inl e, st).

Definition bind {A B} (m : M A) (k : A -> M B) : M B :=
  fun st =>
    match m st with
    | (inr a, st') => k a st'
    | (inl e, st') => (inl e, st')
    end.

Definition lift {A} (r : result A) : M A := fun st => (r, st).

Declare Scope py_scope.
Delimit Scope py_scope with py.
Notation "x <- m ;; k" := (bind m (fun x => k))
  (at level 61, m at next level, right associativity) : py_scope.
Notation "m ;;; k" := (bind m (fun _ => k))
  (at level 61, right associativity) : py_scope.
Local Open Scope py_scope.

Definition pop_bundled (k : string) (default : value) : M value :=
  fun st =>
    let (v, d) := Py.pop k default (bundled_claim st) in
    (inr v, State d (calls st) (tasks st)).

Definition read_bundled : M dict := fun st => (inr (bundled_claim st), st).

(** [tasks.append(t)]. *)
Definition append_task (t : task) : M unit :=
  fun st => (inr tt, State (bundled_claim st) (calls st) (tasks st ++ [t])).

(** Records a wrapper call together with its outcome. *)
Definition traced (op : creation_operation) (kwargs : dict) (body : M value) : M value :=
  fun st =>
    let (r, st') := body st in
    (r, State (bundled_claim st') (calls st' ++ [Call op kwargs r]) (tasks st')).

(** ** The creation wrappers of [submit_visits.py] *)

Section Wrappers.

(** The Integration Services base URL of the session. *)
Variable base_is_url : string.

(** The remote service, seen from one orchestration: what
    [_make_request] gives for a request after the calls already made
    (the decoded JSON body, or the exception of [raise_for_status] or of
    the transport). *)
Variable remote : list call -> request -> result value.

(** [Authentication._make_request] (wrappers/__init__.py, lines 85-105),
    token refresh included in [remote]. *)
Definition _make_request (method : string) (u : string) (payload : dict) : M value :=
  fun st => (remote (calls st) (Request method u payload), st).

Definition create_claim_signature : signature :=
  {| required := ["payer_code"; "payer_name"; "patient_name"; "member_number";
                  "scheme_name"; "visit_number"; "visit_start"; "visit_end";
                  "icd10_codes"];
     optional := [("location_code", VNone); ("location_name", VNone);
                  ("scheme_code", VNone)] |}.

(** [Claim.create_claim] (submit_visits.py, lines 17-65), called with
    keyword arguments only. *)
Definition create_claim (kwargs : dict) : M value :=
  traced op_create_claim kwargs
    (a <- lift (bind_arguments create_claim_signature kwargs) ;;
     let u := (base_is_url ++ "/v1/claims/")%string in
     let payload :=
       [("payer_code", arg a "payer_code");
        ("payer_name", arg a "payer_name");
        ("patient_name", arg a "patient_name");
        ("member_number", arg a "member_number");
        ("scheme_name", arg a "scheme_name");
        ("visit_number", arg a "visit_number");
        ("visit_start", arg a "visit_start");
        ("visit_end", arg a "visit_end");
        ("icd10_codes", arg a "icd10_codes");
        ("location_code", arg a "location_code");
        ("location_name", arg a "location_name");
        ("scheme_code", arg a "scheme_code")] in
     _make_request "POST" u payload).

Definition submit_invoices_signature : signature :=
  {| required := ["claim"; "invoice_number"; "invoice_date"; "lines"];
     optional := [("copays", VNone)] |}.

(** [Invoice.submit_invoices] (submit_visits.py, lines 118-145). *)
Definition submit_invoices (kwargs : dict) : M value :=
  traced op_submit_invoices kwargs
    (a <- lift (bind_arguments submit_invoices_signature kwargs) ;;
     let u := (base_is_url ++ "/v1/invoices")%string in
     let payload :=
       [("claim", arg a "claim");
        ("invoice_number", arg a "invoice_number");
        ("invoice_date", arg a "invoice_date");
        ("lines", arg a "lines");
        ("copays", or_ (arg a "copays") (VList []))] in
     _make_request "POST" u payload).

Definition submit_credit_note_signature : signature :=
  {| required := ["claim"; "invoice_number"; "invoice_date"; "lines"];
     optional := [] |}.

(** [CreditNote.submit_credit_note] (submit_visits.py, lines 185-210). *)
Definition submit_credit_note (kwargs : dict) : M value :=
  traced op_submit_credit_note kwargs
    (a <- lift (bind_arguments submit_credit_note_signature kwargs) ;;
     let u := (base_is_url ++ "/v1/invoices")%string in
     let payload :=
       [("invoice_type", VStr "CREDIT_NOTE");
        ("claim", arg a "claim");
        ("invoice_number", arg a "invoice_number");
        ("invoice_date", arg a "invoice_date");
        ("lines", arg a "lines")] in
     _make_request "POST" u payload).

(** A call [f(claim=claim_id, **record)] (or [f(claim_id, **record)]):
    when the keyword arguments cannot even be assembled the [TypeError]
    is raised at the call site, and is recorded as a call of [f] with
    the explicit argument alone. *)
Definition call_with_claim (op : creation_operation) (f : dict -> M value)
    (claim_id : value) (record : value) : M value :=
  match keywords [("claim", claim_id)] record with
  | inr kwargs => f kwargs
  | inl e => traced op [("claim", claim_id)] (raise e)
  end.

(** ** The per-claim orchestrator of [api.py] *)

(** The loop of [_process_claim_attachments] (api.py, lines 84-98). *)
Fixpoint claim_attachment_tasks (claim_attachments : list value) (claim_id : value)
    : M unit :=
  match claim_attachments with
  | [] => ret tt
  | attachment :: rest =>
      path <- lift (getitem attachment "path_to_attachment") ;;
      kind <- lift (getitem attachment "attachment_type") ;;
      description <- lift (get attachment "description" VNone) ;;
      append_task (Task submit_claim_attachment [claim_id; path; kind; description]) ;;;
      claim_attachment_tasks rest claim_id
  end.

Definition _process_claim_attachments (claim_attachments : value) (claim_id : value)
    : M unit :=
  items <- lift (iter claim_attachments) ;;
  claim_attachment_tasks items claim_id.

(** The inner loop shared by invoices and credit notes: both append
    [submit_invoice_attachment] tasks. *)
Fixpoint invoice_attachment_tasks (attachments : list value) (parent_id : value)
    : M unit :=
  match attachments with
  | [] => ret tt
  | attachment :: rest =>
      path <- lift (getitem attachment "path_to_attachment") ;;
      description <- lift (get attachment "description" (VStr "")) ;;
      append_task (Task submit_invoice_attachment [parent_id; path; description]) ;;;
      invoice_attachment_tasks rest parent_id
  end.

(** The loop of [_process_invoices] (api.py, lines 100-116). *)
Fixpoint invoices_loop (invoices : list value) (claim_id : value) : M unit :=
  match invoices with
  | [] => ret tt
  | invoice :: rest =>
      inv_response <- call_with_claim op_submit_invoices submit_invoices claim_id invoice ;;
      inv_id <- lift (getitem inv_response "id") ;;
      nested <- lift (get invoice "invoice_attachments" (VList [])) ;;
      attachments <- lift (iter nested) ;;
      invoice_attachment_tasks attachments inv_id ;;;
      invoices_loop rest claim_id
  end.

Definition _process_invoices (invoices : value) (claim_id : value) : M unit :=
  items <- lift (iter invoices) ;;
  invoices_loop items claim_id.

(** The loop of [_process_credit_notes] (api.py, lines 118-134). *)
Fixpoint credit_notes_loop (credit_notes : list value) (claim_id : value) : M unit :=
  match credit_notes with
  | [] => ret tt
  | crn :: rest =>
      crn_response <- call_with_claim op_submit_credit_note submit_credit_note claim_id crn ;;
      crn_id <- lift (getitem crn_response "id") ;;
      nested <- lift (get crn "crn_attachments" (VList [])) ;;
      attachments <- lift (iter nested) ;;
      invoice_attachment_tasks attachments crn_id ;;;
      credit_notes_loop rest claim_id
  end.

Definition _process_credit_notes (credit_notes : value) (claim_id : value) : M unit :=
  items <- lift (iter credit_notes) ;;
  credit_notes_loop items claim_id.

(** [send_a_claim_and_its_children] (api.py, lines 136-155) up to, and
    without, its last statement [self._process_tasks(tasks)]: everything
    that runs on the orchestrating thread alone. *)
Definition prepare_claim : M unit :=
  invoices <- pop_bundled "invoices" (VList []) ;;
  claim_attachments <- pop_bundled "claim_attachments" (VList []) ;;
  credit_notes <- pop_bundled "credit_notes" (VList []) ;;
  kwargs <- read_bundled ;;
  claim_resp <- create_claim kwargs ;;
  claim_id <- lift (getitem claim_resp "id") ;;
  _process_claim_attachments claim_attachments claim_id ;;;
  _process_invoices invoices claim_id ;;;
  _process_credit_notes credit_notes claim_id.

Definition start (bundled : dict) : state := State bundled [] [].

End Wrappers.

(** ** The worker pool: [_worker] and [_process_tasks] *)

(** How [func( *args )] ends: it returns, or it raises an [Exception]
    whose text is [message].  The attachment operations raise
    [FileNotFoundError] and the transport's errors, all of them
    [Exception]s; nothing else reaches a worker thread (a
    [KeyboardInterrupt] goes to the main thread, and the operations do
    not exit the interpreter). *)
Inductive outcome : Type :=
| Returned
| Raised (message : string).

(** Where the thread that runs [_process_tasks] stands. *)
Inductive main_pc : Type :=
| MSpawn (started : nat)       (* the loop of t.start(), [started] threads so far *)
| MPut (rest : list task)      (* the loop of queue.put(task) *)
| MJoin                        (* queue.join() *)
| MSentinel (sent : nat)       (* the loop of queue.put(None) *)
| MJoinThreads (joined : nat)  (* the loop of t.join() *)
| MReturned.

(** Where a thread that runs [_worker] stands. *)
Inductive worker_pc : Type :=
| WGet                         (* task = queue.get() *)
| WCall (t : task)             (* the call of func inside try *)
| WExcept (message : string)   (* LOGGER.error in the except clause *)
| WFinally                     (* queue.task_done() in the finally clause *)
| WExit                        (* after break: the thread has ended *)
| WCrashed.                    (* task_done() raised ValueError: the thread died *)

Inductive thread_id : Type :=
| Main
| Worker (w : nat).

(** What the pool does, in the order it happens. *)
Inductive event : Type :=
| EvStart (w : nat)
| EvPut (item : option task)
| EvGet (w : nat) (item : option task)
| EvCall (w : nat) (t : task) (o : outcome)
| EvLog (w : nat) (line : string)
| EvTaskDone (w : nat)
| EvBarrier
| EvJoined (w : nat)
| EvReturn.

(** The [Queue] (its items and its [unfinished_tasks] counter), the
    threads, and the history.  The stop sentinel [None] is an item like
    any other for [put]. *)
Record pool : Type := Pool {
  main : main_pc;
  threads : list worker_pc;
  queue : list (option task);
  unfinished_tasks : nat;
  trace : list event
}.

Fixpoint update {A : Type} (i : nat) (x : A) (l : list A) : list A :=
  match l, i with
  | [], _ => []
  | _ :: rest, 0 => x :: rest
  | y :: rest, S j => y :: update j x rest
  end.

Definition log_line (message : string) : string :=
  ("Error processing task: " ++ message)%string.

Section WorkerPool.

(** The deque handed to [_process_tasks] and its [num_workers]. *)
Variable task_list : list task.
Variable num_workers : nat.

(** What running a task does, given everything that happened before. *)
Variable perform : list event -> task -> outcome.

Definition initial : pool := Pool (MSpawn 0) [] [] 0 [].

Definition at_main (s : pool) (pc : main_pc) : pool :=
  Pool pc (threads s) (queue s) (unfinished_tasks s) (trace s).

(** [queue.put(item)]. *)
Definition put (s : pool) (pc : main_pc) (item : option task) : pool :=
  Pool pc (threads s) (queue s ++ [item]) (S (unfinished_tasks s))
       (trace s ++ [EvPut item]).

(** One step of [_process_tasks] (api.py, lines 62-82); [None] when it is
    blocked (in [queue.join()] or in [t.join()]) or has returned. *)
Definition step_main (s : pool) : option pool :=
  match main s with
  | MSpawn k =>
      if k <? num_workers
      then Some (Pool (MSpawn (S k)) (threads s ++ [WGet]) (queue s)
                      (unfinished_tasks s) (trace s ++ [EvStart k]))
      else Some (at_main s (MPut task_list))
  | MPut [] => Some (at_main s MJoin)
  | MPut (t :: rest) => Some (put s (MPut rest) (Some t))
  | MJoin =>
      if unfinished_tasks s =? 0
      then Some (Pool (MSentinel 0) (threads s) (queue s) (unfinished_tasks s)
                      (trace s ++ [EvBarrier]))
      else None
  | MSentinel k =>
      if k <? num_workers
      then Some (put s (MSentinel (S k)) None)
      else Some (at_main s (MJoinThreads 0))
  | MJoinThreads i =>
      match nth_error (threads s) i with
      | None =>
          Some (Pool MReturned (threads s) (queue s) (unfinished_tasks s)
                     (trace s ++ [EvReturn]))
      | Some WExit | Some WCrashed =>
          Some (Pool (MJoinThreads (S i)) (threads s) (queue s) (unfinished_tasks s)
                     (trace s ++ [EvJoined i]))
      | Some _ => None
      end
  | MReturned => None
  end.

Definition at_worker (s : pool) (w : nat) (pc : worker_pc) (e : event) : pool :=
  Pool (main s) (update w pc (threads s)) (queue s) (unfinished_tasks s)
       (trace s ++ [e]).

(** One step of the thread [w] running [_worker] (api.py, lines 48-60);
    [None] when it is blocked in [queue.get()], has ended, or was never
    started. *)
Definition step_worker (w : nat) (s : pool) : option pool :=
  match nth_error (threads s) w with
  | Some WGet =>
      match queue s with
      | [] => None
      | item :: rest =>
          Some (Pool (main s)
                     (update w (match item with Some t => WCall t | None => WExit end)
                             (threads s))
                     rest (unfinished_tasks s) (trace s ++ [EvGet w item]))
      end
  | Some (WCall t) =>
      match perform (trace s) t with
      | Returned => Some (at_worker s w WFinally (EvCall w t Returned))
      | Raised m => Some (at_worker s w (WExcept m) (EvCall w t (Raised m)))
      end
  | Some (WExcept m) => Some (at_worker s w WFinally (EvLog w (log_line m)))
  | Some WFinally =>
      match unfinished_tasks s with
      | 0 => Some (Pool (main s) (update w WCrashed (threads s)) (queue s) 0 (trace s))
      | S u =>
          Some (Pool (main s) (update w WGet (threads s)) (queue s) u
                     (trace s ++ [EvTaskDone w]))
      end
  | Some WExit | Some WCrashed | None => None
  end.

Definition step (who : thread_id) (s : pool) : option pool :=
  match who with
  | Main => step_main s
  | Worker w => step_worker w s
  end.

(** Running a schedule: the scheduler's choices, one thread per step. *)
Fixpoint run (schedule : list thread_id) (s : pool) : option pool :=
  match schedule with
  | [] => Some s
  | who :: rest =>
      match step who s with
      | Some s' => run rest s'
      | None => None
      end
  end.

Inductive reachable : pool -> Prop :=
| reachable_initial : reachable initial
| reachable_step s who s' : reachable s -> step who s = Some s' -> reachable s'.

(** What the history says. *)
Definition called (tr : list event) : list task :=
  flat_map (fun e => match e with EvCall _ t _ => [t] | _ => [] end) tr.

Definition dequeued (tr : list event) : list task :=
  flat_map (fun e => match e with EvGet _ (Some t) => [t] | _ => [] end) tr.

Definition raised_lines (tr : list event) : list string :=
  flat_map (fun e => match e with EvCall _ _ (Raised m) => [log_line m] | _ => [] end) tr.

Definition logged (tr : list event) : list string :=
  flat_map (fun e => match e with EvLog _ line => [line] | _ => [] end) tr.

Definition is_start (e : event) : bool :=
  match e with EvStart _ => true | _ => false end.

Definition is_task_done (e : event) : bool :=
  match e with EvTaskDone _ => true | _ => false end.

(** Who called what. *)
Definition invocations (tr : list event) : list (nat * task) :=
  flat_map (fun e => match e with EvCall w t _ => [(w, t)] | _ => [] end) tr.

Definition is_joined (e : event) : bool :=
  match e with EvJoined _ => true | _ => false end.

Definition is_sentinel_put (e : event) : bool :=
  match e with EvPut None => true | _ => false end.

Definition is_sentinel_get (w : nat) (e : event) : bool :=
  match e with EvGet w' None => w' =? w | _ => false end.

Definition occurrences (p : event -> bool) (tr : list event) : nat :=
  length (filter p tr).

(** What the threads and the queue hold. *)
Definition busy (pc : worker_pc) : bool :=
  match pc with WCall _ | WExcept _ | WFinally => true | _ => false end.

Definition exited (pc : worker_pc) : bool :=
  match pc with WExit => true | _ => false end.

Definition crashed (pc : worker_pc) : bool :=
  match pc with WCrashed => true | _ => false end.

Definition total (f : worker_pc -> nat) (l : list worker_pc) : nat :=
  list_sum (map f l).

Definition count (p : worker_pc -> bool) (l : list worker_pc) : nat :=
  total (fun pc => if p pc then 1 else 0) l.

Definition in_call (l : list worker_pc) : list task :=
  flat_map (fun pc => match pc with WCall t => [t] | _ => [] end) l.

Definition to_log (l : list worker_pc) : list string :=
  flat_map (fun pc => match pc with WExcept m => [log_line m] | _ => [] end) l.

Definition queued (q : list (option task)) : list task :=
  flat_map (fun item => match item with Some t => [t] | None => [] end) q.

Definition pending (pc : main_pc) : list task :=
  match pc with
  | MSpawn _ => task_list
  | MPut rest => rest
  | _ => []
  end.

Definition is_sentinel (item : option task) : Prop := item = None.

Definition is_task (item : option task) : Prop := item <> None.

(** *** Invariants of the pool *)

(** What holds at each stage of [_process_tasks]. *)
Definition phase_inv (s : pool) : Prop :=
  match main s with
  | MSpawn k =>
      length (threads s) = k /\ k <= num_workers /\ queue s = [] /\
      count busy (threads s) = 0 /\ count exited (threads s) = 0
  | MPut _ | MJoin =>
      length (threads s) = num_workers /\ Forall is_task (queue s) /\
      count exited (threads s) = 0
  | MSentinel k =>
      length (threads s) = num_workers /\ k <= num_workers /\
      Forall is_sentinel (queue s) /\ count busy (threads s) = 0 /\
      length (queue s) + count exited (threads s) = k
  | MJoinThreads i =>
      length (threads s) = num_workers /\ i <= num_workers /\
      Forall is_sentinel (queue s) /\ count busy (threads s) = 0 /\
      length (queue s) + count exited (threads s) = num_workers /\
      (forall j, j < i -> nth_error (threads s) j = Some WExit)
  | MReturned =>
      length (threads s) = num_workers /\ queue s = [] /\
      count busy (threads s) = 0 /\
      (forall j, j < num_workers -> nth_error (threads s) j = Some WExit)
  end.

(** The counter of the queue against what is in it and who works on it:
    every [put] counts, a worker acknowledges a task with [task_done] and
    leaves on a sentinel without acknowledging it. *)
Record pool_inv (s : pool) : Prop := {
  inv_no_crash : count crashed (threads s) = 0;
  inv_counter :
    unfinished_tasks s
    = length (queue s) + count busy (threads s) + count exited (threads s);
  inv_phase : phase_inv s
}.

(** No task is lost or duplicated on its way through the queue. *)
Record conservation (s : pool) : Prop := {
  cons_called :
    Permutation task_list
      (called (trace s) ++ in_call (threads s) ++ queued (queue s) ++ pending (main s));
  cons_dequeued :
    Permutation task_list
      (dequeued (trace s) ++ queued (queue s) ++ pending (main s));
  cons_done :
    occurrences is_task_done (trace s) + count busy (threads s)
    + length (queued (queue s)) + length (pending (main s))
    = length task_list;
  cons_logged :
    Permutation (raised_lines (trace s)) (logged (trace s) ++ to_log (threads s))
}.

Definition sentinels_put (pc : main_pc) : nat :=
  match pc with
  | MSentinel k => k
  | MJoinThreads _ | MReturned => num_workers
  | _ => 0
  end.

Definition past_barrier (pc : main_pc) : bool :=
  match pc with
  | MSentinel _ | MJoinThreads _ | MReturned => true
  | _ => false
  end.

Definition threads_joined (pc : main_pc) : nat :=
  match pc with
  | MJoinThreads i => i
  | MReturned => num_workers
  | _ => 0
  end.

(** The order of things in the history. *)
Record trace_inv (s : pool) : Prop := {
  tr_joined : occurrences is_joined (trace s) = threads_joined (main s);
  tr_passed : past_barrier (main s) = true -> In EvBarrier (trace s);
  tr_starts : occurrences is_start (trace s) = length (threads s);
  tr_spawn_first :
    forall pre item post,
      trace s = pre ++ EvPut item :: post ->
      occurrences is_start pre = num_workers;
  tr_barrier :
    forall pre post,
      trace s = pre ++ EvBarrier :: post ->
      Permutation task_list (called pre)
      /\ occurrences is_task_done pre = length task_list;
  tr_sentinel_after_barrier :
    forall pre post,
      trace s = pre ++ EvPut None :: post -> In EvBarrier pre;
  tr_sentinels_put : occurrences is_sentinel_put (trace s) = sentinels_put (main s);
  tr_sentinel_get :
    forall w,
      occurrences (is_sentinel_get w) (trace s)
      = match nth_error (threads s) w with Some WExit => 1 | _ => 0 end;
  tr_return :
    forall pre post, trace s = pre ++ EvReturn :: post -> main s = MReturned;
  tr_complete :
    forall pre post,
      trace s = pre ++ EvReturn :: post ->
      Permutation task_list (dequeued pre) /\ Permutation task_list (called pre)
}.

(** *** A measure that every step decreases *)

Definition weight (pc : worker_pc) : nat :=
  match pc with
  | WCall _ => 4
  | WExcept _ => 3
  | WFinally => 2
  | WGet => 1
  | WExit | WCrashed => 0
  end.

Definition main_measure (s : pool) : nat :=
  let l := length (threads s) in
  match main s with
  | MSpawn k => 5 + l + num_workers + 5 * length task_list + 3 * (num_workers - k)
  | MPut rest => 4 + l + num_workers + 5 * length rest
  | MJoin => 3 + l + num_workers
  | MSentinel k => 2 + l + (num_workers - k)
  | MJoinThreads i => 1 + (l - i)
  | MReturned => 0
  end.

Definition measure (s : pool) : nat :=
  main_measure s + total weight (threads s) + 4 * length (queued (queue s)).

(** The longest any schedule can be. *)
Definition step_bound : nat := 5 + 4 * num_workers + 5 * length task_list.

End WorkerPool.

(** *** What the calls of one orchestration say *)

(** Why a creation call stops the orchestration: it raised, or what it
    returned has no ["id"] to read. *)
Definition failure_of (c : call) : option exn :=
  match call_result c with
  | inl e => Some e
  | inr resp =>
      match getitem resp "id" with
      | inl e => Some e
      | inr _ => None
      end
  end.

(** The identifier a creation call gave. *)
Definition identifier_of (c : call) : option value :=
  match call_result c with
  | inl _ => None
  | inr resp =>
      match getitem resp "id" with
      | inl _ => None
      | inr v => Some v
      end
  end.

(** Which creation call makes the resource an attachment operation
    attaches to. *)
Definition parent_of (f : attachment_operation) (op : creation_operation) : bool :=
  match f, op with
  | submit_claim_attachment, op_create_claim => true
  | submit_invoice_attachment, op_submit_invoices => true
  | submit_invoice_attachment, op_submit_credit_note => true
  | _, _ => false
  end.

(** The task carries, as its first argument, the identifier that one of
    the calls [cs] returned for its parent resource. *)
Definition bound_to (cs : list call) (t : task) : Prop :=
  exists c id,
    In c cs
    /\ identifier_of c = Some id
    /\ hd_error (args t) = Some id
    /\ parent_of (func t) (call_op c) = true.

Definition made_by (op : creation_operation) (c : call) : bool :=
  match op, call_op c with
  | op_create_claim, op_create_claim => true
  | op_submit_invoices, op_submit_invoices => true
  | op_submit_credit_note, op_submit_credit_note => true
  | _, _ => false
  end.

(** How many calls of [op] were made. *)
Definition calls_of (op : creation_operation) (cs : list call) : nat :=
  length (filter (made_by op) cs).

(** *** The shape of an orchestration *)

(** What a wrapper does to the session: one more call on record, nothing
    else; and it answers only when its arguments could be bound. *)
Definition wrapper_of (op : creation_operation) (sg : signature) (f : dict -> M value)
    : Prop :=
  forall kwargs st,
    exists r,
      f kwargs st
      = (r, State (bundled_claim st) (calls st ++ [Call op kwargs r]) (tasks st))
      /\ (forall v, r = inr v -> exists a, bind_arguments sg kwargs = inr a).

(** A call after which the orchestration goes on. *)
Definition good (c : call) : Prop := failure_of c = None.

(** The loop that [_process_invoices] and [_process_credit_notes] share,
    with the wrapper and the key of the nested list left open. *)
Fixpoint children_loop (op : creation_operation) (f : dict -> M value) (key : string)
    (records : list value) (claim_id : value) : M unit :=
  match records with
  | [] => ret tt
  | record :: rest =>
      response <- call_with_claim op f claim_id record ;;
      id <- lift (getitem response "id") ;;
      nested <- lift (get record key (VList [])) ;;
      attachments <- lift (iter nested) ;;
      invoice_attachment_tasks attachments id ;;;
      children_loop op f key rest claim_id
  end.

(** A task attached to a resource that one of the calls [newc] made. *)
Definition child_task (newc : list call) (t : task) : Prop :=
  func t = submit_invoice_attachment
  /\ exists c id, In c newc /\ identifier_of c = Some id /\ hd_error (args t) = Some id.

(** How a loop over [records] ends: one good call per record, or a
    failing call last, or an exception outside the calls. *)
Definition stopped_by (r : result unit) (records : list value) (newc : list call) : Prop :=
  match r with
  | inr _ => Forall good newc /\ length newc = length records
  | inl e =>
      Forall good newc
      \/ exists pre c, newc = pre ++ [c] /\ Forall good pre /\ failure_of c = Some e
  end.

(** The keyword arguments of [create_claim]: the record without its
    three lists. *)
Definition claim_kwargs (bundled : dict) : dict :=
  remove "credit_notes" (remove "claim_attachments" (remove "invoices" bundled)).

(** What the orchestrator iterates over for [key]. *)
Definition items_of (key : string) (bundled : dict) : result (list value) :=
  iter (match lookup key bundled with Some v => v | None => VList [] end).

(** How the calls of an orchestration end. *)
Definition ends_with (r : result unit) (cs : list call) : Prop :=
  match r with
  | inr _ => Forall good cs
  | inl e =>
      Forall good cs
      \/ exists pre c, cs = pre ++ [c] /\ Forall good pre /\ failure_of c = Some e
  end.

(** Everything [prepare_claim] does, in one statement. *)
Record prepared (bundled : dict) (r : result unit) (st : state)
    (prep_first : call) (prep_invoices prep_credit_notes : list call) : Prop := {
  prep_bundled : bundled_claim st = claim_kwargs bundled;
  prep_calls : calls st = prep_first :: prep_invoices ++ prep_credit_notes;
  prep_first_op : call_op prep_first = op_create_claim;
  prep_first_kwargs : call_kwargs prep_first = claim_kwargs bundled;
  prep_invoices_op : Forall (fun c => call_op c = op_submit_invoices) prep_invoices;
  prep_credit_notes_op :
    Forall (fun c => call_op c = op_submit_credit_note) prep_credit_notes;
  prep_ends : ends_with r (calls st);
  prep_first_fails :
    forall e, failure_of prep_first = Some e ->
      r = inl e /\ prep_invoices = [] /\ prep_credit_notes = [] /\ tasks st = [];
  prep_tasks :
    Forall (fun t => func t = submit_claim_attachment
                     /\ exists id, identifier_of prep_first = Some id
                                   /\ hd_error (args t) = Some id) (tasks st);
  prep_task_count :
    forall items, r = inr tt -> items_of "claim_attachments" bundled = inr items ->
      length (tasks st) = length items;
  prep_invoice_count :
    forall items, r = inr tt -> items_of "invoices" bundled = inr items ->
      length prep_invoices = length items;
  prep_credit_note_count :
    forall items, r = inr tt -> items_of "credit_notes" bundled = inr items ->
      length prep_credit_notes = length items
}.

(** ** The whole orchestration of one claim *)

(** How far [send_a_claim_and_its_children] got: an exception left it
    before [_process_tasks], or it is inside [_process_tasks] (and has
    returned once the pool's main thread has). *)
Inductive orchestration : Type :=
| Aborted (st : state) (e : exn)
| Processing (st : state) (p : pool).

Definition session (o : orchestration) : state :=
  match o with
  | Aborted st _ => st
  | Processing st _ => st
  end.

Definition finished (o : orchestration) : bool :=
  match o with
  | Aborted _ _ => true
  | Processing _ p => match main p with MReturned => true | _ => false end
  end.

(** The task an event hands to a worker or has a worker run. *)
Definition dispatched (ev : event) : option task :=
  match ev with
  | EvGet _ (Some t) => Some t
  | EvCall _ t _ => Some t
  | _ => None
  end.

(** Everything one orchestration did, in order: the creation calls, then
    what happened in the pool. *)
Definition history (o : orchestration) : list (call + event) :=
  match o with
  | Aborted st _ => map inl (calls st)
  | Processing st p => map inl (calls st) ++ map inr (trace p)
  end.

(** The lines [LOGGER.error] wrote. *)
Definition log_of (o : orchestration) : list string :=
  match o with
  | Aborted _ _ => []
  | Processing _ p => logged (trace p)
  end.

(** [DEFAULT_NUM_OF_WORKERS = os.cpu_count() or 4] (api.py, line 13). *)
Definition DEFAULT_NUM_OF_WORKERS (cpu_count : option nat) : nat :=
  match cpu_count with
  | Some (S n) => S n
  | _ => 4
  end.

Section Orchestrator.

Variable base_is_url : string.
Variable remote : list call -> request -> result value.
Variable cpu_count : option nat.
Variable perform : list event -> task -> outcome.

(** [send_a_claim_and_its_children(bundled_claim)] (api.py, lines
    136-157) under a schedule of the threads of its pool; [None] when the
    schedule asks a thread for a step it cannot take.  The pool is that of
    [self._process_tasks(tasks)]: [num_workers] is left to its default. *)
Definition send_a_claim_and_its_children (bundled : dict) (schedule : list thread_id)
    : option orchestration :=
  match prepare_claim base_is_url remote (start bundled) with
  | (inl e, st) => Some (Aborted st e)
  | (inr _, st) =>
      match run (tasks st) (DEFAULT_NUM_OF_WORKERS cpu_count) perform schedule initial with
      | Some p => Some (Processing st p)
      | None => None
      end
  end.

End Orchestrator.

(** ** The bulk dispatcher: [send_claims_in_bulk] *)

(** A [Future] of the executor. *)
Inductive future : Type :=
| FutPending
| FutResult (v : value)
| FutException (e : exn).

(** What the work item of the executor stores when the call ends. *)
Definition future_of (o : orchestration) : future :=
  match o with
  | Aborted _ e => FutException e
  | Processing _ _ => FutResult VNone
  end.

(** What the future of a claim ends up holding, from the preparation of
    that claim alone. *)
Definition claim_future (base_is_url : string)
    (remote : list call -> request -> result value) (c : dict) : future :=
  match fst (prepare_claim base_is_url remote (start c)) with
  | inl e => FutException e
  | inr _ => FutResult VNone
  end.

(** Where the thread that runs [send_claims_in_bulk] stands. *)
Inductive bulk_pc : Type :=
| BEnter                                 (* ThreadPoolExecutor(max_workers=...) *)
| BSubmit (next : nat) (rest : list nat) (* executor.map: one submit per claim *)
| BShutdown                              (* leaving with: shutdown(wait=True) *)
| BReturned (v : value)
| BRaised (e : exn).

(** The keys [send_a_claim_and_its_children] pops from the record it is
    given, in the order in which it pops them (api.py, lines 142-146). *)
Definition popped_keys : list string := ["invoices"; "claim_attachments"; "credit_notes"].

(** The dict objects of the caller.  A list of claims is a list of
    references: a claim is the address of its record, and two entries
    with the same address are one and the same object.  An address past
    the end of the heap holds an empty dict. *)
Definition record_at (heap : list dict) (a : nat) : dict := nth a heap [].

(** The executor: submitted work not yet taken (position in the batch
    and address of the record), what each of its threads runs (with what
    the pops of that call have given so far), the futures, the caller's
    records and (for the record) the orchestrations that ended and the
    log lines written. *)
Record executor : Type := Executor {
  bmain : bulk_pc;
  work_queue : list (nat * nat);
  slots : list (option (nat * (nat * dict)));
  futures : list future;
  runs : list (nat * orchestration);
  log_records : list string;
  records : list dict
}.

(** The scheduler's choices at this level.  A thread of the executor
    takes a work item, does the next [pop] of its call on the shared
    record, or ends the call under some schedule of that claim's own
    pool. *)
Inductive bulk_choice : Type :=
| BMain
| BTake (w : nat)
| BPop (w : nat)
| BFinish (w : nat) (schedule : list thread_id).

Definition idle (slot : option (nat * (nat * dict))) : bool :=
  match slot with None => true | Some _ => false end.

(** What [d.pop(k, [])] gives. *)
Definition taken (k : string) (d : dict) : value := fst (Py.pop k (VList []) d).

(** What the first [n] pops of a call give on a record nobody else
    touches, and what they leave. *)
Definition pops (c : dict) (n : nat) : dict :=
  map (fun k => (k, taken k c)) (firstn n popped_keys).

Fixpoint rest_after (c : dict) (n : nat) : dict :=
  match n with
  | 0 => c
  | S m =>
      match nth_error popped_keys m with
      | Some k => remove k (rest_after c m)
      | None => rest_after c m
      end
  end.

(** The record as a call sees it: the claim's own fields, and for each of
    the three lists either the list of the record or, when another call
    on the same object popped it first, the default. *)
Definition sees (c view : dict) : Prop :=
  claim_kwargs view = claim_kwargs c
  /\ forall k, In k popped_keys -> taken k view = taken k c \/ taken k view = VList [].

(** The record as a call sees it when no other call shares the object. *)
Definition same_record (c view : dict) : Prop :=
  claim_kwargs view = claim_kwargs c
  /\ forall k, In k popped_keys -> taken k view = taken k c.

(** What is left to do for a work item that a thread has taken: its
    pops, and the rest of the call. *)
Definition pending_steps (slot : option (nat * (nat * dict))) : nat :=
  match slot with
  | None => 0
  | Some (_, (_, got)) => 1 + (length popped_keys - length got)
  end.

Section BulkDispatcher.

Variable base_is_url : string.
Variable cpu_count : option nat.

(** The remote service and the attachment operations as the claim at
    position [i] of the batch meets them. *)
Variable remote_of : nat -> list call -> request -> result value.
Variable perform_of : nat -> list event -> task -> outcome.

(** The caller's records when the dispatcher is called, and the batch:
    the address of a record for each position. *)
Variable objects : list dict.
Variable bundled_claims : list nat.
Variable num_of_workers : Z.

Definition bulk_initial : executor := Executor BEnter [] [] [] [] [] objects.

Definition bulk_main (x : executor) : option executor :=
  match bmain x with
  | BEnter =>
      if (num_of_workers <=? 0)%Z
      then Some (Executor (BRaised ValueError) [] [] [] [] [] (records x))
      else Some (Executor (BSubmit 0 bundled_claims) []
                          (repeat None (Z.to_nat num_of_workers)) [] [] [] (records x))
  | BSubmit i [] =>
      Some (Executor BShutdown (work_queue x) (slots x) (futures x) (runs x)
                     (log_records x) (records x))
  | BSubmit i (a :: rest) =>
      Some (Executor (BSubmit (S i) rest) (work_queue x ++ [(i, a)]) (slots x)
                     (futures x ++ [FutPending]) (runs x) (log_records x) (records x))
  | BShutdown =>
      match work_queue x with
      | [] =>
          if forallb idle (slots x)
          then Some (Executor (BReturned VNone) [] (slots x) (futures x) (runs x)
                              (log_records x) (records x))
          else None
      | _ :: _ => None
      end
  | BReturned _ | BRaised _ => None
  end.

(** A free thread takes the next work item: the call
    [send_a_claim_and_its_children(bundled_claims[i])] begins. *)
Definition bulk_take (w : nat) (x : executor) : option executor :=
  match nth_error (slots x) w, work_queue x with
  | Some None, (i, a) :: rest =>
      Some (Executor (bmain x) rest (update w (Some (i, (a, []))) (slots x)) (futures x)
                     (runs x) (log_records x) (records x))
  | _, _ => None
  end.

(** The next of the three statements [bundled_claim.pop(key, [])]
    (api.py, lines 142-146), on the object itself: what it gives is
    kept by the call, and the object loses the key for every call that
    shares it. *)
Definition bulk_pop (w : nat) (x : executor) : option executor :=
  match nth_error (slots x) w with
  | Some (Some (i, (a, got))) =>
      match nth_error popped_keys (length got) with
      | Some key =>
          let (v, left) := Py.pop key (VList []) (record_at (records x) a) in
          Some (Executor (bmain x) (work_queue x)
                         (update w (Some (i, (a, got ++ [(key, v)]))) (slots x))
                         (futures x) (runs x) (log_records x)
                         (update a left (records x)))
      | None => None
      end
  | _ => None
  end.

(** The rest of the call, from [self.create_claim( **bundled_claim )]
    on (api.py, lines 148-157).  The object has lost the three keys for
    good and nothing else writes to it, so the call goes on as
    [send_a_claim_and_its_children] does on a record of its own that holds
    what its pops gave and what the object holds now: there the three
    pops give [got] again and leave what [create_claim] is called
    with. *)
Definition bulk_finish (w : nat) (schedule : list thread_id) (x : executor)
    : option executor :=
  match nth_error (slots x) w with
  | Some (Some (i, (a, got))) =>
      if length got =? length popped_keys then
        match send_a_claim_and_its_children base_is_url (remote_of i) cpu_count
                (perform_of i) (got ++ record_at (records x) a) schedule with
        | Some o =>
            if finished o
            then Some (Executor (bmain x) (work_queue x) (update w None (slots x))
                                (update i (future_of o) (futures x))
                                (runs x ++ [(i, o)])
                                (log_records x ++ log_of o) (records x))
            else None
        | None => None
        end
      else None
  | _ => None
  end.

Definition bulk_step (ch : bulk_choice) (x : executor) : option executor :=
  match ch with
  | BMain => bulk_main x
  | BTake w => bulk_take w x
  | BPop w => bulk_pop w x
  | BFinish w schedule => bulk_finish w schedule x
  end.

(** [send_claims_in_bulk(bundled_claims, num_of_workers)] (api.py, lines
    23-46) under a schedule. *)
Fixpoint send_claims_in_bulk (schedule : list bulk_choice) (x : executor)
    : option executor :=
  match schedule with
  | [] => Some x
  | ch :: rest =>
      match bulk_step ch x with
      | Some x' => send_claims_in_bulk rest x'
      | None => None
      end
  end.

Definition running (l : list (option (nat * (nat * dict)))) : list (nat * (nat * dict)) :=
  flat_map (fun slot => match slot with Some item => [item] | None => [] end) l.

Definition submitted (pc : bulk_pc) : nat :=
  match pc with
  | BEnter | BRaised _ => 0
  | BSubmit i _ => i
  | BShutdown | BReturned _ => length bundled_claims
  end.

Definition unsubmitted (pc : bulk_pc) : list nat :=
  match pc with
  | BEnter | BRaised _ => bundled_claims
  | BSubmit _ rest => rest
  | BShutdown | BReturned _ => []
  end.

(** The record at [a] is the record of one position only. *)
Definition alone (a : nat) : Prop := count_occ Nat.eq_dec bundled_claims a = 1.

(** An orchestration recorded for position [i] is a finished run of
    [send_a_claim_and_its_children] on the record of that position as the
    call saw it, the future at that position holds its outcome, and the
    object has lost its three lists. *)
Definition run_of (x : executor) (i : nat) (o : orchestration) : Prop :=
  exists a view schedule,
    nth_error bundled_claims i = Some a
    /\ send_a_claim_and_its_children base_is_url (remote_of i) cpu_count
         (perform_of i) view schedule = Some o
    /\ finished o = true
    /\ nth_error (futures x) i = Some (future_of o)
    /\ sees (record_at objects a) view
    /\ (alone a -> same_record (record_at objects a) view)
    /\ record_at (records x) a = claim_kwargs (record_at objects a).

(** A call among its pops: the keys popped so far are the first of
    [popped_keys], the object no longer has them, each value is the
    record's own or the default, and on a record of its own the call has
    got exactly what the record held. *)
Definition popping (x : executor) (a : nat) (got : dict) : Prop :=
  map fst got = firstn (length got) popped_keys
  /\ (forall k, In k (map fst got) -> lookup k (record_at (records x) a) = None)
  /\ (forall k v, In (k, v) got -> v = taken k (record_at objects a) \/ v = VList [])
  /\ (alone a ->
      got = pops (record_at objects a) (length got)
      /\ record_at (records x) a = rest_after (record_at objects a) (length got)).

Record bulk_inv (x : executor) : Prop := {
  binv_claims :
    exists done,
      bundled_claims = done ++ unsubmitted (bmain x)
      /\ length done = submitted (bmain x);
  binv_futures : length (futures x) = submitted (bmain x);
  binv_slots :
    match bmain x with
    | BEnter | BRaised _ => slots x = []
    | _ => (0 < num_of_workers)%Z /\ length (slots x) = Z.to_nat num_of_workers
    end;
  binv_running :
    forall i a got,
      In (i, (a, got)) (running (slots x)) ->
      nth_error bundled_claims i = Some a /\ popping x a got;
  binv_queue :
    forall i a, In (i, a) (work_queue x) -> nth_error bundled_claims i = Some a;
  binv_indices :
    Permutation (seq 0 (submitted (bmain x)))
      (map fst (runs x) ++ map fst (running (slots x)) ++ map fst (work_queue x));
  binv_runs : forall i o, In (i, o) (runs x) -> run_of x i o;
  binv_heap :
    forall a,
      claim_kwargs (record_at (records x) a) = claim_kwargs (record_at objects a)
      /\ forall k, In k popped_keys ->
           taken k (record_at (records x) a) = taken k (record_at objects a)
           \/ lookup k (record_at (records x) a) = None;
  binv_untouched :
    forall i a,
      nth_error bundled_claims i = Some a -> alone a ->
      ~ In i (map fst (runs x)) -> ~ In i (map fst (running (slots x))) ->
      record_at (records x) a = record_at objects a;
  binv_log : log_records x = flat_map (fun r => log_of (snd r)) (runs x);
  binv_returned :
    forall v, bmain x = BReturned v ->
      v = VNone /\ work_queue x = [] /\ running (slots x) = [];
  binv_raised :
    forall e, bmain x = BRaised e -> e = ValueError /\ (num_of_workers <= 0)%Z
}.

Definition bulk_measure (x : executor) : nat :=
  match bmain x with
  | BEnter => 3 + 6 * length bundled_claims
  | BSubmit _ rest => 2 + 6 * length rest
  | BShutdown => 1
  | BReturned _ | BRaised _ => 0
  end
  + 5 * length (work_queue x) + list_sum (map pending_steps (slots x)).

End BulkDispatcher.

(** ** What the orchestrator builds from a well-formed record *)

(** [attachment[k]] or [attachment.get(k)] of an attachment that has
    what the loop reads. *)
Definition field (attachment : value) (k : string) : value :=
  match attachment with
  | VDict d => arg d k
  | _ => VNone
  end.

(** The task of [_process_claim_attachments] for one attachment (api.py,
    lines 89-98). *)
Definition claim_attachment_task (claim_id : value) (attachment : value) : task :=
  Task submit_claim_attachment
       [claim_id; field attachment "path_to_attachment";
        field attachment "attachment_type"; field attachment "description"].

(** An attachment the loop of [_process_claim_attachments] can read. *)
Definition complete_attachment (attachment : value) : bool :=
  match attachment with
  | VDict d => has_key "path_to_attachment" d && has_key "attachment_type" d
  | _ => false
  end.

(** The call made for [record]: [f(claim=claim_id, **record)], and it
    gave an identifier. *)
Definition linked (op : creation_operation) (claim_id : value) (record : value)
    (c : call) : Prop :=
  exists d,
    record = VDict d
    /\ call_op c = op
    /\ call_kwargs c = ("claim", claim_id) :: d
    /\ good c.

(** ** The session and the operations behind the tasks *)

(** [Authentication] (wrappers/__init__.py), the two attachment
    operations of submit_visits.py and the wrappers of start_visits.py
    and post_visit.py, this time with the session they share: its
    headers, the expiry of its token, the clock, the network and the
    file system. *)
Module SDK.

(** What these functions raise. *)
Inductive failure : Type :=
| Builtin (e : exn)                   (* TypeError, KeyError, AttributeError, ... *)
| HTTPError (status : Z)              (* response.raise_for_status() *)
| TransportError (what : string)      (* ConnectionError, Timeout, MissingSchema, ... *)
| JSONDecodeError                     (* response.json() *)
| FileNotFoundError (message : string)
| OSError (what : string)             (* open() *)
| OverflowError.                      (* datetime arithmetic *)

(** The keyword arguments of one [Session.request]; [http_files] maps a
    field to the path of the open file object it carries. *)
Record http_request : Type := HttpRequest {
  http_method : string;
  http_url : string;
  http_headers : option dict;
  http_params : option dict;
  http_data : option dict;
  http_json : option dict;
  http_files : option dict
}.

(** A response: its status and what [json()] decodes ([None] when the
    body is not JSON). *)
Record response : Type := Response {
  status_code : Z;
  body : option value
}.

(** A request as the network saw it: the headers of the session at that
    moment, and the keyword arguments. *)
Definition exchange : Type := (dict * http_request)%type.

(** Everything outside the program.  Points in time are counted in
    microseconds; [clock n] is what the [n]-th call of [datetime.now()]
    returns, [shift t v] is [t + timedelta(seconds=v)], and the calls of
    the file system are numbered like those of the clock.  [text_of] is
    [str] on values that are not strings, [message_of] is [str] on the
    exceptions of the libraries. *)
Record environment : Type := Environment {
  base_auth_url : string;
  base_edi_url : string;
  base_is_url : string;
  client_id : value;
  client_secret : value;
  username : value;
  password : value;
  grant_type : value;
  default_headers : dict;
  text_of : value -> string;
  message_of : failure -> string;
  clock : nat -> Z;
  shift : Z -> value -> failure + Z;
  transport : list exchange -> dict -> http_request -> failure + response;
  path_exists : nat -> value -> failure + bool;
  open_rb : nat -> value -> option failure
}.

(** The state of one client object and of what it touches. *)
Record session : Type := Session {
  headers : dict;
  session_expiry : option Z;
  clock_reads : nat;
  exchanges : list exchange;
  file_calls : nat;
  open_files : list (nat * value)
}.

Definition IO (A : Type) : Type := session -> (failure + A) * session.

Definition ret {A} (a : A) : IO A := fun s => (inr a, s).

Definition raise {A} (e : failure) : IO A := fun s => (inl e, s).

Definition bind {A B} (m : IO A) (k : A -> IO B) : IO B :=
  fun s =>
    match m s with
    | (inr a, s') => k a s'
    | (inl e, s') => (inl e, s')
    end.

(** An operation on values of [Py]. *)
Definition lift {A} (r : result A) : IO A :=
  fun s => (match r with inl e => inl (Builtin e) | inr a => inr a end, s).

Declare Scope sdk_scope.
Delimit Scope sdk_scope with sdk.
Notation "x <- m ;; k" := (bind m (fun x => k))
  (at level 61, m at next level, right associativity) : sdk_scope.
Notation "m ;;; k" := (bind m (fun _ => k))
  (at level 61, right associativity) : sdk_scope.
Local Open Scope sdk_scope.

(** [str.lower()] on the ASCII names that headers have. *)
Definition lower_ascii (c : ascii) : ascii :=
  let n := nat_of_ascii c in
  if (65 <=? n) && (n <=? 90) then ascii_of_nat (n + 32) else c.

Fixpoint lower (s : string) : string :=
  match s with
  | EmptyString => EmptyString
  | String c rest => String (lower_ascii c) (lower rest)
  end.

(** The [CaseInsensitiveDict] of [session.headers]. *)
Definition same_header (a b : string) : bool := String.eqb (lower a) (lower b).

Fixpoint header_lookup (k : string) (h : dict) : option value :=
  match h with
  | [] => None
  | (k', v) :: rest => if same_header k k' then Some v else header_lookup k rest
  end.

(** [h[k] = v]: an entry under the same name, whatever its case, is
    replaced where it stands. *)
Fixpoint header_set (k : string) (v : value) (h : dict) : dict :=
  match h with
  | [] => [(k, v)]
  | (k', v') :: rest =>
      if same_header k k' then (k, v) :: rest else (k', v') :: header_set k v rest
  end.

(** [h.update(new)]. *)
Definition headers_update (h new : dict) : dict :=
  fold_left (fun acc kv => header_set (fst kv) (snd kv) acc) new h.

Definition set_headers (s : session) (h : dict) : session :=
  Session h (session_expiry s) (clock_reads s) (exchanges s) (file_calls s)
          (open_files s).

Definition set_expiry (s : session) (t : Z) : session :=
  Session (headers s) (Some t) (clock_reads s) (exchanges s) (file_calls s)
          (open_files s).

Definition set_open_files (s : session) (l : list (nat * value)) : session :=
  Session (headers s) (session_expiry s) (clock_reads s) (exchanges s) (file_calls s) l.

Section Client.

Variable env : environment.

(** What [f"{v}"] gives. *)
Definition format (v : value) : string :=
  match v with
  | VStr s => s
  | _ => text_of env v
  end.

(** [datetime.now()]. *)
Definition now : IO Z :=
  fun s =>
    (inr (clock env (clock_reads s)),
     Session (headers s) (session_expiry s) (S (clock_reads s)) (exchanges s)
             (file_calls s) (open_files s)).

(** [self.session.request(...)]. *)
Definition send (r : http_request) : IO response :=
  fun s =>
    (transport env (exchanges s) (headers s) r,
     Session (headers s) (session_expiry s) (clock_reads s)
             (exchanges s ++ [(headers s, r)]) (file_calls s) (open_files s)).

(** [response.raise_for_status()]. *)
Definition raise_for_status (r : response) : IO unit :=
  if ((400 <=? status_code r) && (status_code r <? 600))%Z
  then raise (HTTPError (status_code r))
  else ret tt.

(** [response.json()]. *)
Definition json_of (r : response) : IO value :=
  match body r with
  | Some v => ret v
  | None => raise JSONDecodeError
  end.

Definition token_url : string := (base_auth_url env ++ "/oauth2/token/")%string.

Definition auth_payload : dict :=
  [("grant_type", grant_type env); ("client_id", client_id env);
   ("client_secret", client_secret env); ("username", username env);
   ("password", password env)].

Definition token_request : http_request :=
  HttpRequest "POST" token_url
    (Some [("Content-Type", VStr "application/x-www-form-urlencoded")])
    None (Some auth_payload) None None.

Definition new_headers (token : value) : dict :=
  [("Authorization", VStr ("Bearer " ++ format token)%string);
   ("Accept", VStr "*/*");
   ("Content-Type", VStr "application/json")].

(** [Authentication.authenticate] (wrappers/__init__.py, lines 55-83). *)
Definition authenticate : IO unit :=
  response <- send token_request ;;
  raise_for_status response ;;;
  response_content <- json_of response ;;
  expires_in <- lift (get response_content "expires_in" (VInt 3600)) ;;
  t <- now ;;
  expiry <- (fun s => (shift env t expires_in, s)) ;;
  (fun s => (inr tt, set_expiry s expiry)) ;;;
  token <- lift (getitem response_content "access_token") ;;
  (fun s => (inr tt, set_headers s (headers_update (headers s) (new_headers token)))).

(** A [requests.Session()] and nothing else yet. *)
Definition fresh : session := Session (default_headers env) None 0 [] 0 [].

(** [Authentication.__init__] (wrappers/__init__.py, lines 17-53). *)
Definition __init__ : (failure + unit) * session := authenticate fresh.

(** [self.session_expiry]. *)
Definition read_expiry : IO Z :=
  fun s =>
    (match session_expiry s with
     | Some t => inr t
     | None => inl (Builtin AttributeError)
     end, s).

(** [Authentication._make_request] (wrappers/__init__.py, lines 85-105)
    with the keyword arguments that its callers pass. *)
Definition _make_request (request_method : string) (url : string)
    (params json files : option dict) : IO value :=
  t <- now ;;
  expiry <- read_expiry ;;
  (if (t >? expiry)%Z then authenticate else ret tt) ;;;
  response <- send (HttpRequest request_method url None params None json files) ;;
  raise_for_status response ;;;
  json_of response.

(** [os.path.exists(path)]. *)
Definition exists_ (path : value) : IO bool :=
  fun s =>
    (path_exists env (file_calls s) path,
     Session (headers s) (session_expiry s) (clock_reads s) (exchanges s)
             (S (file_calls s)) (open_files s)).

(** [with open(path, "rb") as f: body]: the file is closed however the
    body ends. *)
Definition with_open {A} (path : value) (body_of : value -> IO A) : IO A :=
  fun s =>
    let fd := file_calls s in
    let s1 := Session (headers s) (session_expiry s) (clock_reads s) (exchanges s)
                      (S fd) (open_files s) in
    match open_rb env fd path with
    | Some e => (inl e, s1)
    | None =>
        let (r, s2) := body_of path (set_open_files s1 ((fd, path) :: open_files s1)) in
        (r, set_open_files s2
              (filter (fun f => negb (fst f =? fd)) (open_files s2)))
    end.

Definition not_found (path : value) : failure :=
  FileNotFoundError ("Attachment file '" ++ format path ++ "' not found.")%string.

(** [Claim.submit_claim_attachment] (submit_visits.py, lines 67-108). *)
Definition submit_claim_attachment (claim path_to_attachment attachment_type
    description : value) : IO value :=
  let url := (base_is_url env ++ "/v1/claim_attachments/upload_attachment/")%string in
  found <- exists_ path_to_attachment ;;
  if negb found then raise (not_found path_to_attachment)
  else
    with_open path_to_attachment (fun attachment =>
      let files := [("attachment", attachment)] in
      let payload := [("claim", claim); ("attachment_type", attachment_type);
                      ("description", description)] in
      _make_request "POST" url None (Some payload) (Some files)).

(** [Invoice.submit_invoice_attachment] (submit_visits.py, lines
    147-175). *)
Definition submit_invoice_attachment (invoice path_to_attachment description : value)
    : IO value :=
  let url := (base_is_url env ++ "/v1/invoice_attachments/upload_attachment/")%string in
  found <- exists_ path_to_attachment ;;
  if negb found then raise (not_found path_to_attachment)
  else
    with_open path_to_attachment (fun attachment =>
      let files := [("attachment", attachment)] in
      let payload := [("invoice", invoice); ("description", description)] in
      _make_request "POST" url None (Some payload) (Some files)).

(** [Visit.get_member_eligibility] (start_visits.py, lines 13-36). *)
Definition get_member_eligibility (member_number payer_slade_code : value) : IO value :=
  let eligibility_params :=
    [("member_number", member_number); ("payer_slade_code", payer_slade_code)] in
  let eligibility_resource := "/v1/beneficiaries/member_eligibility" in
  _make_request "GET" eligibility_resource (Some eligibility_params) None None.

(** [Visit.request_otp] (start_visits.py, lines 38-50). *)
Definition request_otp (contact_id : value) : IO value :=
  let resource :=
    ("/v1/beneficiaries/beneficiary_contacts/" ++ format contact_id ++ "/send_otp/")%string in
  let otp_url := (base_edi_url env ++ resource)%string in
  _make_request "POST" otp_url None None None ;;;
  ret VNone.

(** [Visit.start_visit_via_otp] (start_visits.py, lines 52-96). *)
Definition start_visit_via_otp (beneficiary_id factors benefit_type benefit_code
    policy_number policy_effective_date otp beneficiary_contact : value)
    (scheme_name scheme_code : option value) : IO value :=
  let url := (base_is_url env ++ "/v1/authorizations/start_visit/")%string in
  let default o := match o with Some v => v | None => VStr "" end in
  let payload :=
    [("beneficiary_id", beneficiary_id); ("factors", factors);
     ("benefit_type", benefit_type); ("benefit_code", benefit_code);
     ("policy_number", policy_number);
     ("policy_effective_date", policy_effective_date);
     ("otp", otp); ("beneficiary_contact", beneficiary_contact);
     ("scheme_name", default scheme_name); ("scheme_code", default scheme_code)] in
  _make_request "POST" url None (Some payload) None.

(** [Visit.validate_authorization_token] (start_visits.py, lines
    98-139). *)
Definition validate_authorization_token (first_name last_name other_names
    member_number auth_token : value)
    (visit_type scheme_code scheme_name payer_code : option value) : IO value :=
  let url := (base_is_url env ++ "/v1/authorizations/validate_authorization_token/")%string in
  let default o := match o with Some v => v | None => VStr "" end in
  let payload :=
    [("first_name", first_name); ("last_name", last_name);
     ("other_names", other_names); ("member_number", member_number);
     ("auth_token", auth_token); ("visit_type", default visit_type);
     ("scheme_code", default scheme_code); ("scheme_name", default scheme_name);
     ("payer_code", default payer_code)] in
  _make_request "POST" url None (Some payload) None.

(** [Visit.create_balance_reservation] (start_visits.py, lines
    141-164). *)
Definition create_balance_reservation (authorization invoice_number amount : value)
    : IO value :=
  let url :=
    (base_edi_url env ++ "/v1/balances/reservations/reserve_from_authorization/")%string in
  let payload :=
    [("authorization", authorization); ("invoice_number", invoice_number);
     ("amount", amount)] in
  _make_request "POST" url None (Some payload) None.

(** [Remittance.list_remittances] (post_visit.py, lines 15-22). *)
Definition list_remittances : IO value :=
  let url := (base_edi_url env ++ "/v1/remittances")%string in
  _make_request "GET" url None None None.

(** [Remittance.get_remittance] (post_visit.py, lines 24-33). *)
Definition get_remittance (claim_remittance_id : value) : IO value :=
  let url := (base_edi_url env ++ "/v1/remittances/claim_remittance")%string in
  let payload := [("claim_id", claim_remittance_id)] in
  _make_request "GET" url None (Some payload) None.

End Client.

End SDK.

(** [func( *args )] for a task of the deque: the positional arguments are
    bound to the parameters of the operation, [description] keeping its
    default [None] when it is not given. *)
Definition call_task (env : SDK.environment) (t : task) : SDK.IO value :=
  match func t, args t with
  | submit_claim_attachment, [claim; path; kind] =>
      SDK.submit_claim_attachment env claim path kind VNone
  | submit_claim_attachment, [claim; path; kind; description] =>
      SDK.submit_claim_attachment env claim path kind description
  | submit_invoice_attachment, [invoice; path] =>
      SDK.submit_invoice_attachment env invoice path VNone
  | submit_invoice_attachment, [invoice; path; description] =>
      SDK.submit_invoice_attachment env invoice path description
  | _, _ => SDK.raise (SDK.Builtin TypeError)
  end.

(** [str(e)] as the worker formats it: the message for the
    [FileNotFoundError] of the attachment operations. *)
Definition message (env : SDK.environment) (e : SDK.failure) : string :=
  match e with
  | SDK.FileNotFoundError m => m
  | _ => SDK.message_of env e
  end.

(** What a worker makes of a task (api.py, lines 54-58): the call
    returns, or its exception is caught and its text logged. *)
Definition run_task (env : SDK.environment) (t : task) (s : SDK.session)
    : outcome * SDK.session :=
  match call_task env t s with
  | (inr _, s') => (Returned, s')
  | (inl e, s') => (Raised (message env e), s')
  end.

(** The session as the calls of a pool leave it.  A call is one step
    of a worker, so the calls of a pool follow one another in the order
    of the trace, each on the session that the calls before it left. *)
Fixpoint session_after (env : SDK.environment) (s : SDK.session) (tr : list event)
    : SDK.session :=
  match tr with
  | [] => s
  | EvCall _ t _ :: rest => session_after env (snd (run_task env t s)) rest
  | _ :: rest => session_after env s rest
  end.

(** What running a task does in a pool whose tasks are the operations
    of the SDK on the session [s]. *)
Definition sdk_perform (env : SDK.environment) (s : SDK.session) (tr : list event)
    (t : task) : outcome :=
  fst (run_task env t (session_after env s tr)).

(** A session that holds a token: what the constructor leaves behind. *)
Definition authorized (s : SDK.session) : Prop :=
  (exists token, SDK.header_lookup "Authorization" (SDK.headers s) = Some (VStr token))
  /\ SDK.header_lookup "Accept" (SDK.headers s) = Some (VStr "*/*")
  /\ SDK.header_lookup "Content-Type" (SDK.headers s) = Some (VStr "application/json")
  /\ SDK.session_expiry s <> None.

(** No file object of the session has the number of a file still to be
    opened. *)
Definition files_in_order (s : SDK.session) : Prop :=
  Forall (fun f => fst f < SDK.file_calls s) (SDK.open_files s).

(** An upload of [path] as the network sees it: the file under
    ["attachment"], no headers of its own, and the session's JSON content
    type. *)
Definition upload_of (path : value) (x : SDK.exchange) : Prop :=
  SDK.http_method (snd x) = "POST"
  /\ SDK.http_files (snd x) = Some [("attachment", path)]
  /\ SDK.http_json (snd x) <> None
  /\ SDK.http_headers (snd x) = None
  /\ SDK.header_lookup "Content-Type" (fst x) = Some (VStr "application/json").

(** A status that [raise_for_status] turns into an [HTTPError]. *)
Definition refusing (resp : SDK.response) : bool :=
  ((400 <=? SDK.status_code resp) && (SDK.status_code resp <? 600))%Z.

(** What [raise_for_status] and [json] make of what the network gave. *)
Definition decoded (r : SDK.failure + SDK.response) : SDK.failure + value :=
  match r with
  | inl e => inl e
  | inr resp =>
      if refusing resp then inl (SDK.HTTPError (SDK.status_code resp))
      else match SDK.body resp with
           | Some v => inr v
           | None => inl SDK.JSONDecodeError
           end
  end.

(** The request [_make_request] hands to the session. *)
Definition api_request (request_method url : string) (params json files : option dict)
    : SDK.http_request :=
  SDK.HttpRequest request_method url None params None json files.

(** The session once [datetime.now()] has been read. *)
Definition tick (s : SDK.session) : SDK.session :=
  SDK.Session (SDK.headers s) (SDK.session_expiry s) (S (SDK.clock_reads s))
              (SDK.exchanges s) (SDK.file_calls s) (SDK.open_files s).

(** The session once the file system has been asked. *)
Definition asked (s : SDK.session) : SDK.session :=
  SDK.Session (SDK.headers s) (SDK.session_expiry s) (SDK.clock_reads s)
              (SDK.exchanges s) (S (SDK.file_calls s)) (SDK.open_files s).

(** ** Examples *)

Definition example_url : string := "https://is.example".

(** The scalar fields of a claim. *)
Definition example_claim : dict :=
  [("payer_code", VInt 7); ("payer_name", VStr "Payer");
   ("patient_name", VStr "Jane Doe"); ("member_number", VStr "M-001");
   ("scheme_name", VStr "Scheme"); ("visit_number", VStr "V-001");
   ("visit_start", VStr "2024-01-31T08:00:00"); ("visit_end", VStr "2024-01-31T09:00:00");
   ("icd10_codes", VList [VDict [("code", VStr "A00")]])].

Definition example_invoice (number : string) : dict :=
  [("invoice_number", VStr number); ("invoice_date", VStr "2024-01-31");
   ("lines", VList [])].

Definition example_claim_attachment : value :=
  VDict [("path_to_attachment", VStr "rx.pdf"); ("attachment_type", VStr "PRESCRIPTION")].

Definition example_invoice_attachment : value :=
  VDict [("path_to_attachment", VStr "invoice.pdf")].

(** One claim, two invoices, the first with one attachment, the second
    with none, no credit notes. *)
Definition example_scenario : dict :=
  example_claim
  ++ [("invoices",
       VList [VDict (example_invoice "INV-1"
                     ++ [("invoice_attachments", VList [example_invoice_attachment])]);
              VDict (example_invoice "INV-2")]);
      ("credit_notes", VList [])].

(** One claim and one credit note with an attachment. *)
Definition example_credit_scenario : dict :=
  example_claim
  ++ [("credit_notes",
       VList [VDict (example_invoice "CRN-1"
                     ++ [("crn_attachments", VList [example_invoice_attachment])])])].

(** One claim with one attachment of its own and two invoices without
    attachments. *)
Definition example_bundled : dict :=
  example_claim
  ++ [("invoices", VList [VDict (example_invoice "INV-1"); VDict (example_invoice "INV-2")]);
      ("claim_attachments", VList [example_claim_attachment]);
      ("credit_notes", VList [])].

(** A service that creates whatever it is asked to, numbering what it
    creates. *)
Definition example_remote (made : list call) (r : request) : result value :=
  inr (VDict [("id", VInt (Z.of_nat (length made)))]).

(** A service whose answers carry no identifier. *)
Definition example_remote_without_id (made : list call) (r : request) : result value :=
  inr (VDict [("status", VStr "created")]).

(** A service that is down. *)
Definition example_remote_down (made : list call) (r : request) : result value :=
  inl (RequestError "503 Service Unavailable").

(** Claim attachments fail (the file is not there), invoice attachments
    go through. *)
Definition example_perform (tr : list event) (t : task) : outcome :=
  match func t with
  | submit_claim_attachment => Raised "Attachment file 'rx.pdf' not found."
  | submit_invoice_attachment => Returned
  end.

Definition example_tasks : list task :=
  [Task submit_claim_attachment [VInt 0; VStr "rx.pdf"; VStr "PRESCRIPTION"; VNone];
   Task submit_invoice_attachment [VInt 1; VStr "invoice.pdf"; VStr ""]].

(** Two workers, two tasks: worker 0 takes the first and sees it raise
    while worker 1 runs the second. *)
Definition example_pool_schedule : list thread_id :=
  [Main; Main; Main; Main; Main; Main;
   Worker 0; Worker 1; Worker 0; Worker 1; Worker 0; Worker 1; Worker 0;
   Main; Main; Main; Main;
   Worker 1; Worker 0; Main; Main; Main].

Definition example_pool_end : pool :=
  Eval vm_compute in
    match run example_tasks 2 example_perform example_pool_schedule initial with
    | Some s => s
    | None => initial
    end.

(** Four workers, one task. *)
Definition example_claim_schedule : list thread_id :=
  repeat Main 7
  ++ [Worker 0; Worker 0; Worker 0; Worker 0]
  ++ repeat Main 6
  ++ [Worker 0; Worker 1; Worker 2; Worker 3]
  ++ repeat Main 5.

(** A batch of two claims, each a record of its own: the service is down
    for the first and up for the second. *)
Definition example_objects : list dict := [example_bundled; example_bundled].

Definition example_batch : list nat := [0; 1].

Definition example_remote_of (i : nat) : list call -> request -> result value :=
  match i with
  | 0 => example_remote_down
  | _ => example_remote
  end.

Definition example_bulk_schedule : list bulk_choice :=
  [BMain; BMain; BMain; BMain; BTake 0; BTake 1;
   BPop 0; BPop 1; BPop 0; BPop 1; BPop 0; BPop 1;
   BFinish 0 []; BFinish 1 example_claim_schedule; BMain].

Definition example_bulk_end : executor :=
  Eval vm_compute in
    match send_claims_in_bulk example_url (Some 4) example_remote_of
            (fun _ => example_perform) example_batch 2 example_bulk_schedule
            (bulk_initial example_objects) with
    | Some x => x
    | None => bulk_initial example_objects
    end.

(** A batch of one claim, submitted with two workers on a host with four
    processors. *)
Definition example_single_schedule (pool_schedule : list thread_id) : list bulk_choice :=
  [BMain; BMain; BMain; BTake 0; BPop 0; BPop 0; BPop 0; BFinish 0 pool_schedule; BMain].

Definition example_single_end : executor :=
  Eval vm_compute in
    match send_claims_in_bulk example_url (Some 4) (fun _ => example_remote)
            (fun _ => example_perform) [0] 2
            (example_single_schedule example_claim_schedule)
            (bulk_initial [example_bundled]) with
    | Some x => x
    | None => bulk_initial [example_bundled]
    end.

(** One record handed in twice, with one worker: both positions of the
    batch are the same object.  The first call pops the invoices and
    fails on them; the second finds a record without its lists, creates
    the claim again and goes through. *)
Definition example_empty_pool_schedule : list thread_id :=
  repeat Main 12 ++ [Worker 0; Worker 1; Worker 2; Worker 3] ++ repeat Main 5.

Definition example_shared_schedule : list bulk_choice :=
  [BMain; BMain; BMain; BMain;
   BTake 0; BPop 0; BPop 0; BPop 0; BFinish 0 [];
   BTake 0; BPop 0; BPop 0; BPop 0; BFinish 0 example_empty_pool_schedule;
   BMain].

Definition example_shared_end : executor :=
  Eval vm_compute in
    match send_claims_in_bulk example_url (Some 4) (fun _ => example_remote)
            (fun _ => example_perform) [0; 0] 1 example_shared_schedule
            (bulk_initial [example_scenario]) with
    | Some x => x
    | None => bulk_initial [example_scenario]
    end.

(** A record with an attachment of its own handed in twice, with two
    workers whose pops alternate: the first call gets the invoices, the
    second the claim attachments, and each goes through with its
    share. *)
Definition example_interleaved_schedule : list bulk_choice :=
  [BMain; BMain; BMain; BMain;
   BTake 0; BTake 1; BPop 0; BPop 1; BPop 1; BPop 0; BPop 0; BPop 1;
   BFinish 0 example_empty_pool_schedule; BFinish 1 example_claim_schedule;
   BMain].

Definition example_interleaved_end : executor :=
  Eval vm_compute in
    match send_claims_in_bulk example_url (Some 4) (fun _ => example_remote)
            (fun _ => example_perform) [0; 0] 2 example_interleaved_schedule
            (bulk_initial [example_bundled]) with
    | Some x => x
    | None => bulk_initial [example_bundled]
    end.

Definition example_orchestration : orchestration :=
  Eval vm_compute in
    match send_a_claim_and_its_children example_url example_remote (Some 4)
            example_perform example_bundled example_claim_schedule with
    | Some o => o
    | None => Aborted (start []) TypeError
    end.

Definition example_orchestration_without_id : orchestration :=
  Eval vm_compute in
    match send_a_claim_and_its_children example_url example_remote_without_id (Some 4)
            example_perform example_bundled [] with
    | Some o => o
    | None => Aborted (start []) TypeError
    end.

(** A pool without workers, as far as it gets. *)
Definition example_stuck_pool : pool :=
  Eval vm_compute in
    match run example_tasks 0 example_perform [Main; Main; Main; Main] initial with
    | Some s => s
    | None => initial
    end.

(** A claim whose attachment has no path. *)
Definition example_malformed : dict :=
  example_claim
  ++ [("invoices", VList [VDict (example_invoice "INV-1")]);
      ("claim_attachments", VList [VDict [("attachment_type", VStr "PRESCRIPTION")]])].

Definition example_malformed_orchestration : orchestration :=
  Eval vm_compute in
    match send_a_claim_and_its_children example_url example_remote (Some 4)
            example_perform example_malformed [] with
    | Some o => o
    | None => Aborted (start []) TypeError
    end.

(** The record of [example_orchestration] handed in a second time. *)
Definition example_second_orchestration : orchestration :=
  Eval vm_compute in
    match send_a_claim_and_its_children example_url example_remote (Some 4)
            example_perform (bundled_claim (session example_orchestration))
            (repeat Main 12 ++ [Worker 0; Worker 1; Worker 2; Worker 3] ++ repeat Main 5)
    with
    | Some o => o
    | None => Aborted (start []) TypeError
    end.

(** An authorization server that gives a token for a minute, one that
    refuses, and one whose answer has no token; the service itself
    creates what it is asked to. *)
Definition example_token : value :=
  VDict [("access_token", VStr "t0"); ("expires_in", VInt 60)].

Definition example_transport (token_response : SDK.response)
    (sent : list SDK.exchange) (h : dict) (r : SDK.http_request)
    : SDK.failure + SDK.response :=
  if String.eqb (SDK.http_url r) "https://auth.example/oauth2/token/"
  then inr token_response
  else inr (SDK.Response 201 (Some (VDict [("id", VInt 1)]))).

Definition example_env_with (token_response : SDK.response) : SDK.environment :=
  SDK.Environment "https://auth.example" "https://edi.example" example_url
    (VStr "client") (VStr "secret") (VStr "user") (VStr "pass") (VStr "password")
    [("User-Agent", VStr "python-requests"); ("Accept", VStr "*/*")]
    (fun _ => "?") (fun _ => "error")
    (fun n => Z.of_nat n * 1000000)%Z
    (fun t v => match v with
                | VInt z => inr (t + z * 1000000)%Z
                | _ => inl (SDK.Builtin TypeError)
                end)
    (example_transport token_response)
    (fun _ p => match p with
                | VStr s => inr (String.eqb s "invoice.pdf")
                | _ => inr false
                end)
    (fun _ _ => None).

Definition example_env : SDK.environment :=
  example_env_with (SDK.Response 200 (Some example_token)).

Definition example_env_refusing : SDK.environment :=
  example_env_with (SDK.Response 401 None).

Definition example_env_incomplete : SDK.environment :=
  example_env_with (SDK.Response 200 (Some (VDict [("token_type", VStr "Bearer")]))).

(** The session the constructor leaves, and the same session an hour
    later by its own reckoning. *)
Definition example_session : SDK.session :=
  Eval vm_compute in snd (SDK.__init__ example_env).

Definition example_expired : SDK.session :=
  SDK.Session (SDK.headers example_session) (Some 0%Z) 1 (SDK.exchanges example_session)
              0 [].

Definition example_refreshed : SDK.session :=
  Eval vm_compute in snd (SDK.authenticate example_env example_session).

Definition example_reply : (SDK.failure + value) * SDK.session :=
  Eval vm_compute in
    SDK._make_request example_env "GET" "https://edi.example/v1/remittances" None None None
      example_session.

Definition example_late_reply : (SDK.failure + value) * SDK.session :=
  Eval vm_compute in
    SDK._make_request example_env "GET" "https://edi.example/v1/remittances" None None None
      example_expired.

Definition example_refused : (SDK.failure + unit) * SDK.session :=
  Eval vm_compute in SDK.authenticate example_env_refusing (tick example_expired).

Definition example_upload : (SDK.failure + value) * SDK.session :=
  Eval vm_compute in
    call_task example_env
      (Task submit_invoice_attachment [VInt 1; VStr "invoice.pdf"; VStr ""])
      example_session.

(** The pool of [example_orchestration]. *)
Definition example_claim_pool : pool :=
  Eval vm_compute in
    match example_orchestration with
    | Processing _ p => p
    | Aborted _ _ => initial
    end.

(** The orchestration of [example_bundled] when the tasks are the
    operations of the SDK on [example_session]. *)
Definition example_sdk_orchestration : orchestration :=
  Eval vm_compute in
    match send_a_claim_and_its_children example_url example_remote (Some 4)
            (sdk_perform example_env example_session) example_bundled
            example_claim_schedule with
    | Some o => o
    | None => Aborted (start []) TypeError
    end.

Definition example_sdk_pool : pool :=
  Eval vm_compute in
    match example_sdk_orchestration with
    | Processing _ p => p
    | Aborted _ _ => initial
    end.

(** * Facts *)

(** Unfolding the definitions above by name. *)
Ltac unfold_step H :=
  unfold step, step_main, step_worker, at_main, put, at_worker in H.

Ltac unfold_run := unfold run, step, step_worker.

Ltac unfold_create_claim := unfold create_claim, traced, bind, lift, _make_request.

Ltac unfold_submit_invoices := unfold submit_invoices, traced, bind, lift, _make_request.

Ltac unfold_submit_credit_note :=
  unfold submit_credit_note, traced, bind, lift, _make_request.

Ltac unfold_prepare_claim :=
  unfold prepare_claim, start, pop_bundled, read_bundled, Py.pop, claim_kwargs.

Ltac unfold_send := unfold send_a_claim_and_its_children.

Ltac unfold_bulk_measure := unfold bulk_measure.

(** ** Lists *)

Section ListFacts.

Context {A : Type}.

Lemma update_length (i : nat) (x : A) (l : list A) : length (update i x l) = length l.
Proof.
  revert i; induction l as [|y l IH]; intros [|i]; simpl; auto.
Qed.

Lemma nth_error_update_same (i : nat) (x : A) (l : list A) :
  i < length l -> nth_error (update i x l) i = Some x.
Proof.
  revert i; induction l as [|y l IH]; intros [|i] H; simpl in *; try lia; auto.
  apply IH; lia.
Qed.

Lemma nth_error_update_other (i j : nat) (x : A) (l : list A) :
  i <> j -> nth_error (update i x l) j = nth_error l j.
Proof.
  revert i j; induction l as [|y l IH]; intros [|i] [|j] H; simpl; auto; try congruence.
Qed.

Lemma snoc_split (l pre post : list A) (e x : A) :
  l ++ [e] = pre ++ x :: post ->
  (post = [] /\ pre = l /\ x = e)
  \/ (exists post', post = post' ++ [e] /\ l = pre ++ x :: post').
Proof.
  destruct post as [|y post'] using rev_ind; intros H.
  - apply app_inj_tail in H as [-> ->]. left; auto.
  - clear IHpost'. change (pre ++ x :: post' ++ [y]) with (pre ++ (x :: post') ++ [y]) in H.
    rewrite app_assoc in H. apply app_inj_tail in H as [-> ->].
    right. exists post'. auto.
Qed.

Lemma flat_map_snoc {B : Type} (f : A -> list B) (l : list A) (x : A) :
  flat_map f (l ++ [x]) = flat_map f l ++ f x.
Proof. rewrite flat_map_app. simpl. now rewrite app_nil_r. Qed.

Lemma flat_map_update {B : Type} (f : A -> list B) (i : nat) (old new : A) (l : list A) :
  nth_error l i = Some old ->
  Permutation (f old ++ flat_map f (update i new l)) (f new ++ flat_map f l).
Proof.
  revert i; induction l as [|y l IH]; intros [|i] H; simpl in *; try discriminate.
  - injection H as ->. apply Permutation_app_swap_app.
  - specialize (IH _ H).
    rewrite (Permutation_app_swap_app (f old)), IH.
    apply Permutation_app_swap_app.
Qed.

End ListFacts.

Section PoolFacts.

Variable task_list : list task.
Variable num_workers : nat.
Variable perform : list event -> task -> outcome.

Local Abbreviation step := (step task_list num_workers perform).
Local Abbreviation run := (run task_list num_workers perform).
Local Abbreviation reachable := (reachable task_list num_workers perform).
Local Abbreviation pool_inv := (pool_inv num_workers).
Local Abbreviation phase_inv := (phase_inv num_workers).

Lemma total_snoc (f : worker_pc -> nat) (l : list worker_pc) (x : worker_pc) :
  total f (l ++ [x]) = total f l + f x.
Proof.
  unfold total. rewrite map_app, list_sum_app. simpl. lia.
Qed.

Lemma total_update (f : worker_pc -> nat) (w : nat) (old new : worker_pc) l :
  nth_error l w = Some old ->
  total f (update w new l) + f old = total f l + f new.
Proof.
  unfold total.
  revert w; induction l as [|y l IH]; intros [|w] H; simpl in *; try discriminate.
  - injection H as ->. lia.
  - specialize (IH _ H). lia.
Qed.

Lemma count_update (p : worker_pc -> bool) (w : nat) (old new : worker_pc) l :
  nth_error l w = Some old ->
  count p (update w new l) + (if p old then 1 else 0)
  = count p l + (if p new then 1 else 0).
Proof. apply total_update. Qed.

Lemma count_snoc (p : worker_pc -> bool) l x :
  count p (l ++ [x]) = count p l + (if p x then 1 else 0).
Proof. apply total_snoc. Qed.

Lemma count_le_length (p : worker_pc -> bool) l : count p l <= length l.
Proof.
  unfold count, total. induction l as [|y l IH]; simpl; [lia|].
  destruct (p y); lia.
Qed.

Lemma count_lt_length (p : worker_pc -> bool) l w pc :
  nth_error l w = Some pc -> p pc = false -> count p l < length l.
Proof.
  unfold count, total.
  revert w; induction l as [|y l IH]; intros [|w] H Hp; simpl in *; try discriminate.
  - injection H as ->. rewrite Hp. pose proof (count_le_length p l) as Hl.
    unfold count, total in Hl. lia.
  - specialize (IH _ H Hp). destruct (p y); lia.
Qed.

Lemma count_zero_nth (p : worker_pc -> bool) l w pc :
  count p l = 0 -> nth_error l w = Some pc -> p pc = false.
Proof.
  unfold count, total.
  revert w; induction l as [|y l IH]; intros [|w] H0 H; simpl in *; try discriminate.
  - injection H as ->. destruct (p pc); [lia|auto].
  - apply (IH w); auto. destruct (p y); lia.
Qed.

Lemma count_all (p : worker_pc -> bool) l :
  (forall j, j < length l -> exists pc, nth_error l j = Some pc /\ p pc = true) ->
  count p l = length l.
Proof.
  unfold count, total.
  induction l as [|y l IH]; intros H; simpl; auto.
  destruct (H 0) as (pc & Hpc & Hp); [simpl; lia|].
  simpl in Hpc. injection Hpc as ->. rewrite Hp. simpl. f_equal.
  apply IH. intros j Hj. apply (H (S j)). simpl. lia.
Qed.

Lemma in_call_idle l : count busy l = 0 -> in_call l = [].
Proof.
  unfold count, total, in_call.
  induction l as [|y l IH]; simpl; auto.
  destruct y; simpl; intros H; try lia; auto.
Qed.

Lemma to_log_idle l : count busy l = 0 -> to_log l = [].
Proof.
  unfold count, total, to_log.
  induction l as [|y l IH]; simpl; auto.
  destruct y; simpl; intros H; try lia; auto.
Qed.

Lemma queued_sentinels q : Forall is_sentinel q -> queued q = [].
Proof.
  induction 1 as [|x q Hx _ IH]; simpl; auto. rewrite Hx. auto.
Qed.


Ltac step_cases H :=
  unfold_step H;
  simpl in H;
  repeat match type of H with
         | context [match ?x with _ => _ end] => destruct x eqn:?
         | context [if ?x then _ else _] => destruct x eqn:?
         end;
  try discriminate H; injection H as <-.

Lemma pool_inv_initial : pool_inv (initial).
Proof.
  split; simpl; auto. unfold phase_inv; simpl. repeat split; auto; lia.
Qed.

Ltac arith_hyps :=
  repeat match goal with
         | H : (_ <? _) = true |- _ => apply Nat.ltb_lt in H
         | H : (_ <? _) = false |- _ => apply Nat.ltb_ge in H
         | H : (_ =? _) = true |- _ => apply Nat.eqb_eq in H
         | H : (_ =? _) = false |- _ => apply Nat.eqb_neq in H
         end.

Lemma length_zero_nil {A : Type} (l : list A) : length l = 0 -> l = [].
Proof. destruct l; simpl; [auto|discriminate]. Qed.

Lemma pool_inv_main s s' : pool_inv s -> step_main task_list num_workers s = Some s' -> pool_inv s'.
Proof.
  intros [Hc Hu Hp] H. destruct s as [m th q u tr]; simpl in *.
  unfold phase_inv in Hp; simpl in Hp.
  step_cases H; arith_hyps.
  all: split; simpl; unfold phase_inv; simpl.
  all: rewrite ?count_snoc, ?length_app; simpl.
  all: try (intuition (auto; lia)).
  - destruct Hp as (? & ? & -> & ? & ?). repeat split; auto; lia.
  - destruct Hp as (? & ? & ?). repeat split; auto.
    apply Forall_app; split; auto. constructor; auto. discriminate.
  - destruct Hp as (? & ? & ?). assert (q = []) as -> by (apply length_zero_nil; lia).
    simpl in *. repeat split; auto; lia.
  - destruct Hp as (? & ? & ? & ? & ?). repeat split; auto; try lia.
    apply Forall_app; split; auto. constructor; auto. reflexivity.
  - destruct Hp as (? & ? & ? & ? & ? & Hj).
    assert (joined < length th) by (apply nth_error_Some; congruence).
    repeat split; auto; try lia.
    intros j Hlt. destruct (Nat.eq_dec j joined) as [->|]; auto. apply Hj; lia.
  - match goal with
    | Hn : nth_error th joined = Some WCrashed |- _ =>
        pose proof (count_zero_nth crashed th joined WCrashed Hc Hn) as X; discriminate X
    end.
  - destruct Hp as (Hl & ? & ? & ? & Hq & Hj).
    apply nth_error_None in Heqo.
    assert (joined = num_workers) as -> by lia.
    repeat split; auto.
    apply length_zero_nil.
    rewrite (count_all exited) in Hq; [lia|].
    intros j Hlt. exists WExit. split; auto. apply Hj. lia.
Qed.

Ltac forall_inv :=
  repeat match goal with
         | H : Forall _ (_ :: _) |- _ => inversion H; subst; clear H
         | H : is_sentinel (Some _) |- _ => discriminate H
         | H : is_task None |- _ => exfalso; apply H; reflexivity
         | H : _ :: _ = [] |- _ => discriminate H
         end.

Ltac other_threads :=
  match goal with
  | Hall : (forall j, j < _ -> nth_error ?th j = Some WExit),
    Hn : nth_error ?th ?w = Some _
    |- forall j, j < _ -> nth_error (update ?w _ ?th) j = Some WExit =>
      let j := fresh "j" in
      let Hj := fresh "Hj" in
      intros j Hj; destruct (Nat.eq_dec w j) as [<-|];
      [ specialize (Hall _ Hj); congruence
      | rewrite nth_error_update_other by auto; auto ]
  end.

Lemma pool_inv_worker w s s' :
  pool_inv s -> step_worker perform w s = Some s' -> pool_inv s'.
Proof.
  intros [Hc Hu Hp] H. destruct s as [m th q u tr]; simpl in *.
  unfold phase_inv in Hp; simpl in Hp.
  step_cases H; arith_hyps.
  all: match goal with
       | Hn : nth_error ?th ?w = Some ?old |- context [update ?w ?new ?th] =>
           pose proof (count_update busy w old new th Hn) as Hb;
           pose proof (count_update exited w old new th Hn) as He;
           pose proof (count_update crashed w old new th Hn) as Hk;
           pose proof (fun h => count_zero_nth busy th w old h Hn) as Zb;
           simpl in Hb, He, Hk, Zb
       end.
  all: split; simpl; unfold phase_inv; simpl; rewrite ?update_length.
  all: try lia.
  all: destruct m; simpl in *.
  all: repeat match goal with H : _ /\ _ |- _ => destruct H end.
  all: forall_inv.
  all: try (specialize (Zb ltac:(assumption)); discriminate Zb).
  all: try lia.
  all: repeat match goal with |- _ /\ _ => split end; auto; try lia.
  all: try other_threads.
Qed.

Lemma pool_inv_step s who s' : pool_inv s -> step who s = Some s' -> pool_inv s'.
Proof.
  destruct who; simpl; eauto using pool_inv_main, pool_inv_worker.
Qed.

Lemma reachable_pool_inv s : reachable s -> pool_inv s.
Proof.
  induction 1; eauto using pool_inv_initial, pool_inv_step.
Qed.

Lemma run_app sched1 sched2 s :
  run (sched1 ++ sched2) s
  = match run sched1 s with Some s' => run sched2 s' | None => None end.
Proof.
  revert s; induction sched1 as [|who sched1 IH]; intros s; simpl; auto.
  destruct (step who s); auto.
Qed.

Lemma run_reachable sched s s' : reachable s -> run sched s = Some s' -> reachable s'.
Proof.
  revert s; induction sched as [|who sched IH]; intros s Hs H; simpl in H.
  - congruence.
  - destruct (step who s) eqn:E; [|discriminate].
    apply (IH p); [econstructor; eauto | exact H].
Qed.

Lemma reachable_run s : reachable s -> exists sched, run sched initial = Some s.
Proof.
  induction 1 as [|s who s' _ [sched IH] H].
  - exists []. reflexivity.
  - exists (sched ++ [who]). rewrite run_app, IH. simpl. now rewrite H.
Qed.

(** Every step makes the measure smaller. *)
Lemma step_measure s who s' :
  step who s = Some s' -> measure task_list num_workers s' < measure task_list num_workers s.
Proof.
  intros H. destruct s as [m th q u tr], who as [|w]; simpl in H.
  - step_cases H; arith_hyps; unfold measure, main_measure; simpl.
    all: rewrite ?length_app, ?total_snoc, ?flat_map_snoc; unfold queued; rewrite ?flat_map_snoc, ?length_app; simpl; try lia.
    all: match goal with
         | Hn : nth_error ?l ?i = Some _ |- _ =>
             assert (i < length l) by (apply nth_error_Some; rewrite Hn; discriminate)
         end.
    all: lia.
  - step_cases H; unfold measure, main_measure; simpl; rewrite ?update_length.
    all: match goal with
         | Hn : nth_error ?th ?w = Some ?old |- context [update ?w ?new ?th] =>
             pose proof (total_update weight w old new th Hn) as Hw; simpl in Hw
         end.
    all: destruct m; simpl; lia.
Qed.


Lemma run_measure sched s s' :
  run sched s = Some s' ->
  length sched + measure task_list num_workers s' <= measure task_list num_workers s.
Proof.
  revert s; induction sched as [|who sched IH]; intros s H; simpl in H.
  - injection H as ->. simpl. lia.
  - destruct (step who s) eqn:E; [|discriminate].
    apply step_measure in E. apply IH in H. simpl. lia.
Qed.

Lemma count_pos_nth (p : worker_pc -> bool) l :
  0 < count p l -> exists w pc, nth_error l w = Some pc /\ p pc = true.
Proof.
  unfold count, total. induction l as [|y l IH]; simpl; [lia|].
  destruct (p y) eqn:E; intros H.
  - exists 0, y. auto.
  - destruct (IH H) as (w & pc & ? & ?). exists (S w), pc. auto.
Qed.

Lemma idle_worker l w pc :
  count busy l = 0 -> count crashed l = 0 -> nth_error l w = Some pc ->
  pc = WGet \/ pc = WExit.
Proof.
  intros Hb Hc Hn.
  pose proof (count_zero_nth busy l w pc Hb Hn).
  pose proof (count_zero_nth crashed l w pc Hc Hn).
  destruct pc; simpl in *; auto; discriminate.
Qed.

Lemma busy_worker_steps s w pc :
  nth_error (threads s) w = Some pc -> busy pc = true ->
  exists s', step_worker perform w s = Some s'.
Proof.
  intros Hn Hb. unfold step_worker. rewrite Hn.
  destruct pc; simpl in Hb; try discriminate; eauto.
  - destruct (perform (trace s) t); eauto.
  - destruct (unfinished_tasks s); eauto.
Qed.

Lemma waiting_worker_steps s w :
  nth_error (threads s) w = Some WGet -> queue s <> [] ->
  exists s', step_worker perform w s = Some s'.
Proof.
  intros Hn Hq. unfold step_worker. rewrite Hn.
  destruct (queue s); [congruence|eauto].
Qed.

(** A pool with at least one worker is never stuck before the return. *)
Lemma progress s :
  1 <= num_workers -> pool_inv s -> main s <> MReturned ->
  exists who s', step who s = Some s'.
Proof.
  intros Hn [Hc Hu Hp] Hm. destruct s as [m th q u tr]; simpl in *.
  unfold phase_inv in Hp; simpl in Hp.
  destruct m as [k|rest| |k|i|]; try congruence.
  - exists Main. simpl. unfold step_main. simpl. destruct (k <? num_workers); eauto.
  - exists Main. simpl. unfold step_main. simpl. destruct rest; eauto.
  - destruct Hp as (Hl & Hq & He).
    destruct u as [|u'].
    { exists Main. simpl. unfold step_main. simpl. eauto. }
    destruct (Nat.eq_dec (count busy th) 0) as [Hb|Hb].
    + destruct (nth_error th 0) as [pc|] eqn:E0.
      2:{ apply nth_error_None in E0. lia. }
      destruct (idle_worker th 0 pc Hb Hc E0) as [->| ->].
      * destruct (waiting_worker_steps (Pool MJoin th q (S u') tr) 0 E0) as [s' Hs'].
        { simpl. destruct q; [simpl in Hu; lia|discriminate]. }
        exists (Worker 0), s'. exact Hs'.
      * pose proof (count_zero_nth exited th 0 WExit He E0). discriminate.
    + destruct (count_pos_nth busy th) as (w & pc & Hw & Hpc); [lia|].
      destruct (busy_worker_steps (Pool MJoin th q (S u') tr) w pc Hw Hpc) as [s' Hs'].
      exists (Worker w), s'. exact Hs'.
  - exists Main. simpl. unfold step_main. simpl. destruct (k <? num_workers); eauto.
  - destruct Hp as (Hl & Hi & Hq & Hb & He & Hj).
    destruct (nth_error th i) as [pc|] eqn:Ei.
    2:{ exists Main. simpl. unfold step_main. simpl. rewrite Ei. eauto. }
    destruct (idle_worker th i pc Hb Hc Ei) as [->| ->].
    + pose proof (count_lt_length exited th i WGet Ei eq_refl).
      destruct (waiting_worker_steps (Pool (MJoinThreads i) th q u tr) i Ei) as [s' Hs'].
      { simpl. destruct q; [simpl in He; lia|discriminate]. }
      exists (Worker i), s'. exact Hs'.
    + exists Main. simpl. unfold step_main. simpl. rewrite Ei. eauto.
Qed.

(** From wherever the pool stands, some schedule brings it to the return. *)
Lemma can_return s :
  1 <= num_workers -> pool_inv s ->
  exists sched s', run sched s = Some s' /\ main s' = MReturned.
Proof.
  intros Hn.
  remember (measure task_list num_workers s) as k eqn:Hk.
  revert s Hk. induction k as [k IH] using lt_wf_ind. intros s -> Hinv.
  destruct (main s) eqn:Em.
  6:{ exists [], s. auto. }
  all: destruct (progress s Hn Hinv) as (who & s1 & H1); [congruence|].
  all: destruct (IH _ (step_measure _ _ _ H1) s1 eq_refl (pool_inv_step _ _ _ Hinv H1))
         as (sched & s' & Hrun & Hret).
  all: exists (who :: sched), s'; simpl; rewrite H1; auto.
Qed.


Lemma occurrences_snoc (p : event -> bool) tr e :
  occurrences p (tr ++ [e]) = occurrences p tr + (if p e then 1 else 0).
Proof.
  unfold occurrences. rewrite filter_app, length_app. simpl. destruct (p e); simpl; lia.
Qed.

Local Abbreviation conservation := (conservation task_list).

Lemma conservation_initial : conservation initial.
Proof.
  split; simpl; rewrite ?app_nil_r; auto.
Qed.

Lemma called_snoc tr e : called (tr ++ [e]) = called tr ++ called [e].
Proof. unfold called. now rewrite flat_map_app. Qed.

Lemma dequeued_snoc tr e : dequeued (tr ++ [e]) = dequeued tr ++ dequeued [e].
Proof. unfold dequeued. now rewrite flat_map_app. Qed.

Lemma raised_lines_snoc tr e :
  raised_lines (tr ++ [e]) = raised_lines tr ++ raised_lines [e].
Proof. unfold raised_lines. now rewrite flat_map_app. Qed.

Lemma logged_snoc tr e : logged (tr ++ [e]) = logged tr ++ logged [e].
Proof. unfold logged. now rewrite flat_map_app. Qed.

Lemma queued_snoc q item : queued (q ++ [item]) = queued q ++ queued [item].
Proof. unfold queued. now rewrite flat_map_app. Qed.

Lemma in_call_snoc l pc : in_call (l ++ [pc]) = in_call l ++ in_call [pc].
Proof. unfold in_call. now rewrite flat_map_app. Qed.

Lemma to_log_snoc l pc : to_log (l ++ [pc]) = to_log l ++ to_log [pc].
Proof. unfold to_log. now rewrite flat_map_app. Qed.

Lemma in_call_update w old new l :
  nth_error l w = Some old ->
  Permutation (in_call [old] ++ in_call (update w new l)) (in_call [new] ++ in_call l).
Proof.
  intros H. unfold in_call. simpl. rewrite !app_nil_r.
  exact (flat_map_update (fun pc => match pc with WCall t => [t] | _ => [] end)
           w old new l H).
Qed.

Lemma to_log_update w old new l :
  nth_error l w = Some old ->
  Permutation (to_log [old] ++ to_log (update w new l)) (to_log [new] ++ to_log l).
Proof.
  intros H. unfold to_log. simpl. rewrite !app_nil_r.
  exact (flat_map_update (fun pc => match pc with WExcept m => [log_line m] | _ => [] end)
           w old new l H).
Qed.

Ltac history_snoc :=
  rewrite ?called_snoc, ?dequeued_snoc, ?raised_lines_snoc, ?logged_snoc,
    ?queued_snoc, ?in_call_snoc, ?to_log_snoc, ?occurrences_snoc, ?count_snoc,
    ?length_app;
  simpl; rewrite ?app_nil_r, ?Nat.add_0_r.

Lemma conservation_main s s' :
  conservation s -> step_main task_list num_workers s = Some s' -> conservation s'.
Proof.
  intros [H1 H2 H3 H4] H. destruct s as [m th q u tr]; simpl in *.
  step_cases H; arith_hyps.
  all: split; simpl in *; history_snoc; rewrite ?app_nil_r in *; auto; try lia.
  all: rewrite <- ?app_assoc; simpl; auto.
Qed.

Ltac use_update H Hyp :=
  match type of H with
  | Permutation (_ :: _) _ => rewrite <- H in Hyp
  | Permutation _ _ => try rewrite H
  end.

Ltac perm_finish :=
  rewrite <- ?app_assoc; simpl; try assumption;
  match goal with
  | H : Permutation ?a _ |- context [?a] =>
      rewrite H at 1; rewrite <- ?app_assoc; simpl;
      repeat apply Permutation_app_head;
      first [ reflexivity
            | symmetry; apply Permutation_middle
            | symmetry; apply Permutation_cons_append ]
  end.

Lemma conservation_worker w s s' :
  pool_inv s -> conservation s -> step_worker perform w s = Some s' -> conservation s'.
Proof.
  intros [Hc Hu _] [H1 H2 H3 H4] H. destruct s as [m th q u tr]; simpl in *.
  step_cases H.
  all: match goal with
       | Hn : nth_error ?th ?w = Some ?old |- context [update ?w ?new ?th] =>
           pose proof (count_update busy w old new th Hn) as Hb;
           pose proof (in_call_update w old new th Hn) as Hi;
           pose proof (to_log_update w old new th Hn) as Hl;
           simpl in Hb, Hi, Hl; rewrite ?app_nil_r in Hi, Hl
       end.
  all: split; simpl in *; history_snoc; rewrite ?app_nil_r in *; auto; try lia.
  all: use_update Hi H1; use_update Hl H4; perm_finish.
Qed.

Lemma conservation_step s who s' :
  pool_inv s -> conservation s -> step who s = Some s' -> conservation s'.
Proof.
  destruct who; simpl; eauto using conservation_main, conservation_worker.
Qed.

Lemma reachable_conservation s : reachable s -> conservation s.
Proof.
  induction 1; eauto using conservation_initial, conservation_step, reachable_pool_inv.
Qed.


Local Abbreviation trace_inv := (trace_inv task_list num_workers).

Lemma trace_inv_initial : trace_inv initial.
Proof.
  split; simpl; auto; try discriminate.
  all: try (intros [|w]; reflexivity).
  all: intros; exfalso; eapply app_cons_not_nil; eauto.
Qed.

Lemma nth_error_snoc {A : Type} (l : list A) (x : A) (i : nat) :
  nth_error (l ++ [x]) i
  = if i <? length l then nth_error l i else if i =? length l then Some x else None.
Proof.
  destruct (i <? length l) eqn:E; arith_hyps.
  - now apply nth_error_app1.
  - rewrite nth_error_app2 by lia.
    destruct (i =? length l) eqn:E'; arith_hyps.
    + subst. now rewrite Nat.sub_diag.
    + destruct (i - length l) as [|[|k]] eqn:Ek; simpl; auto. lia.
Qed.

Ltac split_trace H :=
  apply snoc_split in H as [(-> & -> & H) | (? & -> & H)];
  [ try discriminate H | ].

Lemma trace_inv_main s s' :
  pool_inv s -> conservation s -> trace_inv s ->
  step_main task_list num_workers s = Some s' -> trace_inv s'.
Proof.
  intros [Hc Hu Hp] [C1 C2 C3 C4] [TJ T0 T1 T2 T3 T4 T5 T6 T7 T8] H.
  destruct s as [m th q u tr]; simpl in *.
  unfold phase_inv in Hp; simpl in Hp.
  step_cases H; arith_hyps.
  all: split; simpl in *; history_snoc; auto; try discriminate; try lia.
  all: try (intros _; apply in_or_app; simpl; auto; fail).
  all: try (intros pre post E; apply T7 in E; discriminate E).
  all: try (intro; history_snoc; rewrite T6; auto; fail).
  all: try (intros; match goal with
                    | E : _ ++ [_] = _ ++ _ :: _ |- _ =>
                        split_trace E; try (apply T7 in E; discriminate E); eauto
                    end; fail).
  - intros i. history_snoc. rewrite T6, nth_error_snoc.
    destruct (i <? length th) eqn:E; arith_hyps; auto.
    assert (nth_error th i = None) as -> by (apply nth_error_None; lia).
    destruct (i =? length th); auto.
  - intros pre item post E. split_trace E; eauto.
    destruct Hp as (? & _). lia.
  - intros pre post E. split_trace E; eauto.
    destruct Hp as (_ & _ & He).
    assert (q = []) as -> by (apply length_zero_nil; lia).
    assert (count busy th = 0) as Hb by lia.
    rewrite (in_call_idle th Hb) in C1. simpl in *. rewrite ?app_nil_r in *.
    split; auto. lia.
  - intros pre item post E. split_trace E; eauto.
    destruct Hp as (? & _). lia.
  - destruct Hp as (Hl & ? & _).
    match goal with Hn : nth_error _ _ = None |- _ => apply nth_error_None in Hn end.
    lia.
  - intros pre post E. split_trace E; eauto.
    destruct Hp as (_ & _ & Hq & Hb & _).
    rewrite (queued_sentinels q Hq) in *. rewrite (in_call_idle th Hb) in *.
    simpl in *. rewrite ?app_nil_r in *. auto.
Qed.

Lemma trace_inv_worker w s s' :
  pool_inv s -> trace_inv s -> step_worker perform w s = Some s' -> trace_inv s'.
Proof.
  intros [Hc Hu Hp] [TJ T0 T1 T2 T3 T4 T5 T6 T7 T8] H.
  destruct s as [m th q u tr]; simpl in *.
  unfold phase_inv in Hp; simpl in Hp.
  step_cases H; arith_hyps.
  all: split; simpl in *; history_snoc; rewrite ?update_length; auto; try discriminate; try lia.
  all: try (intros ?; apply in_or_app; simpl; auto; fail).
  all: try (intros; match goal with
                    | E : _ ++ [_] = _ ++ _ :: _ |- _ =>
                        split_trace E; eauto
                    end; fail).
  all: intros i; history_snoc; rewrite T6.
  all: match goal with
       | Hn : nth_error ?th ?w = Some _ |- _ =>
           assert (w < length th) by (apply nth_error_Some; rewrite Hn; discriminate);
           destruct (Nat.eq_dec w i) as [<-|Hne];
           [ rewrite nth_error_update_same, Hn, ?Nat.eqb_refl by auto; reflexivity
           | rewrite nth_error_update_other by auto;
             try (apply Nat.eqb_neq in Hne; rewrite Hne); lia ]
       end.
Qed.

Lemma trace_inv_step s who s' :
  pool_inv s -> conservation s -> trace_inv s -> step who s = Some s' -> trace_inv s'.
Proof.
  destruct who; simpl; eauto using trace_inv_main, trace_inv_worker.
Qed.

Lemma reachable_trace_inv s : reachable s -> trace_inv s.
Proof.
  induction 1;
    eauto using trace_inv_initial, trace_inv_step, reachable_pool_inv,
      reachable_conservation.
Qed.

End PoolFacts.

(** ** The worker pool: what the specification says of it *)

Section PoolClaims.

Variable task_list : list task.
Variable num_workers : nat.
Variable perform : list event -> task -> outcome.

Local Abbreviation run := (run task_list num_workers perform).

Lemma called_invocations tr : called tr = map snd (invocations tr).
Proof.
  unfold called, invocations. induction tr as [|e tr IH]; simpl; auto.
  rewrite map_app, IH. destruct e; simpl; auto.
Qed.

Lemma run_from_initial schedule s :
  run schedule initial = Some s -> reachable task_list num_workers perform s.
Proof. apply run_reachable. constructor. Qed.

Lemma returned_facts s :
  reachable task_list num_workers perform s -> main s = MReturned ->
  Permutation task_list (dequeued (trace s))
  /\ Permutation task_list (called (trace s))
  /\ Permutation (raised_lines (trace s)) (logged (trace s))
  /\ occurrences is_task_done (trace s) = length task_list
  /\ length (threads s) = num_workers
  /\ Forall (eq WExit) (threads s)
  /\ queue s = [].
Proof.
  intros Hr Hm.
  destruct (reachable_pool_inv _ _ _ _ Hr) as [Hc Hu Hp].
  destruct (reachable_conservation _ _ _ _ Hr) as [C1 C2 C3 C4].
  unfold phase_inv in Hp. rewrite Hm in *. simpl in *.
  destruct Hp as (Hl & Hq & Hb & Hj).
  rewrite Hq, (in_call_idle _ Hb), ?(to_log_idle _ Hb) in *. simpl in *.
  rewrite ?app_nil_r, ?Nat.add_0_r in *.
  repeat split; auto; try lia.
  apply Forall_forall. intros pc Hin.
  apply In_nth_error in Hin as [j Hjn].
  assert (j < length (threads s)) by (apply nth_error_Some; congruence).
  rewrite Hj in Hjn by lia. congruence.
Qed.

(** C2. [_process_tasks] never returns before every enqueued task has
    been dequeued and its operation invoked exactly once, by one worker;
    and with at least one worker it does return. *)
Theorem process_tasks_completion_barrier schedule s :
  run schedule initial = Some s ->
  (forall pre post,
      trace s = pre ++ EvReturn :: post ->
      Permutation task_list (dequeued pre)
      /\ Permutation task_list (map snd (invocations pre)))
  /\ (main s = MReturned ->
      Permutation task_list (dequeued (trace s))
      /\ Permutation task_list (map snd (invocations (trace s))))
  /\ (1 <= num_workers ->
      exists schedule' s', run schedule' s = Some s' /\ main s' = MReturned).
Proof.
  intros H. apply run_from_initial in H.
  split; [|split].
  - intros pre post E. rewrite <- called_invocations.
    eapply tr_complete; eauto using reachable_trace_inv.
  - intros Hm. rewrite <- called_invocations.
    destruct (returned_facts s H Hm) as (? & ? & _). auto.
  - intros Hn. apply can_return; auto. now apply reachable_pool_inv in H.
Qed.


Lemma measure_initial :
  measure task_list num_workers initial = step_bound task_list num_workers.
Proof.
  unfold measure, main_measure, step_bound, total. simpl.
  rewrite Nat.sub_0_r. lia.
Qed.

(** After a raise the worker logs, acknowledges and is back at
    [queue.get()]; nobody else is touched. *)
Lemma raise_recovery s w t m :
  pool_inv num_workers s ->
  nth_error (threads s) w = Some (WCall t) ->
  perform (trace s) t = Raised m ->
  exists s3,
    run [Worker w; Worker w; Worker w] s = Some s3
    /\ nth_error (threads s3) w = Some WGet
    /\ trace s3 = trace s ++ [EvCall w t (Raised m); EvLog w (log_line m); EvTaskDone w]
    /\ S (unfinished_tasks s3) = unfinished_tasks s
    /\ queue s3 = queue s
    /\ main s3 = main s
    /\ (forall w', w' <> w -> nth_error (threads s3) w' = nth_error (threads s) w').
Proof.
  intros [Hc Hu Hp] Hn Hperf. destruct s as [pc th q u tr]; simpl in *.
  assert (Hw : w < length th) by (apply nth_error_Some; congruence).
  pose proof (count_pos_nth busy th) as Hpos.
  assert (Hbusy : 0 < count busy th).
  { destruct (count busy th) eqn:E; [|lia].
    pose proof (count_zero_nth busy th w (WCall t) E Hn). discriminate. }
  destruct u as [|u']; [lia|].
  eexists. split.
  { unfold_run; simpl.
    rewrite Hn, Hperf. simpl.
    rewrite nth_error_update_same by auto. simpl.
    rewrite nth_error_update_same by (rewrite update_length; auto). simpl.
    reflexivity. }
  simpl. repeat split; auto.
  - apply nth_error_update_same. now rewrite !update_length.
  - now rewrite <- !app_assoc.
  - intros w' Hne. now rewrite !nth_error_update_other by auto.
Qed.

(** C4. A task whose operation raises does not stop its worker nor the
    pool: the worker logs the error, acknowledges the task and goes back
    to the queue; the pool can always go on to its return, no schedule
    runs forever, and at the return every task has been called once,
    every raise has its log line, every task is acknowledged and all
    workers have ended and been joined. *)
Theorem failing_task_does_not_stop_the_pool schedule s :
  1 <= num_workers ->
  run schedule initial = Some s ->
  (forall w t m,
      nth_error (threads s) w = Some (WCall t) ->
      perform (trace s) t = Raised m ->
      exists s3,
        run [Worker w; Worker w; Worker w] s = Some s3
        /\ nth_error (threads s3) w = Some WGet
        /\ trace s3
           = trace s ++ [EvCall w t (Raised m); EvLog w (log_line m); EvTaskDone w]
        /\ S (unfinished_tasks s3) = unfinished_tasks s
        /\ queue s3 = queue s
        /\ main s3 = main s
        /\ (forall w', w' <> w -> nth_error (threads s3) w' = nth_error (threads s) w'))
  /\ (exists schedule' s', run schedule' s = Some s' /\ main s' = MReturned)
  /\ length schedule <= step_bound task_list num_workers
  /\ (main s = MReturned ->
      Permutation task_list (called (trace s))
      /\ Permutation (raised_lines (trace s)) (logged (trace s))
      /\ occurrences is_task_done (trace s) = length task_list
      /\ length (threads s) = num_workers
      /\ Forall (eq WExit) (threads s)
      /\ occurrences is_joined (trace s) = num_workers).
Proof.
  intros Hn H.
  pose proof (run_measure _ _ _ _ _ _ H) as Hbound.
  apply run_from_initial in H.
  pose proof (reachable_pool_inv _ _ _ _ H) as Hinv.
  repeat split.
  - intros w t m. now apply raise_recovery.
  - now apply can_return.
  - rewrite measure_initial in Hbound. lia.
  - now destruct (returned_facts s H H0) as (? & ? & _).
  - now destruct (returned_facts s H H0) as (? & ? & ? & _).
  - now destruct (returned_facts s H H0) as (? & ? & ? & ? & _).
  - now destruct (returned_facts s H H0) as (? & ? & ? & ? & ? & _).
  - now destruct (returned_facts s H H0) as (? & ? & ? & ? & ? & ? & _).
  - rewrite (tr_joined _ _ _ (reachable_trace_inv _ _ _ _ H)), H0. reflexivity.
Qed.

(** The life of the pool, read off the invariants. *)
Lemma pool_lifecycle schedule s :
  run schedule initial = Some s ->
  (forall pre item post,
      trace s = pre ++ EvPut item :: post ->
      occurrences is_start pre = num_workers
      /\ occurrences is_start (trace s) = num_workers)
  /\ (forall pre post,
        trace s = pre ++ EvPut None :: post ->
        exists before after,
          pre = before ++ EvBarrier :: after
          /\ Permutation task_list (called before)
          /\ occurrences is_task_done before = length task_list)
  /\ (main s = MReturned ->
      occurrences is_start (trace s) = num_workers
      /\ occurrences is_sentinel_put (trace s) = num_workers
      /\ (forall w, w < num_workers -> occurrences (is_sentinel_get w) (trace s) = 1)
      /\ queue s = []
      /\ length (threads s) = num_workers
      /\ Forall (eq WExit) (threads s)).
Proof.
  intros H. apply run_from_initial in H.
  pose proof (reachable_trace_inv _ _ _ _ H) as [TJ T0 T1 T2 T3 T4 T5 T6 T7 T8].
  pose proof (reachable_pool_inv _ _ _ _ H) as [Hc Hu Hp].
  split; [|split].
  - intros pre item post E. split; [eauto|].
    pose proof (T2 _ _ _ E) as Hpre.
    assert (Hge : num_workers <= occurrences is_start (trace s)).
    { rewrite E. unfold occurrences in *. rewrite filter_app, length_app. lia. }
    assert (Hle : length (threads s) <= num_workers).
    { unfold phase_inv in Hp. destruct (main s); intuition lia. }
    lia.
  - intros pre post E. pose proof (T4 _ _ E) as Hin.
    apply in_split in Hin as (before & after & ->).
    exists before, after. split; auto.
    apply (T3 before (after ++ EvPut None :: post)).
    rewrite E, <- app_assoc. reflexivity.
  - intros Hm. destruct (returned_facts s H Hm) as (_ & _ & _ & _ & Hl & Hall & Hq).
    rewrite T1, T5, Hm. simpl. repeat split; auto.
    intros w Hw. rewrite T6.
    destruct (nth_error (threads s) w) as [pc|] eqn:E.
    + rewrite Forall_forall in Hall. rewrite <- (Hall pc); auto.
      eapply nth_error_In; eauto.
    + apply nth_error_None in E. lia.
Qed.

(** C5. Exactly [num_workers] workers are started, all of them before
    anything is put on the queue; the stop sentinels are put only after
    the join barrier, exactly [num_workers] of them, and each worker
    takes one; when [_process_tasks] has returned every worker thread has
    ended. *)
Theorem worker_pool_lifecycle schedule s :
  run schedule initial = Some s ->
  (forall pre item post,
      trace s = pre ++ EvPut item :: post ->
      occurrences is_start pre = num_workers
      /\ occurrences is_start (trace s) = num_workers)
  /\ (forall pre post,
        trace s = pre ++ EvPut None :: post ->
        exists before after,
          pre = before ++ EvBarrier :: after
          /\ Permutation task_list (called before)
          /\ occurrences is_task_done before = length task_list)
  /\ (main s = MReturned ->
      occurrences is_start (trace s) = num_workers
      /\ occurrences is_sentinel_put (trace s) = num_workers
      /\ (forall w, w < num_workers -> occurrences (is_sentinel_get w) (trace s) = 1)
      /\ queue s = []
      /\ length (threads s) = num_workers
      /\ Forall (eq WExit) (threads s)).
Proof. apply pool_lifecycle. Qed.

End PoolClaims.

(** ** The orchestrator *)

Section DictFacts.

Lemma lookup_in_keys k d v : lookup k d = Some v -> In k (keys d).
Proof.
  induction d as [|[k' v'] d IH]; simpl; [discriminate|].
  destruct (String.eqb k k') eqn:E; auto.
  apply String.eqb_eq in E. subst. auto.
Qed.

Lemma lookup_remove_same k d : lookup k (remove k d) = None.
Proof.
  induction d as [|[k' v'] d IH]; simpl; auto.
  destruct (String.eqb k k') eqn:E; simpl; auto. now rewrite E.
Qed.

Lemma lookup_remove_other k k' d : k <> k' -> lookup k (remove k' d) = lookup k d.
Proof.
  intros Hne. induction d as [|[k1 v1] d IH]; simpl; auto.
  destruct (String.eqb k' k1) eqn:E; simpl.
  - apply String.eqb_eq in E. subst.
    destruct (String.eqb k k1) eqn:E'; auto.
    apply String.eqb_eq in E'. congruence.
  - now rewrite IH.
Qed.

Lemma mem_in k l : mem k l = true <-> In k l.
Proof.
  unfold mem. rewrite existsb_exists. split.
  - intros (x & Hx & E). apply String.eqb_eq in E. now subst.
  - intros H. exists k. split; auto. apply String.eqb_refl.
Qed.

(** Binding succeeds only when every keyword is a parameter. *)
Lemma bind_arguments_keys sg kwargs a k :
  bind_arguments sg kwargs = inr a -> has_key k kwargs = true ->
  mem k (params sg) = true.
Proof.
  unfold bind_arguments, has_key. intros H Hk.
  destruct (forallb (fun k => mem k (params sg)) (keys kwargs)) eqn:E; simpl in H;
    [|discriminate].
  rewrite forallb_forall in E. apply E.
  destruct (lookup k kwargs) eqn:El; [|discriminate].
  eapply lookup_in_keys; eauto.
Qed.

End DictFacts.

Section OrchestratorFacts.

Variable base_is_url : string.
Variable remote : list call -> request -> result value.

Local Abbreviation create_claim := (create_claim base_is_url remote).
Local Abbreviation submit_invoices := (submit_invoices base_is_url remote).
Local Abbreviation submit_credit_note := (submit_credit_note base_is_url remote).
Local Abbreviation prepare_claim := (prepare_claim base_is_url remote).

Lemma create_claim_wrapper : wrapper_of op_create_claim create_claim_signature create_claim.
Proof.
  intros kwargs st. unfold_create_claim.
  destruct (bind_arguments create_claim_signature kwargs) as [e|a] eqn:E; simpl.
  - eexists. split; [reflexivity|]. discriminate.
  - eexists. split; [reflexivity|]. eauto.
Qed.

Lemma submit_invoices_wrapper :
  wrapper_of op_submit_invoices submit_invoices_signature submit_invoices.
Proof.
  intros kwargs st. unfold_submit_invoices.
  destruct (bind_arguments submit_invoices_signature kwargs) as [e|a] eqn:E; simpl.
  - eexists. split; [reflexivity|]. discriminate.
  - eexists. split; [reflexivity|]. eauto.
Qed.

Lemma submit_credit_note_wrapper :
  wrapper_of op_submit_credit_note submit_credit_note_signature submit_credit_note.
Proof.
  intros kwargs st. unfold_submit_credit_note.
  destruct (bind_arguments submit_credit_note_signature kwargs) as [e|a] eqn:E; simpl.
  - eexists. split; [reflexivity|]. discriminate.
  - eexists. split; [reflexivity|]. eauto.
Qed.

Lemma has_key_app k d1 d2 : has_key k d2 = true -> has_key k (d1 ++ d2) = true.
Proof.
  unfold has_key. induction d1 as [|[k1 v1] d1 IH]; simpl; auto.
  destruct (String.eqb k k1); auto.
Qed.

(** A call [f(claim_id, **record)]: one more call on record; and it
    answers only for a mapping whose keys are all parameters of [f]. *)
Lemma call_with_claim_spec op sg f claim_id record st :
  wrapper_of op sg f ->
  exists c,
    call_with_claim op f claim_id record st
    = (call_result c, State (bundled_claim st) (calls st ++ [c]) (tasks st))
    /\ call_op c = op
    /\ (forall v, call_result c = inr v ->
        exists d, record = VDict d
                  /\ forall k, has_key k d = true -> mem k (params sg) = true).
Proof.
  intros Hf. unfold call_with_claim.
  destruct (keywords [("claim", claim_id)] record) as [e|kwargs] eqn:E.
  - exists (Call op [("claim", claim_id)] (inl e)). simpl. repeat split. discriminate.
  - destruct (Hf kwargs st) as (r & Hr & Hbind).
    exists (Call op kwargs r). simpl. repeat split; auto.
    intros v ->. destruct (Hbind v eq_refl) as [a Ha].
    unfold keywords in E. destruct record; try discriminate.
    destruct (existsb _ _); [discriminate|]. injection E as <-.
    eexists. split; [reflexivity|].
    intros k Hk. eapply bind_arguments_keys; eauto.
    now apply (has_key_app k [("claim", claim_id)]).
Qed.

Lemma invoice_attachment_tasks_spec atts id st :
  exists new r,
    invoice_attachment_tasks atts id st
    = (r, State (bundled_claim st) (calls st) (tasks st ++ new))
    /\ Forall (fun t => func t = submit_invoice_attachment
                        /\ hd_error (args t) = Some id) new
    /\ (r = inr tt -> length new = length atts)
    /\ (atts = [] -> new = []).
Proof.
  revert st. induction atts as [|a atts IH]; intros [b cs ts]; simpl.
  - exists [], (inr tt). rewrite app_nil_r. repeat split; auto.
  - unfold bind, lift; simpl.
    destruct (getitem a "path_to_attachment") as [e|path].
    { exists [], (inl e). rewrite app_nil_r. repeat split; auto; discriminate. }
    destruct (get a "description" (VStr "")) as [e|description].
    { exists [], (inl e). rewrite app_nil_r. repeat split; auto; discriminate. }
    destruct (IH (State b cs (ts ++ [Task submit_invoice_attachment [id; path; description]])))
      as (new & r & Heq & Hnew & Hlen & _).
    rewrite Heq. simpl. exists (Task submit_invoice_attachment [id; path; description] :: new), r.
    rewrite <- app_assoc. simpl. repeat split; auto; try discriminate.
Qed.

Lemma claim_attachment_tasks_spec atts id st :
  exists new r,
    claim_attachment_tasks atts id st
    = (r, State (bundled_claim st) (calls st) (tasks st ++ new))
    /\ Forall (fun t => func t = submit_claim_attachment
                        /\ hd_error (args t) = Some id) new
    /\ (r = inr tt -> length new = length atts).
Proof.
  revert st. induction atts as [|a atts IH]; intros [b cs ts]; simpl.
  - exists [], (inr tt). rewrite app_nil_r. repeat split; auto.
  - unfold bind, lift; simpl.
    destruct (getitem a "path_to_attachment") as [e|path].
    { exists [], (inl e). rewrite app_nil_r. repeat split; auto; discriminate. }
    destruct (getitem a "attachment_type") as [e|kind].
    { exists [], (inl e). rewrite app_nil_r. repeat split; auto; discriminate. }
    destruct (get a "description" VNone) as [e|description].
    { exists [], (inl e). rewrite app_nil_r. repeat split; auto; discriminate. }
    destruct (IH (State b cs (ts ++ [Task submit_claim_attachment [id; path; kind; description]])))
      as (new & r & Heq & Hnew & Hlen).
    rewrite Heq. simpl. exists (Task submit_claim_attachment [id; path; kind; description] :: new), r.
    rewrite <- app_assoc. simpl. repeat split; auto.
Qed.

Lemma invoices_loop_children records claim_id st :
  invoices_loop base_is_url remote records claim_id st
  = children_loop op_submit_invoices submit_invoices "invoice_attachments"
      records claim_id st.
Proof.
  revert st. induction records as [|record rest IH]; intros st; simpl; auto.
  unfold bind.
  repeat match goal with
         | |- context [match ?x with _ => _ end] => destruct x; auto
         end.
Qed.

Lemma credit_notes_loop_children records claim_id st :
  credit_notes_loop base_is_url remote records claim_id st
  = children_loop op_submit_credit_note submit_credit_note "crn_attachments"
      records claim_id st.
Proof.
  revert st. induction records as [|record rest IH]; intros st; simpl; auto.
  unfold bind.
  repeat match goal with
         | |- context [match ?x with _ => _ end] => destruct x; auto
         end.
Qed.

Lemma child_task_weaken c newc t : child_task newc t -> child_task (c :: newc) t.
Proof.
  intros (Hf & c' & id & Hin & Hid & Hhd). split; auto.
  exists c', id. simpl. auto.
Qed.

Lemma children_loop_spec op sg f key records claim_id st :
  wrapper_of op sg f ->
  exists newc newt r,
    children_loop op f key records claim_id st
    = (r, State (bundled_claim st) (calls st ++ newc) (tasks st ++ newt))
    /\ Forall (fun c => call_op c = op) newc
    /\ stopped_by r records newc
    /\ Forall (child_task newc) newt
    /\ (mem key (params sg) = false -> newt = []).
Proof.
  intros Hf. revert st.
  induction records as [|record rest IH]; intros [b cs ts]; simpl.
  { exists [], [], (inr tt). rewrite !app_nil_r. repeat split; auto. }
  destruct (call_with_claim_spec op sg f claim_id record (State b cs ts) Hf)
    as (c & Hc & Hop & Hkeys).
  simpl in Hc. unfold bind at 1. rewrite Hc.
  assert (Hstop : forall e, failure_of c = Some e ->
            exists newc newt r,
              (inl e : result unit, State b (cs ++ [c]) ts)
              = (r, State b (cs ++ newc) (ts ++ newt))
              /\ Forall (fun c => call_op c = op) newc
              /\ stopped_by r (record :: rest) newc
              /\ Forall (child_task newc) newt
              /\ (mem key (params sg) = false -> newt = [])).
  { intros e He. exists [c], [], (inl e). rewrite app_nil_r.
    repeat split; auto. right. exists [], c. auto. }
  destruct (call_result c) as [e|response] eqn:Er.
  { apply Hstop. unfold failure_of. now rewrite Er. }
  unfold bind at 1, lift at 1.
  destruct (getitem response "id") as [e|id] eqn:Eid.
  { apply Hstop. unfold failure_of. now rewrite Er, Eid. }
  assert (Hgood : good c) by (unfold good, failure_of; now rewrite Er, Eid).
  assert (Hid : identifier_of c = Some id) by (unfold identifier_of; now rewrite Er, Eid).
  clear Hstop.
  assert (Hquit : forall e newt,
            Forall (fun t => func t = submit_invoice_attachment
                             /\ hd_error (args t) = Some id) newt ->
            (mem key (params sg) = false -> newt = []) ->
            exists newc newt' r,
              (inl e : result unit, State b (cs ++ [c]) (ts ++ newt))
              = (r, State b (cs ++ newc) (ts ++ newt'))
              /\ Forall (fun c => call_op c = op) newc
              /\ stopped_by r (record :: rest) newc
              /\ Forall (child_task newc) newt'
              /\ (mem key (params sg) = false -> newt' = [])).
  { intros e newt Hnewt Hnone. exists [c], newt, (inl e).
    repeat split; auto.
    - left. auto.
    - eapply Forall_impl; [|exact Hnewt]. intros t (? & ?). split; auto.
      exists c, id. simpl. auto. }
  unfold bind at 1, lift at 1.
  destruct (get record key (VList [])) as [e|nested] eqn:Eget.
  { specialize (Hquit e [] (Forall_nil _) (fun _ => eq_refl)).
    rewrite app_nil_r in Hquit. exact Hquit. }
  unfold bind at 1, lift at 1.
  destruct (iter nested) as [e|attachments] eqn:Eiter.
  { specialize (Hquit e [] (Forall_nil _) (fun _ => eq_refl)).
    rewrite app_nil_r in Hquit. exact Hquit. }
  destruct (invoice_attachment_tasks_spec attachments id (State b (cs ++ [c]) ts))
    as (new1 & r1 & H1 & F1 & L1 & N1).
  simpl in H1. unfold bind at 1. rewrite H1.
  assert (Hnone : mem key (params sg) = false -> new1 = []).
  { intros Hk. apply N1.
    destruct (Hkeys response eq_refl) as (d & -> & Hd).
    simpl in Eget. injection Eget as <-.
    destruct (lookup key d) eqn:El.
    - assert (has_key key d = true) by (unfold has_key; now rewrite El).
      rewrite (Hd key) in Hk by auto. discriminate.
    - simpl in Eiter. now injection Eiter as <-. }
  destruct r1 as [e|[]].
  { apply (Hquit e new1); auto. }
  destruct (IH (State b (cs ++ [c]) (ts ++ new1)))
    as (newc & newt & r & Heq & Hops & Hstop & Hchild & Hnone').
  simpl in Heq. rewrite Heq.
  exists (c :: newc), (new1 ++ newt), r.
  rewrite <- !app_assoc. simpl. repeat split; auto.
  - destruct r as [e|[]]; simpl in *.
    + destruct Hstop as [Hall|(pre & c' & -> & Hpre & Hfail)]; [left; auto|].
      right. exists (c :: pre), c'. auto.
    + destruct Hstop. split; auto.
  - apply Forall_app. split.
    + eapply Forall_impl; [|exact F1]. intros t (? & ?). split; auto.
      exists c, id. simpl. auto.
    + eapply Forall_impl; [|exact Hchild]. intros t. apply child_task_weaken.
  - intros Hk. rewrite Hnone, Hnone' by auto. reflexivity.
Qed.

Lemma prepare_claim_unfold bundled :
  prepare_claim (start bundled)
  = match create_claim (claim_kwargs bundled) (State (claim_kwargs bundled) [] []) with
    | (inl e, st1) => (inl e, st1)
    | (inr claim_resp, st1) =>
        match getitem claim_resp "id" with
        | inl e => (inl e, st1)
        | inr claim_id =>
            (_process_claim_attachments
               (match lookup "claim_attachments" bundled with
                | Some v => v | None => VList [] end) claim_id ;;;
             _process_invoices base_is_url remote
               (match lookup "invoices" bundled with
                | Some v => v | None => VList [] end) claim_id ;;;
             _process_credit_notes base_is_url remote
               (match lookup "credit_notes" bundled with
                | Some v => v | None => VList [] end) claim_id) st1
        end
    end.
Proof.
  unfold_prepare_claim.
  unfold bind at 1 2 3 4 5. simpl.
  rewrite !lookup_remove_other by discriminate.
  destruct (create_claim _ _) as [[e|resp] st1]; auto.
Qed.

Lemma stopped_ends r records first newc :
  good first -> stopped_by r records newc -> ends_with r (first :: newc).
Proof.
  intros Hg. destruct r as [e|[]]; simpl.
  - intros [Hall|(pre & c & -> & Hpre & Hc)]; [left; auto|].
    right. exists (first :: pre), c. auto.
  - intros [Hall _]. auto.
Qed.

Lemma stopped_ends_app r records cs newc :
  Forall good cs -> stopped_by r records newc -> ends_with r (cs ++ newc).
Proof.
  intros Hg. destruct r as [e|[]]; simpl.
  - intros [Hall|(pre & c & -> & Hpre & Hc)].
    + left. apply Forall_app. auto.
    + right. exists (cs ++ pre), c. rewrite app_assoc. repeat split; auto.
      apply Forall_app. auto.
  - intros [Hall _]. apply Forall_app. auto.
Qed.

Lemma prepare_claim_spec bundled :
  exists r st first invs crns,
    prepare_claim (start bundled) = (r, st)
    /\ prepared bundled r st first invs crns.
Proof.
  rewrite prepare_claim_unfold.
  set (kwargs := claim_kwargs bundled).
  destruct (create_claim_wrapper kwargs (State kwargs [] [])) as (r0 & H0 & _).
  simpl in H0. rewrite H0.
  set (first := Call op_create_claim kwargs r0).
  assert (Hfail : forall e, failure_of first = Some e ->
            prepared bundled (inl e) (State kwargs [first] []) first [] []).
  { intros e He. split; simpl; auto.
    - right. exists [], first. auto.
    - intros e' He'. rewrite He in He'. injection He' as <-. auto.
    - discriminate.
    - discriminate.
    - discriminate. }
  destruct r0 as [e|claim_resp] eqn:Er0.
  { exists (inl e), (State kwargs [first] []), first, [], []. split; auto. }
  destruct (getitem claim_resp "id") as [e|claim_id] eqn:Eid.
  { exists (inl e), (State kwargs [first] []), first, [], []. split; auto.
    apply Hfail. unfold failure_of. simpl. now rewrite Eid. }
  clear Hfail.
  assert (Hgood : good first) by (unfold good, failure_of; simpl; now rewrite Eid).
  assert (Hident : identifier_of first = Some claim_id)
    by (unfold identifier_of; simpl; now rewrite Eid).
  assert (Hnofail : forall e, failure_of first = Some e -> False).
  { intros e He. unfold good in Hgood. congruence. }
  (* the claim attachments *)
  unfold bind at 1, _process_claim_attachments at 1, bind at 1, lift at 1.
  fold (items_of "claim_attachments" bundled).
  destruct (items_of "claim_attachments" bundled) as [e|ca_items] eqn:Eca.
  { exists (inl e), (State kwargs [first] []), first, [], []. split; auto.
    split; simpl; auto; try discriminate.
    intros e' He'. destruct (Hnofail _ He'). }
  destruct (claim_attachment_tasks_spec ca_items claim_id (State kwargs [first] []))
    as (ca_tasks & r1 & H1 & F1 & L1).
  simpl in H1. rewrite H1.
  assert (Htasks : Forall (fun t => func t = submit_claim_attachment
                                    /\ exists id, identifier_of first = Some id
                                                  /\ hd_error (args t) = Some id) ca_tasks).
  { eapply Forall_impl; [|exact F1]. intros t (? & ?). eauto. }
  destruct r1 as [e|[]].
  { exists (inl e), (State kwargs [first] ca_tasks), first, [], []. split; auto.
    split; simpl; auto; try discriminate.
    intros e' He'. destruct (Hnofail _ He'). }
  specialize (L1 eq_refl).
  (* the invoices *)
  unfold bind at 1, _process_invoices at 1, bind at 1, lift at 1.
  fold (items_of "invoices" bundled).
  destruct (items_of "invoices" bundled) as [e|inv_items] eqn:Einv.
  { exists (inl e), (State kwargs [first] ca_tasks), first, [], []. split; auto.
    split; simpl; auto; try discriminate.
    intros e' He'. destruct (Hnofail _ He'). }
  rewrite invoices_loop_children.
  destruct (children_loop_spec op_submit_invoices submit_invoices_signature
              submit_invoices "invoice_attachments" inv_items claim_id
              (State kwargs [first] ca_tasks) submit_invoices_wrapper)
    as (invs & inv_tasks & r2 & H2 & O2 & S2 & _ & N2).
  simpl in H2. rewrite H2. rewrite (N2 eq_refl), app_nil_r in *.
  destruct r2 as [e|[]].
  { exists (inl e), (State kwargs (first :: invs) ca_tasks), first, invs, [].
    split; auto. split; simpl; rewrite ?app_nil_r; auto; try discriminate.
    - apply (stopped_ends (inl e) inv_items first invs); auto.
    - intros e' He'. destruct (Hnofail _ He'). }
  (* the credit notes *)
  unfold _process_credit_notes at 1, bind at 1, lift at 1.
  fold (items_of "credit_notes" bundled).
  destruct (items_of "credit_notes" bundled) as [e|crn_items] eqn:Ecrn.
  { exists (inl e), (State kwargs (first :: invs) ca_tasks), first, invs, [].
    split; auto. split; simpl; rewrite ?app_nil_r; auto; try discriminate.
    - left. constructor; auto. simpl in S2. tauto.
    - intros e' He'. destruct (Hnofail _ He'). }
  rewrite credit_notes_loop_children.
  destruct (children_loop_spec op_submit_credit_note submit_credit_note_signature
              submit_credit_note "crn_attachments" crn_items claim_id
              (State kwargs (first :: invs) ca_tasks) submit_credit_note_wrapper)
    as (crns & crn_tasks & r3 & H3 & O3 & S3 & _ & N3).
  simpl in H3. rewrite H3. rewrite (N3 eq_refl), app_nil_r in *.
  exists r3, (State kwargs (first :: invs ++ crns) ca_tasks), first, invs, crns.
  split; auto. split; simpl; auto.
  - change (first :: invs ++ crns) with ((first :: invs) ++ crns).
    apply (stopped_ends_app r3 crn_items (first :: invs) crns); auto.
    constructor; auto. simpl in S2. tauto.
  - intros e' He'. destruct (Hnofail _ He').
  - intros items _ E. rewrite Eca in E. injection E as <-. auto.
  - intros items _ E. rewrite Einv in E. injection E as <-. simpl in S2. tauto.
  - intros items -> E. rewrite Ecrn in E. injection E as <-. simpl in S3. tauto.
Qed.

End OrchestratorFacts.


(** ** The orchestrator: what the specification says of it *)

Section OrchestratorClaims.

Variable base_is_url : string.
Variable remote : list call -> request -> result value.
Variable cpu_count : option nat.
Variable perform : list event -> task -> outcome.

Local Abbreviation prepare_claim := (prepare_claim base_is_url remote).
Local Abbreviation send_a_claim_and_its_children :=
  (send_a_claim_and_its_children base_is_url remote cpu_count perform).

Lemma default_workers_positive : 1 <= DEFAULT_NUM_OF_WORKERS cpu_count.
Proof. unfold DEFAULT_NUM_OF_WORKERS. destruct cpu_count as [[|n]|]; lia. Qed.

(** A failing call is the last call, and its failure is the outcome. *)
Lemma failing_call_is_last r cs pre c post e :
  ends_with r cs -> cs = pre ++ c :: post -> failure_of c = Some e ->
  post = [] /\ r = inl e.
Proof.
  intros Hends -> Hc.
  assert (Hbad : ~ Forall good (pre ++ c :: post)).
  { intros Hall. apply Forall_app in Hall as [_ Hall].
    inversion Hall as [|? ? Hg _]; subst. unfold good in Hg. congruence. }
  destruct r as [e'|[]]; simpl in Hends; [|tauto].
  destruct Hends as [Hall|(pre' & c' & Heq & Hpre & Hc')]; [tauto|].
  symmetry in Heq. apply snoc_split in Heq as [(-> & -> & ->)|(post' & -> & ->)].
  - split; auto. congruence.
  - exfalso. apply Forall_app in Hpre as [_ Hpre].
    inversion Hpre as [|? ? Hg _]; subst. unfold good in Hg. congruence.
Qed.

(** What [send_a_claim_and_its_children] returns, from what
    [prepare_claim] did. *)
Lemma send_cases bundled schedule o :
  send_a_claim_and_its_children bundled schedule = Some o ->
  exists r first invs crns,
    prepare_claim (start bundled) = (r, session o)
    /\ prepared bundled r (session o) first invs crns
    /\ match o with
       | Aborted _ e => r = inl e
       | Processing st p =>
           r = inr tt
           /\ run (tasks st) (DEFAULT_NUM_OF_WORKERS cpu_count) perform schedule initial
              = Some p
       end.
Proof.
  unfold_send.
  destruct (prepare_claim_spec base_is_url remote bundled)
    as (r & st & first & invs & crns & Heq & Hprep).
  rewrite Heq. destruct r as [e|[]].
  - intros H. injection H as <-. simpl. exists (inl e), first, invs, crns. auto.
  - destruct (run _ _ _ _ _) as [p|] eqn:Hrun; [|discriminate].
    intros H. injection H as <-. simpl. exists (inr tt), first, invs, crns. auto.
Qed.

Lemma calls_of_other op op' cs :
  op <> op' -> Forall (fun c => call_op c = op') cs -> calls_of op cs = 0.
Proof.
  intros Hne. unfold calls_of. induction 1 as [|c cs Hc _ IH]; simpl; auto.
  unfold made_by at 1. rewrite Hc. destruct op, op'; simpl; auto; congruence.
Qed.

Lemma calls_of_same op cs :
  Forall (fun c => call_op c = op) cs -> calls_of op cs = length cs.
Proof.
  unfold calls_of. induction 1 as [|c cs Hc _ IH]; simpl; auto.
  unfold made_by at 1. rewrite Hc. destruct op; simpl; auto.
Qed.

Lemma calls_of_app op cs1 cs2 : calls_of op (cs1 ++ cs2) = calls_of op cs1 + calls_of op cs2.
Proof. unfold calls_of. now rewrite filter_app, length_app. Qed.

Lemma prepared_call_counts bundled r st first invs crns :
  prepared bundled r st first invs crns ->
  calls_of op_create_claim (calls st) = 1
  /\ calls_of op_submit_invoices (calls st) = length invs
  /\ calls_of op_submit_credit_note (calls st) = length crns.
Proof.
  intros [? Hcalls Hop ? Hinv Hcrn _ _ _ _ _ _]. rewrite Hcalls.
  change (first :: invs ++ crns) with ([first] ++ invs ++ crns).
  rewrite !calls_of_app.
  rewrite (calls_of_other op_create_claim op_submit_invoices invs) by (auto; discriminate).
  rewrite (calls_of_other op_create_claim op_submit_credit_note crns) by (auto; discriminate).
  rewrite (calls_of_other op_submit_invoices op_submit_credit_note crns) by (auto; discriminate).
  rewrite (calls_of_other op_submit_credit_note op_submit_invoices invs) by (auto; discriminate).
  rewrite (calls_of_same op_submit_invoices invs), (calls_of_same op_submit_credit_note crns)
    by auto.
  unfold calls_of, made_by. simpl. rewrite Hop. simpl. lia.
Qed.

Lemma has_key_remove_same k d : has_key k (remove k d) = false.
Proof. unfold has_key. now rewrite lookup_remove_same. Qed.

Lemma has_key_remove k k' d : has_key k d = false -> has_key k (remove k' d) = false.
Proof.
  unfold has_key. destruct (String.eqb k k') eqn:E.
  - apply String.eqb_eq in E. subst. now rewrite lookup_remove_same.
  - apply String.eqb_neq in E. now rewrite lookup_remove_other.
Qed.

(** C8. The orchestrator first takes [invoices], [claim_attachments]
    and [credit_notes] out of the record and calls [create_claim] with
    what is left; it calls it once; and when that call fails the error
    leaves the orchestrator with no other call made, no task built and no
    pool started. *)
Theorem create_claim_first_and_fail_fast bundled :
  exists r st first rest,
    prepare_claim (start bundled) = (r, st)
    /\ bundled_claim st = claim_kwargs bundled
    /\ has_key "invoices" (claim_kwargs bundled) = false
    /\ has_key "claim_attachments" (claim_kwargs bundled) = false
    /\ has_key "credit_notes" (claim_kwargs bundled) = false
    /\ (forall k, k <> "invoices" -> k <> "claim_attachments" -> k <> "credit_notes" ->
        lookup k (claim_kwargs bundled) = lookup k bundled)
    /\ calls st = first :: rest
    /\ call_op first = op_create_claim
    /\ call_kwargs first = claim_kwargs bundled
    /\ calls_of op_create_claim (calls st) = 1
    /\ (forall e, call_result first = inl e ->
        r = inl e /\ rest = [] /\ tasks st = []
        /\ forall schedule,
             send_a_claim_and_its_children bundled schedule = Some (Aborted st e)).
Proof.
  destruct (prepare_claim_spec base_is_url remote bundled)
    as (r & st & first & invs & crns & Heq & Hprep).
  exists r, st, first, (invs ++ crns).
  pose proof (prepared_call_counts _ _ _ _ _ _ Hprep) as (Hone & _).
  destruct Hprep as [Hb Hcalls Hop Hkw _ _ _ Hfail _ _ _ _].
  repeat match goal with |- _ /\ _ => split end; auto.
  - unfold claim_kwargs. do 2 apply has_key_remove. apply has_key_remove_same.
  - unfold claim_kwargs. apply has_key_remove. apply has_key_remove_same.
  - unfold claim_kwargs. apply has_key_remove_same.
  - intros k H1 H2 H3. unfold claim_kwargs. now rewrite !lookup_remove_other by auto.
  - intros e He.
    assert (Hf : failure_of first = Some e) by (unfold failure_of; now rewrite He).
    destruct (Hfail e Hf) as (-> & -> & -> & Ht).
    repeat match goal with |- _ /\ _ => split end; auto.
    intros schedule. unfold_send. now rewrite Heq.
Qed.


(** C9. A creation call whose answer is a mapping without ["id"] ends
    the orchestration with [KeyError("id")], just as a creation call that
    raises ends it with what it raised: the call is the last one made and
    the orchestrator is left before [_process_tasks]. *)
Theorem missing_id_aborts_like_a_failure bundled schedule o pre c post :
  send_a_claim_and_its_children bundled schedule = Some o ->
  calls (session o) = pre ++ c :: post ->
  (forall d, call_result c = inr (VDict d) -> lookup "id" d = None ->
     post = [] /\ o = Aborted (session o) (KeyError "id"))
  /\ (forall e, call_result c = inl e ->
        post = [] /\ o = Aborted (session o) e).
Proof.
  intros Hsend Hcalls.
  destruct (send_cases _ _ _ Hsend) as (r & first & invs & crns & _ & Hprep & Ho).
  assert (Hlast : forall e, failure_of c = Some e ->
            post = [] /\ o = Aborted (session o) e).
  { intros e He.
    destruct (failing_call_is_last r _ pre c post e (prep_ends _ _ _ _ _ _ Hprep) Hcalls He)
      as (-> & ->).
    split; auto. destruct o as [st e'|st p]; simpl in *.
    - congruence.
    - destruct Ho. discriminate. }
  split.
  - intros d Hd Hid. apply Hlast. unfold failure_of. rewrite Hd. simpl. now rewrite Hid.
  - intros e He. apply Hlast. unfold failure_of. now rewrite He.
Qed.

Lemma history_split (cs : list call) (tr : list event) pre ev post :
  map inl cs ++ map inr tr = pre ++ inr ev :: post ->
  exists before after,
    tr = before ++ ev :: after
    /\ pre = map inl cs ++ map inr before.
Proof.
  revert pre. induction cs as [|c cs IH]; intros pre H; simpl in *.
  - apply map_eq_app in H as (before & rest & -> & <- & Hrest).
    apply map_eq_cons in Hrest as (ev' & after & -> & Hev & _).
    injection Hev as ->. exists before, after. auto.
  - destruct pre as [|x pre]; simpl in H; [discriminate|].
    injection H as <- H. destruct (IH pre H) as (before & after & -> & ->).
    exists before, after. auto.
Qed.

Lemma dispatched_in_tasks task_list n s before ev after t :
  reachable task_list n perform s ->
  trace s = before ++ ev :: after ->
  dispatched ev = Some t ->
  In t task_list.
Proof.
  intros Hr Htr Hev.
  destruct (reachable_conservation _ _ _ _ Hr) as [C1 C2 _ _].
  destruct ev as [| |w [t'|]|w t' o| | | | |]; simpl in Hev; try discriminate;
    injection Hev as ->.
  - eapply Permutation_in; [symmetry; exact C2|].
    rewrite Htr. unfold dequeued. rewrite flat_map_app. simpl.
    apply in_or_app. left. apply in_or_app. right. simpl. auto.
  - eapply Permutation_in; [symmetry; exact C1|].
    rewrite Htr. unfold called. rewrite flat_map_app. simpl.
    apply in_or_app. left. apply in_or_app. right. simpl. auto.
Qed.

(** Every task built is bound to the call that made its parent. *)
Lemma prepared_bound bundled r st first invs crns :
  prepared bundled r st first invs crns -> Forall (bound_to (calls st)) (tasks st).
Proof.
  intros Hprep.
  eapply Forall_impl; [|exact (prep_tasks _ _ _ _ _ _ Hprep)].
  intros t (Hfunc & id & Hid & Hhd). exists first, id. repeat split; auto.
  - rewrite (prep_calls _ _ _ _ _ _ Hprep). simpl. auto.
  - rewrite Hfunc, (prep_first_op _ _ _ _ _ _ Hprep). reflexivity.
Qed.

(** C3. Whenever a worker is handed an attachment task, or runs it, the
    creation call of the task's parent resource is already in the
    history, it returned an identifier, and the task carries that
    identifier. *)
Theorem attachments_after_parent_creation bundled schedule o pre ev post t :
  send_a_claim_and_its_children bundled schedule = Some o ->
  history o = pre ++ inr ev :: post ->
  dispatched ev = Some t ->
  exists c id,
    In (inl c) pre
    /\ identifier_of c = Some id
    /\ hd_error (args t) = Some id
    /\ parent_of (func t) (call_op c) = true.
Proof.
  intros Hsend Hhist Hev.
  destruct (send_cases _ _ _ Hsend) as (r & first & invs & crns & _ & Hprep & Ho).
  destruct o as [st e|st p]; simpl in *.
  - exfalso. clear - Hhist. revert pre Hhist.
    induction (calls st) as [|c cs IH]; intros pre H; simpl in H.
    + destruct pre; discriminate.
    + destruct pre as [|x pre]; simpl in H; [discriminate|].
      injection H as _ H. eauto.
  - destruct Ho as (_ & Hrun).
    apply history_split in Hhist as (before & after & Htr & ->).
    assert (Hin : In t (tasks st)).
    { eapply dispatched_in_tasks; eauto.
      eapply run_reachable; eauto. constructor. }
    pose proof (prepared_bound _ _ _ _ _ _ Hprep) as Hbound.
    rewrite Forall_forall in Hbound.
    destruct (Hbound t Hin) as (c & id & Hc & Hid & Hhd & Hparent).
    exists c, id. repeat split; auto.
    apply in_or_app. left. now apply in_map.
Qed.

End OrchestratorClaims.



(** ** The bulk dispatcher *)

Section RecordFacts.

Lemma remove_missing k d : lookup k d = None -> remove k d = d.
Proof.
  unfold remove. induction d as [|[k' v] d IH]; simpl; auto.
  destruct (String.eqb k k'); [discriminate|]. simpl. intros H. now rewrite IH.
Qed.

Lemma remove_comm k k' d : remove k (remove k' d) = remove k' (remove k d).
Proof.
  unfold remove. induction d as [|[k1 v] d IH]; simpl; auto.
  destruct (String.eqb k' k1) eqn:E1, (String.eqb k k1) eqn:E2; simpl;
    rewrite ?E1, ?E2; simpl; now rewrite IH.
Qed.

Lemma remove_idem k d : remove k (remove k d) = remove k d.
Proof. apply remove_missing, lookup_remove_same. Qed.

Lemma lookup_remove_none k k' d : lookup k d = None -> lookup k (remove k' d) = None.
Proof.
  destruct (String.eqb k k') eqn:E.
  - apply String.eqb_eq in E. subst. intros _. apply lookup_remove_same.
  - apply String.eqb_neq in E. intros H. now rewrite lookup_remove_other.
Qed.

Lemma taken_remove_same k d : taken k (remove k d) = VList [].
Proof. unfold taken. simpl. now rewrite lookup_remove_same. Qed.

Lemma taken_remove_other k k' d : k <> k' -> taken k (remove k' d) = taken k d.
Proof. intros H. unfold taken. simpl. now rewrite lookup_remove_other. Qed.

Lemma taken_missing k d : lookup k d = None -> taken k d = VList [].
Proof. unfold taken. simpl. now intros ->. Qed.

Lemma claim_kwargs_remove k d : In k popped_keys -> claim_kwargs (remove k d) = claim_kwargs d.
Proof.
  unfold claim_kwargs. simpl. intros [<-|[<-|[<-|[]]]].
  - now rewrite remove_idem.
  - rewrite (remove_comm "invoices" "claim_attachments"). now rewrite remove_idem.
  - rewrite (remove_comm "invoices" "credit_notes").
    rewrite (remove_comm "claim_attachments" "credit_notes"). now rewrite remove_idem.
Qed.

Lemma claim_kwargs_app d1 d2 : claim_kwargs (d1 ++ d2) = claim_kwargs d1 ++ claim_kwargs d2.
Proof. unfold claim_kwargs, remove. now rewrite !filter_app. Qed.

Lemma claim_kwargs_popped got :
  (forall k, In k (map fst got) -> In k popped_keys) -> claim_kwargs got = [].
Proof.
  induction got as [|[k v] got IH]; intros H; [reflexivity|].
  change ((k, v) :: got) with ([(k, v)] ++ got). rewrite claim_kwargs_app.
  rewrite IH by (intros k' Hk'; apply H; simpl; auto). rewrite app_nil_r.
  specialize (H k (or_introl eq_refl)). simpl in H.
  destruct H as [<-|[<-|[<-|[]]]]; reflexivity.
Qed.

Lemma claim_kwargs_missing d :
  (forall k, In k popped_keys -> lookup k d = None) -> claim_kwargs d = d.
Proof.
  intros H. unfold claim_kwargs.
  rewrite (remove_missing "invoices") by (apply H; simpl; auto).
  rewrite (remove_missing "claim_attachments") by (apply H; simpl; auto).
  apply remove_missing. apply H. simpl. auto.
Qed.

Lemma claim_kwargs_lacks k d : In k popped_keys -> lookup k (claim_kwargs d) = None.
Proof.
  unfold claim_kwargs. simpl. intros [<-|[<-|[<-|[]]]].
  - do 2 apply lookup_remove_none. apply lookup_remove_same.
  - apply lookup_remove_none. apply lookup_remove_same.
  - apply lookup_remove_same.
Qed.

Lemma rest_after_all c : rest_after c (length popped_keys) = claim_kwargs c.
Proof. reflexivity. Qed.

Lemma nth_update_same {A : Type} (a : nat) (d def : A) (h : list A) :
  a < length h -> nth a (update a d h) def = d.
Proof.
  revert a. induction h as [|y h IH]; intros [|a] H; simpl in *; try lia; auto.
  apply IH. lia.
Qed.

Lemma nth_update_other {A : Type} (a a' : nat) (d def : A) (h : list A) :
  a <> a' -> nth a' (update a d h) def = nth a' h def.
Proof.
  revert a a'. induction h as [|y h IH]; intros [|a] [|a'] H; simpl; auto; congruence.
Qed.

Lemma update_beyond {A : Type} (a : nat) (d : A) (h : list A) :
  length h <= a -> update a d h = h.
Proof.
  revert a. induction h as [|y h IH]; intros [|a] H; simpl in *; auto; try lia.
  rewrite IH by lia. reflexivity.
Qed.

(** What a pop leaves in the heap. *)
Lemma record_at_pop key a a' h :
  record_at (update a (remove key (record_at h a)) h) a'
  = if a =? a' then remove key (record_at h a) else record_at h a'.
Proof.
  unfold record_at. destruct (Nat.eqb_spec a a') as [<-|Hne].
  - destruct (Nat.lt_ge_cases a (length h)) as [Hlt|Hge].
    + now apply nth_update_same.
    + rewrite update_beyond by lia. now rewrite (nth_overflow h) by lia.
  - now apply nth_update_other.
Qed.

Lemma same_record_sees c view : same_record c view -> sees c view.
Proof. intros [H1 H2]. split; auto. Qed.

End RecordFacts.

Section ViewFacts.

Variable base_is_url : string.
Variable remote : list call -> request -> result value.
Variable cpu_count : option nat.
Variable perform : list event -> task -> outcome.

(** A call sees of its record only the claim's own fields and what the
    three pops give. *)
Lemma same_record_prepare c view :
  same_record c view ->
  prepare_claim base_is_url remote (start view) = prepare_claim base_is_url remote (start c).
Proof.
  intros [Hk Ht]. rewrite !prepare_claim_unfold. rewrite Hk.
  pose proof (Ht "invoices" ltac:(simpl; auto)) as H1.
  pose proof (Ht "claim_attachments" ltac:(simpl; auto)) as H2.
  pose proof (Ht "credit_notes" ltac:(simpl; auto)) as H3.
  unfold taken in H1, H2, H3. simpl in H1, H2, H3. rewrite H1, H2, H3. reflexivity.
Qed.

Lemma same_record_send c view schedule :
  same_record c view ->
  send_a_claim_and_its_children base_is_url remote cpu_count perform view schedule
  = send_a_claim_and_its_children base_is_url remote cpu_count perform c schedule.
Proof.
  intros H. unfold_send. now rewrite (same_record_prepare c view H).
Qed.

End ViewFacts.

Ltac unfold_popping := unfold popping.
Ltac unfold_popping_in H := unfold popping in H.
Ltac unfold_alone := unfold alone.

Section BulkFacts.

Variable base_is_url : string.
Variable cpu_count : option nat.
Variable remote_of : nat -> list call -> request -> result value.
Variable perform_of : nat -> list event -> task -> outcome.
Variable objects : list dict.
Variable bundled_claims : list nat.
Variable num_of_workers : Z.

Local Abbreviation bulk_step :=
  (bulk_step base_is_url cpu_count remote_of perform_of bundled_claims num_of_workers).
Local Abbreviation send_claims_in_bulk :=
  (send_claims_in_bulk base_is_url cpu_count remote_of perform_of bundled_claims
     num_of_workers).
Local Abbreviation bulk_inv :=
  (bulk_inv base_is_url cpu_count remote_of perform_of objects bundled_claims
     num_of_workers).
Local Abbreviation run_of :=
  (run_of base_is_url cpu_count remote_of perform_of objects bundled_claims).
Local Abbreviation bulk_initial := (bulk_initial objects).
Local Abbreviation popping := (popping objects bundled_claims).
Local Abbreviation alone := (alone bundled_claims).

Lemma running_update w old new l :
  nth_error l w = Some old ->
  Permutation (running [old] ++ running (update w new l)) (running [new] ++ running l).
Proof.
  intros H. unfold running. simpl. rewrite !app_nil_r.
  exact (flat_map_update
           (fun slot : option (nat * (nat * dict)) =>
              match slot with Some item => [item] | None => [] end) w old new l H).
Qed.

Lemma running_idle l : forallb idle l = true -> running l = [].
Proof.
  unfold running. induction l as [|[item|] l IH]; simpl; auto; discriminate.
Qed.

Lemma running_repeat n : running (repeat None n) = [].
Proof. unfold running. induction n; simpl; auto. Qed.

Lemma running_slot l w item : nth_error l w = Some (Some item) -> In item (running l).
Proof.
  unfold running. revert w. induction l as [|y l IH]; intros [|w] H; simpl in *;
    try discriminate.
  - injection H as ->. simpl. auto.
  - apply in_or_app. right. eauto.
Qed.

Lemma NoDup_app_disjoint {A : Type} (l1 l2 : list A) (x : A) :
  NoDup (l1 ++ l2) -> In x l1 -> In x l2 -> False.
Proof.
  induction l1 as [|y l1 IH]; simpl; intros Hnd H1 H2; [contradiction|].
  inversion Hnd as [|? ? Hnot Hnd']; subst.
  destruct H1 as [->|H1]; [|eauto].
  apply Hnot. apply in_or_app. auto.
Qed.

(** The items of the other threads when one thread moves on with its
    work item. *)
Lemma running_others w old new l item :
  nth_error l w = Some (Some old) ->
  NoDup (map fst (running l)) ->
  In item (running (update w new l)) ->
  In item (running [new]) \/ (In item (running l) /\ fst item <> fst old).
Proof.
  unfold running. revert w. induction l as [|y l IH]; intros [|w] H Hnd Hin; simpl in *;
    try discriminate.
  - injection H as ->. simpl in Hnd. rewrite app_nil_r.
    apply in_app_or in Hin as [Hin|Hin]; auto.
    right. split; [simpl; auto|]. inversion Hnd as [|? ? Hnot _]; subst.
    intros Heq. apply Hnot. rewrite <- Heq. now apply in_map.
  - rewrite map_app in Hnd. apply in_app_or in Hin as [Hin|Hin].
    + right. split; [apply in_or_app; auto|].
      intros Heq. apply (NoDup_app_disjoint _ _ (fst item) Hnd).
      * now apply in_map.
      * rewrite Heq. apply in_map. exact (running_slot l w old H).
    + destruct (IH w H (NoDup_app_remove_l _ _ Hnd) Hin) as [Hnew|[Hold Hne]]; auto.
      right. split; auto. apply in_or_app. auto.
Qed.

Lemma count_occ_unique (l : list nat) a i j :
  count_occ Nat.eq_dec l a = 1 ->
  nth_error l i = Some a -> nth_error l j = Some a -> i = j.
Proof.
  revert i j. induction l as [|y l IH]; intros [|i] [|j] Hc Hi Hj; simpl in *;
    try discriminate; auto.
  - injection Hi as ->. destruct (Nat.eq_dec a a); [|congruence].
    injection Hc as Hc. apply nth_error_In in Hj.
    apply (count_occ_not_In Nat.eq_dec) in Hc. contradiction.
  - injection Hj as ->. destruct (Nat.eq_dec a a); [|congruence].
    injection Hc as Hc. apply nth_error_In in Hi.
    apply (count_occ_not_In Nat.eq_dec) in Hc. contradiction.
  - destruct (Nat.eq_dec y a) as [->|Hne].
    + injection Hc as Hc. apply nth_error_In in Hi.
      apply (count_occ_not_In Nat.eq_dec) in Hc. contradiction.
    + f_equal. eauto.
Qed.

Lemma alone_unique a i j :
  alone a -> nth_error bundled_claims i = Some a -> nth_error bundled_claims j = Some a ->
  i = j.
Proof. apply count_occ_unique. Qed.

Lemma firstn_snoc {A : Type} (l : list A) n k :
  nth_error l n = Some k -> firstn (S n) l = firstn n l ++ [k].
Proof.
  revert n. induction l as [|y l IH]; intros [|n] H; simpl in *; try discriminate.
  - now injection H as ->.
  - f_equal; auto.
Qed.

Lemma in_firstn {A : Type} (l : list A) n k : In k (firstn n l) -> In k l.
Proof.
  revert n. induction l as [|y l IH]; intros [|n]; simpl; try tauto.
  intros [H|H]; eauto.
Qed.

Lemma taken_rest_after n key c :
  nth_error popped_keys n = Some key -> taken key (rest_after c n) = taken key c.
Proof.
  destruct n as [|[|[|n]]]; simpl; intros H; try (injection H as <-).
  - reflexivity.
  - now rewrite taken_remove_other by discriminate.
  - now rewrite !taken_remove_other by discriminate.
  - destruct n; discriminate.
Qed.

Lemma lookup_app_in k got d :
  In k (map fst got) -> exists v, lookup k (got ++ d) = Some v /\ In (k, v) got.
Proof.
  induction got as [|[k' v'] got IH]; simpl; [contradiction|].
  intros H. destruct (String.eqb k k') eqn:E.
  - apply String.eqb_eq in E. subst. eauto.
  - apply String.eqb_neq in E. destruct H as [H|H]; [congruence|].
    destruct (IH H) as (v & Hv & Hin). eauto.
Qed.

Lemma popping_records x x' a got :
  records x' = records x -> popping x a got -> popping x' a got.
Proof. unfold_popping. intros ->. auto. Qed.

Lemma run_of_same x x' i o :
  run_of x i o ->
  nth_error (futures x') i = nth_error (futures x) i ->
  (forall a, nth_error bundled_claims i = Some a ->
             record_at (records x') a = record_at (records x) a) ->
  run_of x' i o.
Proof.
  intros (a & view & schedule & Ha & ? & ? & ? & ? & ? & ?) Hf Hr.
  exists a, view, schedule. rewrite Hf, (Hr a Ha).
  repeat (split; [assumption|]). assumption.
Qed.

Lemma bulk_inv_initial : bulk_inv bulk_initial.
Proof.
  split; simpl; auto; try discriminate.
  - exists []. auto.
  - intros i a got [].
  - intros i a [].
  - intros i o [].
Qed.

Lemma bulk_inv_main x x' :
  bulk_inv x ->
  bulk_main bundled_claims num_of_workers x = Some x' -> bulk_inv x'.
Proof.
  intros [(done & Hc & Hd) Hf Hs Hrun Hq Hp Hr Hh Hu Hl Hret Hrai] H.
  destruct x as [pc wq sl fu ru lg he]; simpl in *.
  unfold bulk_main in H; simpl in H.
  destruct pc as [|i [|a rest]| |v|e]; try discriminate; simpl in *.
  - assert (Hru : ru = []).
    { subst sl. simpl in Hp. apply Permutation_nil in Hp.
      apply app_eq_nil in Hp as [Hp _]. now destruct ru. }
    subst sl ru.
    destruct (num_of_workers <=? 0)%Z eqn:E; injection H as <-.
    + apply Z.leb_le in E.
      split; simpl; auto; try discriminate; try (intros ? ? []); try (intros ? ? ? []).
      * exists []. auto.
      * intros e He. injection He as <-. auto.
    + apply Z.leb_gt in E.
      split; simpl; rewrite ?running_repeat; simpl; auto; try discriminate;
        try (intros ? ? []); try (intros ? ? ? []).
      * exists []. auto.
      * split; auto. apply repeat_length.
  - injection H as <-. rewrite app_nil_r in Hc.
    assert (Hi' : length bundled_claims = i) by congruence.
    split; simpl in *; rewrite ?Hi'; auto; try discriminate.
    exists done. rewrite app_nil_r. auto.
  - injection H as <-. split; simpl in *; auto; try discriminate.
    + exists (done ++ [a]). rewrite <- app_assoc, length_app. simpl. split; auto. lia.
    + rewrite length_app. simpl. lia.
    + intros j a' Hin. apply in_app_or in Hin as [Hin|[Hin|[]]]; auto.
      injection Hin as <- <-. rewrite Hc, nth_error_app2 by lia.
      now rewrite Hd, Nat.sub_diag.
    + change (0 :: seq 1 i) with (seq 0 (S i)).
      rewrite seq_S, map_app. simpl. rewrite !app_assoc.
      apply Permutation_app_tail. rewrite <- !app_assoc. exact Hp.
    + intros j o Hin.
      apply (run_of_same (Executor (BSubmit i (a :: rest)) wq sl fu ru lg he)); auto.
      simpl. destruct (Hr j o Hin) as (_ & _ & _ & _ & _ & _ & Hn & _). simpl in Hn.
      apply nth_error_app1. apply nth_error_Some. congruence.
  - destruct wq; [|discriminate].
    destruct (forallb idle sl) eqn:E; [|discriminate].
    injection H as <-. split; simpl in *; auto; try discriminate.
    + exists done. auto.
    + intros v Hv. injection Hv as <-. repeat split; auto. now apply running_idle.
Qed.

Lemma running_take w new l item :
  nth_error l w = Some None ->
  In item (running (update w (Some new) l)) -> item = new \/ In item (running l).
Proof.
  intros Hw Hin. pose proof (running_update w None (Some new) l Hw) as Hu. simpl in Hu.
  eapply Permutation_in in Hin; [|exact Hu]. simpl in Hin. destruct Hin; auto.
Qed.

Lemma bulk_inv_take w x x' :
  bulk_inv x -> bulk_take w x = Some x' -> bulk_inv x'.
Proof.
  intros [Hc Hf Hs Hrun Hq Hp Hr Hh Hu Hl Hret Hrai] H.
  destruct x as [pc wq sl fu ru lg he]; simpl in *.
  unfold bulk_take in H; simpl in H.
  destruct (nth_error sl w) as [[?|]|] eqn:Ew; try discriminate.
  destruct wq as [|[i a] rest]; [discriminate|]. injection H as <-.
  pose proof (running_update w None (Some (i, (a, []))) sl Ew) as Hperm. simpl in Hperm.
  assert (Hnd : NoDup (map fst ru ++ map fst (running sl) ++ i :: map fst rest)).
  { eapply Permutation_NoDup; [exact Hp|]. apply seq_NoDup. }
  assert (Hfresh : ~ In i (map fst ru) /\ ~ In i (map fst (running sl))).
  { split; intros Hin.
    - apply (NoDup_app_disjoint _ _ i Hnd Hin). apply in_or_app. simpl. auto.
    - apply NoDup_app_remove_l in Hnd.
      apply (NoDup_app_disjoint _ _ i Hnd Hin). simpl. auto. }
  split; simpl in *; auto.
  - destruct pc; try (rewrite update_length; auto; fail).
    all: subst; destruct w; discriminate.
  - intros j a' got Hin. apply running_take in Hin as [Hin|Hin]; auto.
    + injection Hin as -> -> ->. split; [apply Hq; auto|].
      unfold_popping. simpl.
      split; [reflexivity|]. split; [intros k []|]. split; [intros k v []|].
      intros Halone. split; [reflexivity|].
      apply (Hu i a); try tauto. apply Hq. auto.
    + destruct (Hrun j a' got Hin) as [Hn Hpop]. split; auto.
  - rewrite Hp. apply Permutation_app_head.
    apply (Permutation_map fst) in Hperm. simpl in Hperm.
    rewrite Hperm. simpl. symmetry. apply Permutation_middle.
  - intros j a' Hn Halone Hnr Hnrun. apply (Hu j a'); auto.
    intros Hin. apply Hnrun.
    apply (Permutation_map fst) in Hperm. simpl in Hperm.
    eapply Permutation_in; [symmetry; exact Hperm|]. simpl. auto.
  - intros v Hv. destruct (Hret v Hv) as (_ & Hq' & _). discriminate.
Qed.

Lemma running_positions w old new l :
  nth_error l w = Some (Some old) -> fst new = fst old ->
  Permutation (map fst (running (update w (Some new) l))) (map fst (running l)).
Proof.
  intros Hw Hfst. pose proof (running_update w (Some old) (Some new) l Hw) as Hu.
  simpl in Hu. apply (Permutation_map fst) in Hu. simpl in Hu. rewrite Hfst in Hu.
  eapply Permutation_cons_inv. exact Hu.
Qed.

Lemma bulk_inv_pop w x x' :
  bulk_inv x -> bulk_pop w x = Some x' -> bulk_inv x'.
Proof.
  intros [Hc Hf Hs Hrun Hq Hp Hr Hh Hu Hl Hret Hrai] H.
  destruct x as [pc wq sl fu ru lg he]; simpl in *.
  unfold bulk_pop in H; simpl in H.
  destruct (nth_error sl w) as [[[i [a got]]|]|] eqn:Ew; try discriminate.
  destruct (nth_error popped_keys (length got)) as [key|] eqn:Ekey; [|discriminate].
  injection H as <-.
  set (v := match lookup key (record_at he a) with Some v => v | None => VList [] end).
  pose proof (running_slot sl w _ Ew) as Hold.
  destruct (Hrun i a got Hold) as [Hia Hpop]. unfold_popping_in Hpop. simpl in Hpop.
  destruct Hpop as (S1 & S3 & S2 & S4).
  pose proof (nth_error_In _ _ Ekey) as Hkey.
  assert (Hnd : NoDup (map fst ru ++ map fst (running sl) ++ map fst wq)).
  { eapply Permutation_NoDup; [exact Hp|]. apply seq_NoDup. }
  assert (Hndr : NoDup (map fst (running sl))).
  { apply NoDup_app_remove_l in Hnd. now apply NoDup_app_remove_r in Hnd. }
  pose proof (running_positions w (i, (a, got)) (i, (a, got ++ [(key, v)])) sl Ew eq_refl)
    as Hpos.
  pose proof (record_at_pop key a) as Hrec.
  assert (Hv : v = taken key (record_at he a)) by reflexivity.
  split; simpl in *; auto.
  - destruct pc; try (rewrite update_length; auto; fail).
    all: subst; destruct w; discriminate.
  - intros j a' got' Hin.
    apply (running_others w (i, (a, got))) in Hin as [Hnew|[Hother Hne]]; auto.
    + simpl in Hnew. destruct Hnew as [Hnew|[]]. injection Hnew as <- <- <-.
      split; auto. unfold_popping. simpl. rewrite Hrec, Nat.eqb_refl.
      rewrite length_app, map_app. simpl. rewrite Nat.add_1_r.
      split; [|split; [|split]].
      * rewrite (firstn_snoc _ _ _ Ekey). now rewrite S1.
      * intros k Hk. apply in_app_or in Hk as [Hk|[<-|[]]].
        -- apply lookup_remove_none. auto.
        -- apply lookup_remove_same.
      * intros k v' Hk. apply in_app_or in Hk as [Hk|[Hk|[]]]; eauto.
        injection Hk as <- <-. rewrite Hv.
        destruct (Hh a) as [_ Hheap]. destruct (Hheap key Hkey) as [Heq|Hnone]; auto.
        right. now apply taken_missing.
      * intros Halone. destruct (S4 Halone) as [Hgot Hleft]. split.
        -- unfold pops. rewrite (firstn_snoc _ _ _ Ekey), map_app. simpl.
           unfold pops in Hgot. rewrite <- Hgot. do 3 f_equal.
           rewrite Hv, Hleft. now apply taken_rest_after.
        -- simpl. rewrite Ekey. now rewrite Hleft.
    + simpl in Hne. destruct (Hrun j a' got' Hother) as [Hja Hpop]. split; auto.
      unfold_popping_in Hpop. destruct Hpop as (T1 & T3 & T2 & T4).
      unfold_popping. simpl in *. rewrite Hrec.
      destruct (Nat.eqb_spec a a') as [<-|Hneq]; repeat split; auto.
      * intros k Hk. apply lookup_remove_none. auto.
      * apply T4; auto.
      * exfalso. apply Hne. eapply alone_unique; eauto.
      * apply T4; auto.
      * apply T4; auto.
  - now rewrite Hpos.
  - intros j o Hin. destruct (Hr j o Hin) as (aj & view & sched & Haj & Hrest).
    apply (run_of_same (Executor pc wq sl fu ru lg he));
      [apply Hr; exact Hin|reflexivity|].
    simpl. intros a0 Ha0. assert (a0 = aj) by congruence. subst a0.
    rewrite Hrec. destruct (Nat.eqb_spec a aj) as [<-|Hneq]; auto.
    destruct Hrest as (_ & _ & _ & _ & _ & Hdone). simpl in Hdone.
    rewrite Hdone. apply remove_missing. now apply claim_kwargs_lacks.
  - intros a0. rewrite Hrec. destruct (Hh a0) as [H1 H2].
    destruct (Nat.eqb_spec a a0) as [<-|Hneq]; auto.
    split.
    + now rewrite claim_kwargs_remove.
    + intros k Hk. destruct (String.eqb k key) eqn:E.
      * apply String.eqb_eq in E. subst. right. apply lookup_remove_same.
      * apply String.eqb_neq in E. rewrite taken_remove_other by auto.
        destruct (H2 k Hk) as [Heq|Hnone]; auto.
        right. now apply lookup_remove_none.
  - intros j a0 Hj Halone Hnr Hnrun. rewrite Hrec.
    destruct (Nat.eqb_spec a a0) as [<-|Hneq].
    + exfalso. apply Hnrun. rewrite Hpos.
      assert (j = i) by (eapply alone_unique; eauto). subst j.
      apply (in_map fst) in Hold. exact Hold.
    + apply (Hu j a0); auto. now rewrite <- Hpos.
  - intros v0 Hv0. destruct (Hret v0 Hv0) as (_ & _ & Hnone).
    rewrite Hnone in Hold. destruct Hold.
Qed.

(** What a call has in hand when its pops are done is its record as
    it saw it. *)
Lemma view_sees x a got :
  bulk_inv x -> popping x a got -> length got = length popped_keys ->
  sees (record_at objects a) (got ++ record_at (records x) a)
  /\ (alone a -> same_record (record_at objects a) (got ++ record_at (records x) a))
  /\ record_at (records x) a = claim_kwargs (record_at objects a).
Proof.
  intros Hinv Hpop Hlen. unfold_popping_in Hpop. destruct Hpop as (S1 & S3 & S2 & S4).
  destruct (binv_heap _ _ _ _ _ _ _ _ Hinv a) as [H1 H2].
  rewrite Hlen, firstn_all in S1.
  assert (Hkw : claim_kwargs (got ++ record_at (records x) a)
                = claim_kwargs (record_at objects a)).
  { rewrite claim_kwargs_app, claim_kwargs_popped, H1; auto.
    intros k Hk. now rewrite S1 in Hk. }
  assert (Hleft : record_at (records x) a = claim_kwargs (record_at objects a)).
  { rewrite <- H1. symmetry. apply claim_kwargs_missing.
    intros k Hk. apply S3. now rewrite S1. }
  split; [|split]; auto.
  - split; auto. intros k Hk.
    destruct (lookup_app_in k got (record_at (records x) a)) as (v & Hv & Hin).
    { now rewrite S1. }
    unfold taken at 1 3. simpl. rewrite Hv. eauto.
  - intros Halone. split; auto. intros k Hk.
    destruct (S4 Halone) as [Hgot _]. rewrite Hlen in Hgot. rewrite Hgot.
    unfold pops. simpl.
    destruct Hk as [<-|[<-|[<-|[]]]]; reflexivity.
Qed.

Lemma bulk_inv_finish w schedule x x' :
  bulk_inv x ->
  bulk_finish base_is_url cpu_count remote_of perform_of w schedule x = Some x' ->
  bulk_inv x'.
Proof.
  intros Hinv H. pose proof Hinv as [Hc Hf Hs Hrun Hq Hp Hr Hh Hu Hl Hret Hrai].
  destruct x as [pc wq sl fu ru lg he]; simpl in *.
  unfold bulk_finish in H; simpl in H.
  destruct (nth_error sl w) as [[[i [a got]]|]|] eqn:Ew; try discriminate.
  destruct (Nat.eqb_spec (length got) 3) as [Hlen|]; [|discriminate].
  destruct (send_a_claim_and_its_children _ _ _ _ _ _) as [o|] eqn:Esend; [|discriminate].
  destruct (finished o) eqn:Efin; [|discriminate]. injection H as <-.
  pose proof (running_update w (Some (i, (a, got))) None sl Ew) as Hperm. simpl in Hperm.
  pose proof (running_slot sl w _ Ew) as Hin.
  destruct (Hrun i a got Hin) as [Hia Hpop].
  destruct (view_sees _ a got Hinv Hpop Hlen) as (Hsees & Hsame & Hleft). simpl in *.
  assert (Hidx : In i (map fst (running sl))) by (apply (in_map fst) in Hin; exact Hin).
  assert (Hlt : i < length fu).
  { rewrite Hf. apply in_seq with (start := 0).
    eapply Permutation_in; [symmetry; exact Hp|].
    apply in_or_app. right. apply in_or_app. auto. }
  assert (Hnd : NoDup (map fst ru ++ map fst (running sl) ++ map fst wq)).
  { eapply Permutation_NoDup; [exact Hp|]. apply seq_NoDup. }
  split; simpl in *; auto.
  - now rewrite update_length.
  - destruct pc; try (rewrite update_length; auto; fail).
    all: subst; destruct w; discriminate.
  - intros j a' got' Hj.
    assert (Hj' : In (j, (a', got')) (running sl)).
    { eapply Permutation_in; [exact Hperm|]. simpl. auto. }
    destruct (Hrun j a' got' Hj') as [Hja Hpop']. split; auto.
  - rewrite Hp, map_app. simpl. rewrite <- app_assoc. apply Permutation_app_head.
    apply (Permutation_map fst) in Hperm. simpl in Hperm. rewrite <- Hperm. reflexivity.
  - intros j o' Hj. apply in_app_or in Hj as [Hj|[Hj|[]]].
    + apply (run_of_same (Executor pc wq sl fu ru lg he)); auto. simpl.
      apply nth_error_update_other. intros ->.
      apply (NoDup_app_disjoint _ _ j Hnd).
      * apply (in_map fst) in Hj. exact Hj.
      * apply in_or_app. auto.
    + injection Hj as <- <-. exists a, (got ++ record_at he a), schedule. simpl.
      repeat (split; [assumption|]). split; [|split; [|split]]; auto.
      now apply nth_error_update_same.
  - intros j a0 Hj Halone Hnr Hnrun. apply (Hu j a0); auto.
    + intros Hjr. apply Hnr. rewrite map_app. apply in_or_app. auto.
    + intros Hjr. apply (Permutation_map fst) in Hperm. simpl in Hperm.
      eapply Permutation_in in Hjr; [|symmetry; exact Hperm].
      destruct Hjr as [<-|Hjr]; auto.
      apply Hnr. rewrite map_app. apply in_or_app. simpl. auto.
  - rewrite flat_map_app. simpl. rewrite app_nil_r. congruence.
  - intros v Hv. destruct (Hret v Hv) as (_ & _ & Hnone). rewrite Hnone in Hin. destruct Hin.
Qed.

Lemma bulk_inv_step ch x x' : bulk_inv x -> bulk_step ch x = Some x' -> bulk_inv x'.
Proof.
  destruct ch; simpl; eauto using bulk_inv_main, bulk_inv_take, bulk_inv_pop, bulk_inv_finish.
Qed.

Lemma bulk_inv_run schedule x x' :
  bulk_inv x -> send_claims_in_bulk schedule x = Some x' -> bulk_inv x'.
Proof.
  revert x. induction schedule as [|ch schedule IH]; intros x Hinv H; simpl in H.
  - now injection H as <-.
  - destruct (bulk_step ch x) as [x1|] eqn:E; [|discriminate].
    eapply IH; [|exact H]. eapply bulk_inv_step; eauto.
Qed.

Local Abbreviation bulk_measure := (bulk_measure bundled_claims).

Lemma bulk_measure_initial : bulk_measure bulk_initial = 3 + 6 * length bundled_claims.
Proof. unfold_bulk_measure. simpl. lia. Qed.

Lemma pending_update w old new (l : list (option (nat * (nat * dict)))) :
  nth_error l w = Some old ->
  list_sum (map pending_steps (update w new l)) + pending_steps old
  = list_sum (map pending_steps l) + pending_steps new.
Proof.
  revert w; induction l as [|y l IH]; intros [|w] H; simpl in *; try discriminate.
  - injection H as ->. lia.
  - specialize (IH _ H). lia.
Qed.

Lemma pending_repeat n : list_sum (map pending_steps (repeat None n)) = 0.
Proof. induction n; simpl; auto. Qed.

Lemma bulk_step_measure ch x x' :
  bulk_step ch x = Some x' -> bulk_measure x' < bulk_measure x.
Proof.
  destruct x as [pc wq sl fu ru lg he], ch as [|w|w|w schedule]; simpl;
    unfold bulk_main, bulk_take, bulk_pop, bulk_finish; unfold_bulk_measure; simpl;
    intros H.
  - destruct pc as [|i [|c rest]| |v|e]; try discriminate.
    + destruct (num_of_workers <=? 0)%Z; injection H as <-; simpl;
        rewrite ?pending_repeat; simpl; lia.
    + injection H as <-. simpl. lia.
    + injection H as <-. simpl. rewrite length_app. simpl. lia.
    + destruct wq; [|discriminate]. destruct (forallb idle sl); [|discriminate].
      injection H as <-. simpl. lia.
  - destruct (nth_error sl w) as [[?|]|] eqn:Ew; try discriminate.
    destruct wq as [|[i a] rest]; [discriminate|]. injection H as <-. simpl.
    pose proof (pending_update w None (Some (i, (a, []))) sl Ew) as Hu. simpl in Hu.
    unfold dict in *. destruct pc; lia.
  - destruct (nth_error sl w) as [[[i [a got]]|]|] eqn:Ew; try discriminate.
    destruct (nth_error popped_keys (length got)) as [key|] eqn:Ekey; [|discriminate].
    injection H as <-. simpl.
    assert (Hlt : length got < length popped_keys).
    { apply nth_error_Some. congruence. }
    simpl in Hlt.
    match goal with
    | |- context [update w ?new sl] => pose proof (pending_update w _ new sl Ew) as Hu
    end.
    assert (Hold : pending_steps (Some (i, (a, got))) = 1 + (3 - length got))
      by reflexivity.
    match type of Hu with
    | context [pending_steps (Some (i, (a, ?got')))] =>
        assert (Hnew : pending_steps (Some (i, (a, got'))) = 1 + (3 - (length got + 1)))
          by (unfold pending_steps; rewrite length_app; reflexivity)
    end.
    rewrite Hold, Hnew in Hu. unfold dict in *. destruct pc; lia.
  - destruct (nth_error sl w) as [[[i [a got]]|]|] eqn:Ew; try discriminate.
    destruct (length got =? 3); [|discriminate].
    destruct (send_a_claim_and_its_children _ _ _ _ _ _) as [o|]; [|discriminate].
    destruct (finished o); [|discriminate]. injection H as <-. simpl.
    pose proof (pending_update w (Some (i, (a, got))) None sl Ew) as Hu.
    simpl in Hu. unfold dict in *. destruct pc; lia.
Qed.

Lemma bulk_run_measure schedule x x' :
  send_claims_in_bulk schedule x = Some x' ->
  length schedule + bulk_measure x' <= bulk_measure x.
Proof.
  revert x. induction schedule as [|ch schedule IH]; intros x H; simpl in H.
  - injection H as <-. simpl. lia.
  - destruct (bulk_step ch x) as [x1|] eqn:E; [|discriminate].
    apply bulk_step_measure in E. apply IH in H. simpl. lia.
Qed.

(** Every orchestration can be brought to its end by some schedule of
    its own pool. *)
Lemma orchestration_can_finish i c :
  exists schedule o,
    send_a_claim_and_its_children base_is_url (remote_of i) cpu_count (perform_of i)
      c schedule = Some o
    /\ finished o = true.
Proof.
  unfold_send.
  destruct (prepare_claim base_is_url (remote_of i) (start c)) as [[e|[]] st].
  - exists [], (Aborted st e). auto.
  - destruct (can_return (tasks st) (DEFAULT_NUM_OF_WORKERS cpu_count) (perform_of i)
                initial (default_workers_positive cpu_count)
                (pool_inv_initial _))
      as (schedule & p & Hrun & Hret).
    exists schedule, (Processing st p). rewrite Hrun. simpl. now rewrite Hret.
Qed.

Lemma busy_slot l : forallb idle l = false -> exists w item, nth_error l w = Some (Some item).
Proof.
  induction l as [|[item|] l IH]; simpl; intros H; try discriminate.
  - exists 0, item. auto.
  - destruct (IH H) as (w & item & Hw). exists (S w), item. auto.
Qed.

Lemma bulk_progress x :
  (0 < num_of_workers)%Z -> bulk_inv x ->
  (forall v, bmain x <> BReturned v) ->
  exists ch x', bulk_step ch x = Some x'.
Proof.
  intros Hn [Hc Hf Hs Hrun Hq Hp Hr Hh Hu Hl Hret Hrai] Hnot.
  destruct x as [pc wq sl fu ru lg he]; simpl in *.
  destruct pc as [|i [|c rest]| |v|e].
  - exists BMain. simpl. unfold bulk_main. simpl. destruct (num_of_workers <=? 0)%Z; eauto.
  - exists BMain. simpl. unfold bulk_main. simpl. eauto.
  - exists BMain. simpl. unfold bulk_main. simpl. eauto.
  - destruct (forallb idle sl) eqn:Eidle.
    + destruct wq as [|[i a] rest].
      * exists BMain. simpl. unfold bulk_main. simpl. rewrite Eidle. eauto.
      * destruct sl as [|slot sl'].
        { destruct Hs as (_ & Hlen). simpl in Hlen. lia. }
        simpl in Eidle. apply andb_prop in Eidle as [E0 _].
        destruct slot; [discriminate|].
        exists (BTake 0). simpl. unfold bulk_take. simpl. eauto.
    + destruct (busy_slot sl Eidle) as (w & [i [a got]] & Hw).
      destruct (nth_error popped_keys (length got)) as [key|] eqn:Ekey.
      * exists (BPop w). simpl. unfold bulk_pop. simpl. rewrite Hw, Ekey. eauto.
      * destruct (Hrun i a got (running_slot sl w _ Hw)) as [_ Hpop].
        unfold_popping_in Hpop. destruct Hpop as (S1 & _).
        assert (Hlen : length got = 3).
        { apply nth_error_None in Ekey. simpl in Ekey.
          apply (f_equal (@length string)) in S1.
          rewrite length_map, length_firstn in S1. simpl in S1. lia. }
        destruct (orchestration_can_finish i (got ++ record_at he a))
          as (schedule & o & Hsend & Hfin).
        exists (BFinish w schedule). simpl. unfold bulk_finish. simpl.
        rewrite Hw, Hlen, Hsend, Hfin. simpl. eauto.
  - destruct (Hnot v eq_refl).
  - destruct (Hrai e eq_refl). lia.
Qed.

Lemma bulk_can_return x :
  (0 < num_of_workers)%Z -> bulk_inv x ->
  exists schedule x' v,
    send_claims_in_bulk schedule x = Some x' /\ bmain x' = BReturned v.
Proof.
  intros Hn.
  remember (bulk_measure x) as k eqn:Hk.
  revert x Hk. induction k as [k IH] using lt_wf_ind. intros x -> Hinv.
  destruct (bmain x) as [|i rest| |v|e] eqn:Em.
  4:{ exists [], x, v. auto. }
  all: destruct (bulk_progress x Hn Hinv) as (ch & x1 & H1); [congruence|].
  all: destruct (IH _ (bulk_step_measure _ _ _ H1) x1 eq_refl (bulk_inv_step _ _ _ Hinv H1))
         as (schedule & x' & v & Hrun & Hret).
  all: exists (ch :: schedule), x', v; simpl; rewrite H1; auto.
Qed.

Lemma future_of_send remote perform c schedule o :
  send_a_claim_and_its_children base_is_url remote cpu_count perform c schedule = Some o ->
  future_of o = claim_future base_is_url remote c.
Proof.
  unfold_send. unfold claim_future.
  destruct (prepare_claim base_is_url remote (start c)) as [[e|[]] st]; simpl.
  - intros H. now injection H as <-.
  - destruct (run _ _ _ _ _); [|discriminate]. intros H. now injection H as <-.
Qed.

(** When the dispatcher has returned every claim has its run on record. *)
Lemma returned_runs x v i a :
  bulk_inv x -> bmain x = BReturned v -> nth_error bundled_claims i = Some a ->
  exists o, In (i, o) (runs x).
Proof.
  intros Hinv Hv Hi.
  destruct (binv_returned _ _ _ _ _ _ _ _ Hinv v Hv) as (_ & Hq & Hrun).
  pose proof (binv_indices _ _ _ _ _ _ _ _ Hinv) as Hp.
  rewrite Hv, Hq, Hrun in Hp. simpl in Hp. rewrite app_nil_r in Hp.
  assert (Hin : In i (map fst (runs x))).
  { eapply Permutation_in; [exact Hp|]. apply in_seq. split; [lia|]. simpl.
    apply nth_error_Some. congruence. }
  apply in_map_iff in Hin as ([j o] & Hj & Hin). simpl in Hj. subst. eauto.
Qed.

(** A position of the batch has one run at most. *)
Lemma run_unique x i o o' :
  bulk_inv x -> In (i, o) (runs x) -> In (i, o') (runs x) -> o = o'.
Proof.
  intros Hinv. pose proof (binv_indices _ _ _ _ _ _ _ _ Hinv) as Hp.
  assert (Hnd : NoDup (map fst (runs x))).
  { eapply NoDup_app_remove_r. eapply Permutation_NoDup; [exact Hp|]. apply seq_NoDup. }
  clear Hp. induction (runs x) as [|[j r] l IH]; simpl in *; [contradiction|].
  inversion Hnd as [|? ? Hnot Hnd']; subst.
  intros [H1|H1] [H2|H2].
  - congruence.
  - injection H1 as -> ->. exfalso. apply Hnot. apply (in_map fst) in H2. exact H2.
  - injection H2 as -> ->. exfalso. apply Hnot. apply (in_map fst) in H1. exact H1.
  - auto.
Qed.

(** What a finished run is: the preparation of the record as the call saw
    it, and, when that went through, a pool that ran every task and
    returned. *)
Lemma finished_run remote perform view schedule o :
  send_a_claim_and_its_children base_is_url remote cpu_count perform view schedule = Some o ->
  finished o = true ->
  match o with
  | Aborted st e => prepare_claim base_is_url remote (start view) = (inl e, st)
  | Processing st p =>
      prepare_claim base_is_url remote (start view) = (inr tt, st)
      /\ main p = MReturned
      /\ Permutation (tasks st) (called (trace p))
      /\ occurrences is_task_done (trace p) = length (tasks st)
      /\ queue p = []
      /\ Forall (eq WExit) (threads p)
  end.
Proof.
  intros Hsend Hfin.
  destruct (send_cases _ _ _ _ _ _ _ Hsend) as (r & _ & _ & _ & Hprep & _ & Ho).
  destruct o as [st e|st p]; simpl in *.
  - now subst r.
  - destruct Ho as (-> & Hpool). split; auto.
    destruct (main p) eqn:Hmain; try discriminate.
    assert (Hreach : reachable (tasks st) (DEFAULT_NUM_OF_WORKERS cpu_count) perform p).
    { eapply run_reachable; eauto. constructor. }
    destruct (returned_facts _ _ _ _ Hreach Hmain) as (_ & H2 & _ & H4 & _ & H6 & H7).
    auto.
Qed.

Lemma raised_lines_in tr line :
  In line (raised_lines tr) ->
  exists w t m, In (EvCall w t (Raised m)) tr /\ line = log_line m.
Proof.
  unfold raised_lines. rewrite in_flat_map. intros (ev & Hin & Hline).
  destruct ev as [| | |w t [|m]| | | | |]; simpl in Hline; try contradiction.
  destruct Hline as [<-|[]]. eauto.
Qed.

(** The dispatcher never raises once it has its executor, and it can
    always be brought to its return, which gives [None]. *)
Lemma dispatcher_returns schedule x :
  (1 <= num_of_workers)%Z ->
  send_claims_in_bulk schedule bulk_initial = Some x ->
  (forall e, bmain x <> BRaised e)
  /\ (forall v, bmain x = BReturned v -> v = VNone)
  /\ (exists schedule' x',
        send_claims_in_bulk schedule' x = Some x' /\ bmain x' = BReturned VNone).
Proof.
  intros Hn Hrun.
  pose proof (bulk_inv_run _ _ _ bulk_inv_initial Hrun) as Hinv.
  split; [|split].
  - intros e He. destruct (binv_raised _ _ _ _ _ _ _ _ Hinv e He). lia.
  - intros v Hv. now destruct (binv_returned _ _ _ _ _ _ _ _ Hinv v Hv).
  - destruct (bulk_can_return x ltac:(lia) Hinv) as (schedule' & x' & v & Hrun' & Hv).
    exists schedule', x'. split; auto.
    pose proof (bulk_inv_run _ _ _ Hinv Hrun') as Hinv'.
    destruct (binv_returned _ _ _ _ _ _ _ _ Hinv' v Hv) as (-> & _). exact Hv.
Qed.

(** C6. Whatever happens to one claim, every claim of the batch is run
    to its own end: its orchestration either raised in its preparation
    or prepared its tasks, ran each of them in its pool and saw the pool
    return; its future holds that outcome.  The dispatcher returns only
    then, it does return, and it returns [None].  What a claim's
    orchestration works on is its own record as its [pop]s found it: the
    claim's own fields, and each of the three lists unless another
    position of the batch is the same dict object and popped the list
    first; for a record that is in the batch once, the run and the
    future are those of that claim alone. *)
Theorem bulk_claims_are_isolated schedule x :
  (1 <= num_of_workers)%Z ->
  send_claims_in_bulk schedule bulk_initial = Some x ->
  (forall e, bmain x <> BRaised e)
  /\ (exists schedule' x',
        send_claims_in_bulk schedule' x = Some x' /\ bmain x' = BReturned VNone)
  /\ length schedule <= 3 + 6 * length bundled_claims
  /\ (forall v, bmain x = BReturned v ->
        v = VNone
        /\ length (futures x) = length bundled_claims
        /\ forall i a,
             nth_error bundled_claims i = Some a ->
             exists o view schedule_i,
               In (i, o) (runs x)
               /\ (forall o', In (i, o') (runs x) -> o' = o)
               /\ send_a_claim_and_its_children base_is_url (remote_of i) cpu_count
                    (perform_of i) view schedule_i = Some o
               /\ match o with
                  | Aborted st e =>
                      prepare_claim base_is_url (remote_of i) (start view) = (inl e, st)
                  | Processing st p =>
                      prepare_claim base_is_url (remote_of i) (start view) = (inr tt, st)
                      /\ main p = MReturned
                      /\ Permutation (tasks st) (called (trace p))
                      /\ occurrences is_task_done (trace p) = length (tasks st)
                      /\ queue p = []
                      /\ Forall (eq WExit) (threads p)
                  end
               /\ nth_error (futures x) i = Some (future_of o)
               /\ sees (record_at objects a) view
               /\ record_at (records x) a = claim_kwargs (record_at objects a)
               /\ (alone a ->
                   send_a_claim_and_its_children base_is_url (remote_of i) cpu_count
                     (perform_of i) (record_at objects a) schedule_i = Some o
                   /\ nth_error (futures x) i
                      = Some (claim_future base_is_url (remote_of i)
                                (record_at objects a)))).
Proof.
  intros Hn Hrun.
  destruct (dispatcher_returns schedule x Hn Hrun) as (Hnot & Hnone & Hcan).
  pose proof (bulk_inv_run _ _ _ bulk_inv_initial Hrun) as Hinv.
  pose proof (bulk_run_measure _ _ _ Hrun) as Hbound.
  rewrite bulk_measure_initial in Hbound.
  split; [exact Hnot|]. split; [exact Hcan|]. split; [lia|].
  intros v Hv. pose proof (Hnone v Hv). subst v. split; [reflexivity|]. split.
  { rewrite (binv_futures _ _ _ _ _ _ _ _ Hinv), Hv. reflexivity. }
  intros i a Hi.
  destruct (returned_runs x VNone i a Hinv Hv Hi) as (o & Ho).
  destruct (binv_runs _ _ _ _ _ _ _ _ Hinv i o Ho)
    as (a' & view & schedule_i & Ha' & Hsend & Hfin & Hfut & Hsees & Hsame & Hleft).
  assert (a' = a) by congruence. subst a'.
  exists o, view, schedule_i.
  split; [exact Ho|].
  split; [intros o' Ho'; exact (run_unique x i o' o Hinv Ho' Ho)|].
  split; [exact Hsend|].
  split; [exact (finished_run _ _ _ _ _ Hsend Hfin)|].
  split; [exact Hfut|]. split; [exact Hsees|]. split; [exact Hleft|].
  intros Halone. specialize (Hsame Halone).
  rewrite (same_record_send _ _ _ _ _ _ schedule_i Hsame) in Hsend.
  split; [exact Hsend|].
  rewrite Hfut. f_equal. eapply future_of_send; eauto.
Qed.

(** C10. An exception that leaves the orchestration of a claim goes
    into the future of that claim and nowhere else: the dispatcher never
    raises, whatever the futures hold, it can always reach its return and
    returns [None]; the log holds the lines of the pools and nothing for
    an orchestration that raised; every line of it comes from an
    attachment task that raised inside the pool of a claim that got that
    far.  A claim whose record is in the batch once and whose preparation
    raises does end that way.  And no step of the dispatcher depends on
    what the futures hold. *)
Theorem bulk_failures_are_invisible schedule x :
  (1 <= num_of_workers)%Z ->
  send_claims_in_bulk schedule bulk_initial = Some x ->
  (forall e, bmain x <> BRaised e)
  /\ (forall v, bmain x = BReturned v -> v = VNone)
  /\ (exists schedule' x',
        send_claims_in_bulk schedule' x = Some x' /\ bmain x' = BReturned VNone)
  /\ (forall i st e,
        In (i, Aborted st e) (runs x) ->
        nth_error (futures x) i = Some (FutException e)
        /\ (forall o, In (i, o) (runs x) -> o = Aborted st e)
        /\ exists a view,
             nth_error bundled_claims i = Some a
             /\ sees (record_at objects a) view
             /\ prepare_claim base_is_url (remote_of i) (start view) = (inl e, st))
  /\ log_records x
     = flat_map (fun r => match snd r with
                          | Aborted _ _ => []
                          | Processing _ p => logged (trace p)
                          end) (runs x)
  /\ (forall line,
        In line (log_records x) ->
        exists i st p w t m,
          In (i, Processing st p) (runs x)
          /\ In (EvCall w t (Raised m)) (trace p)
          /\ line = log_line m)
  /\ (forall v i a e,
        bmain x = BReturned v ->
        nth_error bundled_claims i = Some a ->
        alone a ->
        fst (prepare_claim base_is_url (remote_of i) (start (record_at objects a))) = inl e ->
        exists st, In (i, Aborted st e) (runs x))
  /\ (forall held,
        option_map bmain
          (bulk_main bundled_claims num_of_workers
             (Executor (bmain x) (work_queue x) (slots x) held (runs x) (log_records x)
                       (records x)))
        = option_map bmain (bulk_main bundled_claims num_of_workers x)).
Proof.
  intros Hn Hrun.
  destruct (dispatcher_returns schedule x Hn Hrun) as (Hnot & Hnone & Hcan).
  pose proof (bulk_inv_run _ _ _ bulk_inv_initial Hrun) as Hinv.
  split; [exact Hnot|]. split; [exact Hnone|]. split; [exact Hcan|].
  split; [|split; [|split; [|split]]].
  5:{ intros held. destruct x as [pc wq sl fu ru lg he]. unfold bulk_main. simpl.
      destruct pc as [|i [|c rest]| |v|e]; simpl; auto.
      destruct wq; auto. destruct (forallb idle sl); reflexivity. }
  - intros i st e Hin.
    destruct (binv_runs _ _ _ _ _ _ _ _ Hinv i _ Hin)
      as (a & view & schedule_i & Ha & Hsend & Hfin & Hfut & Hsees & _).
    split; [exact Hfut|].
    split; [intros o Ho; exact (run_unique x i o _ Hinv Ho Hin)|].
    exists a, view. split; [exact Ha|]. split; [exact Hsees|].
    exact (finished_run _ _ _ _ _ Hsend Hfin).
  - exact (binv_log _ _ _ _ _ _ _ _ Hinv).
  - intros line Hline.
    rewrite (binv_log _ _ _ _ _ _ _ _ Hinv) in Hline.
    apply in_flat_map in Hline as ([i o] & Ho & Hline). simpl in Hline.
    destruct o as [st e|st p]; simpl in Hline; [contradiction|].
    destruct (binv_runs _ _ _ _ _ _ _ _ Hinv i _ Ho)
      as (a & view & schedule_i & _ & Hsend & _).
    destruct (send_cases _ _ _ _ _ _ _ Hsend) as (_ & _ & _ & _ & _ & _ & _ & Hp).
    simpl in Hp.
    assert (Hreach : reachable (tasks st) (DEFAULT_NUM_OF_WORKERS cpu_count) (perform_of i) p).
    { eapply run_reachable; eauto. constructor. }
    pose proof (cons_logged _ _ (reachable_conservation _ _ _ _ Hreach)) as Hperm.
    assert (Hraised : In line (raised_lines (trace p))).
    { eapply Permutation_in; [symmetry; exact Hperm|]. apply in_or_app. auto. }
    destruct (raised_lines_in _ _ Hraised) as (w & t & m & Hin & ->).
    exists i, st, p, w, t, m. auto.
  - intros v i a e Hv Hi Halone Hprep.
    destruct (returned_runs x v i a Hinv Hv Hi) as (o & Ho).
    destruct (binv_runs _ _ _ _ _ _ _ _ Hinv i o Ho)
      as (a' & view & schedule_i & Ha' & Hsend & _ & _ & _ & Hsame & _).
    assert (a' = a) by congruence. subst a'.
    rewrite (same_record_send _ _ _ _ _ _ schedule_i (Hsame Halone)) in Hsend.
    revert Hsend. unfold_send.
    destruct (prepare_claim base_is_url (remote_of i) (start (record_at objects a)))
      as [r st].
    simpl in Hprep. subst r. intros Hsend. injection Hsend as <-. eauto.
Qed.

End BulkFacts.

(** ** The scenario of the specification *)

(** C7, as the code has it.  A claim with two invoices and no credit
    notes, submitted alone with whatever concurrency, whose orchestration
    gets as far as its pool: [create_claim] was called once and
    [submit_invoices] twice; one task was built for each claim
    attachment; and the pool of the claim started
    [DEFAULT_NUM_OF_WORKERS] workers (not the concurrency of the
    dispatcher), ran every task once, put [DEFAULT_NUM_OF_WORKERS]
    sentinels and returned with all its workers ended. *)
Theorem two_invoice_claim_scenario base_is_url cpu_count remote_of perform_of
    num_of_workers bundled inv1 inv2 schedule x st p :
  items_of "invoices" bundled = inr [inv1; inv2] ->
  items_of "credit_notes" bundled = inr [] ->
  send_claims_in_bulk base_is_url cpu_count remote_of perform_of [0]
    num_of_workers schedule (bulk_initial [bundled]) = Some x ->
  In (0, Processing st p) (runs x) ->
  calls_of op_create_claim (calls st) = 1
  /\ calls_of op_submit_invoices (calls st) = 2
  /\ calls_of op_submit_credit_note (calls st) = 0
  /\ (forall items,
        items_of "claim_attachments" bundled = inr items ->
        length (tasks st) = length items)
  /\ main p = MReturned
  /\ occurrences is_start (trace p) = DEFAULT_NUM_OF_WORKERS cpu_count
  /\ Permutation (tasks st) (called (trace p))
  /\ occurrences is_sentinel_put (trace p) = DEFAULT_NUM_OF_WORKERS cpu_count
  /\ (forall w, w < DEFAULT_NUM_OF_WORKERS cpu_count ->
        occurrences (is_sentinel_get w) (trace p) = 1)
  /\ length (threads p) = DEFAULT_NUM_OF_WORKERS cpu_count
  /\ Forall (eq WExit) (threads p).
Proof.
  intros Hinv Hcrn Hrun Hin.
  pose proof (bulk_inv_run _ _ _ _ _ _ _ _ _ _ (bulk_inv_initial _ _ _ _ _ _ _) Hrun)
    as Hb.
  destruct (binv_runs _ _ _ _ _ _ _ _ Hb 0 _ Hin)
    as (a & view & schedule_0 & Ha & Hsend & Hfin & _ & _ & Hsame & _).
  simpl in Ha. injection Ha as <-.
  rewrite (same_record_send _ _ _ _ _ _ schedule_0 (Hsame eq_refl)) in Hsend.
  simpl in Hsend.
  destruct (send_cases _ _ _ _ _ _ _ Hsend)
    as (r & first & invs & crns & _ & Hprep & -> & Hpool).
  simpl in Hprep, Hfin.
  destruct (main p) eqn:Hmain; try discriminate.
  destruct (prepared_call_counts _ _ _ _ _ _ Hprep) as (H1 & H2 & H3).
  rewrite (prep_invoice_count _ _ _ _ _ _ Hprep _ eq_refl Hinv) in H2.
  rewrite (prep_credit_note_count _ _ _ _ _ _ Hprep _ eq_refl Hcrn) in H3.
  destruct (pool_lifecycle _ _ _ _ _ Hpool) as (_ & _ & Hlife).
  destruct (Hlife Hmain) as (L1 & L2 & L3 & _ & L5 & L6).
  assert (Hreach : reachable (tasks st) (DEFAULT_NUM_OF_WORKERS cpu_count) (perform_of 0) p).
  { eapply run_reachable; eauto. constructor. }
  destruct (returned_facts _ _ _ _ Hreach Hmain) as (_ & Hcalled & _).
  repeat match goal with |- _ /\ _ => split end; auto.
  intros items Hitems. eapply prep_task_count; eauto.
Qed.

Lemma two_invoice_claim_scenario_witness :
  calls_of op_submit_invoices (calls (session example_orchestration)) = 2
  /\ occurrences is_start
       (trace (match example_orchestration with
               | Processing _ p => p
               | Aborted _ _ => initial
               end)) = DEFAULT_NUM_OF_WORKERS (Some 4).
Proof.
  destruct (two_invoice_claim_scenario example_url (Some 4) (fun _ => example_remote)
              (fun _ => example_perform) 2 example_bundled
              (VDict (example_invoice "INV-1")) (VDict (example_invoice "INV-2"))
              (example_single_schedule example_claim_schedule) example_single_end
              (session example_orchestration)
              (match example_orchestration with
               | Processing _ p => p
               | Aborted _ _ => initial
               end))
    as (_ & H2 & _ & _ & _ & H6 & _).
  - reflexivity.
  - reflexivity.
  - reflexivity.
  - left. reflexivity.
  - split; [exact H2|exact H6].
Defined.

(** The scenario as the specification words it fails twice over: with
    the attachment on the invoice [submit_invoices] raises and no pool is
    ever started; and with the attachment on the claim, where the pool
    does run, it starts as many workers as the host has processors, not
    as many as the dispatcher was given. *)
Lemma example_scenario_counterexample :
  ~ (forall schedule x,
       send_claims_in_bulk example_url (Some 4) (fun _ => example_remote)
         (fun _ => example_perform) [0] 2 schedule (bulk_initial [example_scenario])
       = Some x ->
       bmain x = BReturned VNone ->
       exists st p,
         runs x = [(0, Processing st p)]
         /\ calls_of op_create_claim (calls st) = 1
         /\ calls_of op_submit_invoices (calls st) = 2
         /\ length (tasks st) = 1
         /\ occurrences is_start (trace p) = 2
         /\ length (called (trace p)) = 1
         /\ occurrences is_sentinel_put (trace p) = 2
         /\ Forall (eq WExit) (threads p))
  /\ ~ (forall schedule x,
          send_claims_in_bulk example_url (Some 4) (fun _ => example_remote)
            (fun _ => example_perform) [0] 2 schedule (bulk_initial [example_bundled])
          = Some x ->
          bmain x = BReturned VNone ->
          exists st p,
            runs x = [(0, Processing st p)]
            /\ occurrences is_start (trace p) = 2
            /\ occurrences is_sentinel_put (trace p) = 2).
Proof.
  split.
  - intros H.
    destruct (send_claims_in_bulk example_url (Some 4) (fun _ => example_remote)
                (fun _ => example_perform) [0] 2
                (example_single_schedule []) (bulk_initial [example_scenario]))
      as [x|] eqn:E;
      vm_compute in E; [|discriminate].
    injection E as E.
    destruct (H (example_single_schedule []) x) as (st & p & Hruns & _).
    + subst x. reflexivity.
    + subst x. reflexivity.
    + subst x. discriminate Hruns.
  - intros H.
    destruct (H (example_single_schedule example_claim_schedule) example_single_end)
      as (st & p & Hruns & Hstart & _).
    + reflexivity.
    + reflexivity.
    + vm_compute in Hruns. injection Hruns as <- <-. vm_compute in Hstart. discriminate.
Qed.

(** C1 (the code does not do this).  No task for an attachment of an
    invoice or of a credit note is ever built: [submit_invoices] and
    [submit_credit_note] are called with the whole record, nested list
    included, and reject it.  In the example the invoice with an
    attachment stops the orchestration with a [TypeError] after one call
    of [submit_invoices], with no identifier and no task; likewise the
    credit note. *)
Theorem nested_attachments_are_never_scheduled :
  (forall base_is_url remote cpu_count perform bundled schedule o,
      send_a_claim_and_its_children base_is_url remote cpu_count perform bundled schedule
      = Some o ->
      Forall (fun t => func t = submit_claim_attachment) (tasks (session o)))
  /\ (let (r, st) := prepare_claim example_url example_remote (start example_scenario) in
      r = inl TypeError
      /\ tasks st = []
      /\ map call_op (calls st) = [op_create_claim; op_submit_invoices]
      /\ map call_result (calls st) = [inr (VDict [("id", VInt 0)]); inl TypeError])
  /\ (let (r, st) :=
        prepare_claim example_url example_remote (start example_credit_scenario) in
      r = inl TypeError
      /\ tasks st = []
      /\ map call_op (calls st) = [op_create_claim; op_submit_credit_note]
      /\ map call_result (calls st) = [inr (VDict [("id", VInt 0)]); inl TypeError]).
Proof.
  split; [|split].
  - intros base_is_url remote cpu_count perform bundled schedule o Hsend.
    destruct (send_cases _ _ _ _ _ _ _ Hsend) as (r & first & invs & crns & _ & Hprep & _).
    eapply Forall_impl; [|exact (prep_tasks _ _ _ _ _ _ Hprep)].
    intros t (Hf & _). exact Hf.
  - vm_compute. repeat split.
  - vm_compute. repeat split.
Qed.

(** ** The examples, checked against the theorems *)

Lemma process_tasks_completion_barrier_witness :
  run example_tasks 2 example_perform example_pool_schedule initial = Some example_pool_end
  /\ main example_pool_end = MReturned
  /\ Permutation example_tasks (map snd (invocations (trace example_pool_end))).
Proof.
  split; [reflexivity|]. split; [reflexivity|].
  destruct (process_tasks_completion_barrier example_tasks 2 example_perform
              example_pool_schedule example_pool_end eq_refl) as (_ & H & _).
  apply H. reflexivity.
Defined.

Lemma failing_task_does_not_stop_the_pool_witness :
  1 <= 2
  /\ run example_tasks 2 example_perform example_pool_schedule initial
     = Some example_pool_end
  /\ Permutation example_tasks (called (trace example_pool_end))
  /\ logged (trace example_pool_end)
     = ["Error processing task: Attachment file 'rx.pdf' not found."]
  /\ Forall (eq WExit) (threads example_pool_end).
Proof.
  split; [repeat constructor|]. split; [reflexivity|].
  destruct (failing_task_does_not_stop_the_pool example_tasks 2 example_perform
              example_pool_schedule example_pool_end (le_S 1 1 (le_n 1)) eq_refl)
    as (_ & _ & _ & H).
  destruct (H eq_refl) as (H1 & _ & _ & _ & H5 & _).
  split; [exact H1|]. split; [reflexivity|exact H5].
Defined.

Lemma worker_pool_lifecycle_witness :
  run example_tasks 2 example_perform example_pool_schedule initial = Some example_pool_end
  /\ occurrences is_start (trace example_pool_end) = 2
  /\ occurrences is_sentinel_put (trace example_pool_end) = 2
  /\ Forall (eq WExit) (threads example_pool_end).
Proof.
  split; [reflexivity|].
  destruct (worker_pool_lifecycle example_tasks 2 example_perform
              example_pool_schedule example_pool_end eq_refl) as (_ & _ & H).
  destruct (H eq_refl) as (H1 & H2 & _ & _ & _ & H6).
  split; [exact H1|]. split; [exact H2|exact H6].
Defined.

Lemma attachments_after_parent_creation_witness :
  exists c id,
    In (inl c) (firstn 8 (history example_orchestration))
    /\ identifier_of c = Some id
    /\ hd_error [VInt 0; VStr "rx.pdf"; VStr "PRESCRIPTION"; VNone] = Some id
    /\ parent_of submit_claim_attachment (call_op c) = true.
Proof.
  apply (attachments_after_parent_creation example_url example_remote (Some 4)
           example_perform example_bundled example_claim_schedule example_orchestration
           (firstn 8 (history example_orchestration))
           (EvGet 0 (Some (Task submit_claim_attachment
                             [VInt 0; VStr "rx.pdf"; VStr "PRESCRIPTION"; VNone])))
           (skipn 9 (history example_orchestration))
           (Task submit_claim_attachment
              [VInt 0; VStr "rx.pdf"; VStr "PRESCRIPTION"; VNone])).
  - reflexivity.
  - reflexivity.
  - reflexivity.
Defined.

Lemma missing_id_aborts_like_a_failure_witness :
  example_orchestration_without_id
  = Aborted (session example_orchestration_without_id) (KeyError "id").
Proof.
  destruct (missing_id_aborts_like_a_failure example_url example_remote_without_id
              (Some 4) example_perform example_bundled [] example_orchestration_without_id
              []
              (Call op_create_claim (claim_kwargs example_bundled)
                 (inr (VDict [("status", VStr "created")])))
              [] eq_refl eq_refl) as (H & _).
  apply (H [("status", VStr "created")]); reflexivity.
Defined.

Lemma bulk_claims_are_isolated_witness :
  (1 <= 2)%Z
  /\ send_claims_in_bulk example_url (Some 4) example_remote_of (fun _ => example_perform)
       example_batch 2 example_bulk_schedule (bulk_initial example_objects)
     = Some example_bulk_end
  /\ nth_error (futures example_bulk_end) 0
     = Some (FutException (RequestError "503 Service Unavailable"))
  /\ nth_error (futures example_bulk_end) 1
     = Some (claim_future example_url example_remote example_bundled).
Proof.
  split; [discriminate|]. split; [reflexivity|].
  destruct (bulk_claims_are_isolated example_url (Some 4) example_remote_of
              (fun _ => example_perform) example_objects example_batch 2
              example_bulk_schedule example_bulk_end) as (_ & _ & _ & H).
  - discriminate.
  - reflexivity.
  - destruct (H VNone eq_refl) as (_ & _ & Hall).
    split.
    + destruct (Hall 0 0 eq_refl) as (o & view & sch & _ & _ & _ & _ & _ & _ & _ & H0).
      destruct (H0 eq_refl) as (_ & H0'). exact H0'.
    + destruct (Hall 1 1 eq_refl) as (o & view & sch & _ & _ & _ & _ & _ & _ & _ & H1).
      destruct (H1 eq_refl) as (_ & H1'). exact H1'.
Defined.

Lemma bulk_failures_are_invisible_witness :
  nth_error (futures example_bulk_end) 0
  = Some (FutException (RequestError "503 Service Unavailable"))
  /\ log_records example_bulk_end
     = ["Error processing task: Attachment file 'rx.pdf' not found."].
Proof.
  destruct (bulk_failures_are_invisible example_url (Some 4) example_remote_of
              (fun _ => example_perform) example_objects example_batch 2
              example_bulk_schedule example_bulk_end)
    as (_ & _ & _ & Hfut & Hlog & _ & Hraise & _).
  - discriminate.
  - reflexivity.
  - destruct (Hraise VNone 0 0 (RequestError "503 Service Unavailable")
                eq_refl eq_refl eq_refl eq_refl) as (st & Hin).
    destruct (Hfut 0 st (RequestError "503 Service Unavailable") Hin) as (H1 & _).
    split; [exact H1|]. rewrite Hlog. reflexivity.
Defined.

(** One dict object at two positions of a batch: the position whose
    pops come first fails on the invoice it took, the other finds the
    record without its lists and goes through; with alternating pops
    each position gets its share of the lists, and both go through. *)
Lemma example_shared_record :
  futures example_shared_end = [FutException TypeError; FutResult VNone]
  /\ map (fun r => map call_op (calls (session (snd r)))) (runs example_shared_end)
     = [[op_create_claim; op_submit_invoices]; [op_create_claim]]
  /\ futures example_interleaved_end = [FutResult VNone; FutResult VNone]
  /\ map (fun r => (map call_op (calls (session (snd r))),
                    length (tasks (session (snd r))))) (runs example_interleaved_end)
     = [([op_create_claim; op_submit_invoices; op_submit_invoices], 0);
        ([op_create_claim], 1)].
Proof. repeat split. Qed.

(** * More of the code *)

(** ** The worker pool *)

Section PoolExtras.

Variable task_list : list task.
Variable num_workers : nat.
Variable perform : list event -> task -> outcome.

Local Abbreviation run := (run task_list num_workers perform).
Local Abbreviation reachable := (reachable task_list num_workers perform).

(** The queue is first in, first out: what has been taken, what waits
    and what is still to be put make up the deque, in its order. *)
Lemma fifo_step s who s' :
  task_list = dequeued (trace s) ++ queued (queue s) ++ pending task_list (main s) ->
  step task_list num_workers perform who s = Some s' ->
  task_list = dequeued (trace s') ++ queued (queue s') ++ pending task_list (main s').
Proof.
  intros Hs H. destruct s as [m th q u tr], who as [|w]; simpl in *.
  - unfold_step H; simpl in H.
    repeat match type of H with
           | context [match ?x with _ => _ end] => destruct x eqn:?
           | context [if ?x then _ else _] => destruct x eqn:?
           end; try discriminate H; injection H as <-; simpl in *;
      rewrite ?dequeued_snoc, ?queued_snoc; simpl; rewrite ?app_nil_r in *;
      rewrite <- ?app_assoc; auto.
  - unfold_step H; simpl in H.
    repeat match type of H with
           | context [match ?x with _ => _ end] => destruct x eqn:?
           | context [if ?x then _ else _] => destruct x eqn:?
           end; try discriminate H; injection H as <-; simpl in *;
      rewrite ?dequeued_snoc; simpl; rewrite ?app_nil_r in *;
      rewrite <- ?app_assoc; auto.
Qed.

Lemma reachable_fifo s :
  reachable s ->
  task_list = dequeued (trace s) ++ queued (queue s) ++ pending task_list (main s).
Proof.
  induction 1 as [|s who s' _ IH H]; [reflexivity|]. eapply fifo_step; eauto.
Qed.

(** X1. Workers are handed the tasks in the order of the deque: at every
    moment the tasks taken so far, in the order they were taken, are a
    prefix of the deque, followed by what waits in the queue and what is
    still to be put. *)
Theorem tasks_are_dispatched_in_order schedule s :
  run schedule initial = Some s ->
  task_list = dequeued (trace s) ++ queued (queue s) ++ pending task_list (main s).
Proof.
  intros H. apply reachable_fifo. eapply run_reachable; eauto. constructor.
Qed.


Lemma count_crashed_none l :
  count crashed l = 0 -> Forall (fun pc => pc <> WCrashed) l.
Proof.
  intros H. apply Forall_forall. intros pc Hin ->.
  apply In_nth_error in Hin as [w Hw].
  pose proof (count_zero_nth crashed l w WCrashed H Hw). discriminate.
Qed.

(** X3. [queue.task_done()] is never called once too often: no worker
    ever dies of its [ValueError], and the counter of the queue is at
    every moment the number of items waiting plus the number of tasks
    being processed plus the number of sentinels taken. *)
Theorem task_done_never_raises schedule s :
  run schedule initial = Some s ->
  Forall (fun pc => pc <> WCrashed) (threads s)
  /\ unfinished_tasks s
     = length (queue s) + count busy (threads s) + count exited (threads s).
Proof.
  intros H.
  assert (Hr : reachable s) by (eapply run_reachable; eauto; constructor).
  destruct (reachable_pool_inv _ _ _ _ Hr) as [Hc Hu _].
  split; auto using count_crashed_none.
Qed.

End PoolExtras.

Section NoWorkers.

Variable task_list : list task.
Variable perform : list event -> task -> outcome.

(** Without workers nothing is ever taken from the queue and the main
    thread does not get past [queue.join()]. *)
Lemma no_workers_invariant s :
  task_list <> [] ->
  reachable task_list 0 perform s ->
  threads s = [] /\ dequeued (trace s) = [] /\ past_barrier (main s) = false.
Proof.
  intros Hne Hr. induction Hr as [|s who s' Hr (Hth & Hdq & Hpb) H]; [auto|].
  pose proof (reachable_pool_inv _ _ _ _ Hr) as [Hc Hu Hp].
  pose proof (reachable_fifo _ _ _ _ Hr) as Hfifo.
  destruct s as [m th q u tr], who as [|w]; simpl in *; subst th.
  - unfold step_main in H; simpl in H.
    destruct m as [k|[|t rest]| |k|i|]; simpl in *; try discriminate.
    + injection H as <-. simpl. auto.
    + injection H as <-. simpl. auto.
    + injection H as <-. simpl. rewrite dequeued_snoc, Hdq. auto.
    + rewrite Hdq in Hfifo. simpl in Hfifo. rewrite app_nil_r in Hfifo.
      unfold count, total in Hu. simpl in Hu.
      destruct q as [|item q'].
      * simpl in Hfifo. congruence.
      * simpl in Hu. subst u. simpl in H. discriminate.
  - unfold step_worker in H. simpl in H. destruct w; discriminate.
Qed.

(** X2. With [num_workers = 0] and something to do, [_process_tasks]
    never returns: no thread exists, nothing is taken from the queue, and
    the main thread never gets past [queue.join()]. *)
Theorem no_workers_never_return schedule s :
  task_list <> [] ->
  run task_list 0 perform schedule initial = Some s ->
  main s <> MReturned
  /\ threads s = []
  /\ dequeued (trace s) = []
  /\ queued (queue s) ++ pending task_list (main s) = task_list.
Proof.
  intros Hne H.
  assert (Hr : reachable task_list 0 perform s) by (eapply run_reachable; eauto; constructor).
  destruct (no_workers_invariant s Hne Hr) as (Hth & Hdq & Hpb).
  repeat split; auto.
  - intros Hm. rewrite Hm in Hpb. discriminate.
  - pose proof (reachable_fifo _ _ _ _ Hr) as Hfifo. rewrite Hdq in Hfifo. auto.
Qed.

End NoWorkers.

(** ** The orchestrator *)

Section OrchestratorExtras.

Variable base_is_url : string.
Variable remote : list call -> request -> result value.
Variable cpu_count : option nat.
Variable perform : list event -> task -> outcome.

Local Abbreviation create_claim := (create_claim base_is_url remote).
Local Abbreviation submit_invoices := (submit_invoices base_is_url remote).
Local Abbreviation submit_credit_note := (submit_credit_note base_is_url remote).
Local Abbreviation prepare_claim := (prepare_claim base_is_url remote).
Local Abbreviation send_a_claim_and_its_children :=
  (send_a_claim_and_its_children base_is_url remote cpu_count perform).

(** The loop over the claim's attachments: every task in order when all
    of them can be read, and otherwise an exception with no call made. *)
Lemma claim_attachment_tasks_cases items claim_id st :
  if forallb complete_attachment items
  then claim_attachment_tasks items claim_id st
       = (inr tt, State (bundled_claim st) (calls st)
                        (tasks st ++ map (claim_attachment_task claim_id) items))
  else exists e ts,
         claim_attachment_tasks items claim_id st
         = (inl e, State (bundled_claim st) (calls st) ts)
         /\ (e = TypeError \/ e = KeyError "path_to_attachment"
             \/ e = KeyError "attachment_type").
Proof.
  revert st. induction items as [|a items IH]; intros [b cs ts]; simpl.
  { now rewrite app_nil_r. }
  unfold bind at 1, lift at 1.
  destruct a as [| | | | |d]; simpl; try (exists TypeError, ts; auto).
  unfold has_key.
  destruct (lookup "path_to_attachment" d) as [path|] eqn:Ep; simpl.
  2:{ exists (KeyError "path_to_attachment"), ts. auto. }
  unfold bind at 1, lift at 1.
  destruct (lookup "attachment_type" d) as [kind|] eqn:Ek; simpl.
  2:{ exists (KeyError "attachment_type"), ts. auto. }
  unfold bind at 1, lift at 1. unfold bind at 1, append_task at 1. simpl.
  specialize (IH (State b cs (ts ++ [Task submit_claim_attachment
     [claim_id; path; kind;
      match lookup "description" d with Some x => x | None => VNone end]]))).
  simpl in IH.
  destruct (forallb complete_attachment items).
  - rewrite IH. unfold claim_attachment_task at 2. simpl. unfold arg.
    rewrite Ep, Ek. rewrite <- app_assoc. reflexivity.
  - exact IH.
Qed.

Lemma children_loop_success op sg f key records claim_id st st' :
  wrapper_of op sg f ->
  children_loop op f key records claim_id st = (inr tt, st') ->
  exists newc,
    calls st' = calls st ++ newc
    /\ Forall2 (linked op claim_id) records newc.
Proof.
  intros Hf. revert st.
  induction records as [|record rest IH]; intros [b cs ts]; simpl.
  { intros H. injection H as <-. exists []. simpl. rewrite app_nil_r. auto. }
  unfold bind at 1. unfold call_with_claim.
  destruct (keywords [("claim", claim_id)] record) as [e|kwargs] eqn:E.
  { unfold traced, raise. simpl. discriminate. }
  destruct (Hf kwargs (State b cs ts)) as (r & Hr & _). simpl in Hr. rewrite Hr.
  destruct r as [e|response]; [discriminate|].
  unfold bind at 1, lift at 1.
  destruct (getitem response "id") as [e|id] eqn:Eid; [discriminate|].
  unfold bind at 1, lift at 1.
  destruct (get record key (VList [])) as [e|nested]; [discriminate|].
  unfold bind at 1, lift at 1.
  destruct (iter nested) as [e|attachments]; [discriminate|].
  destruct (invoice_attachment_tasks_spec attachments id
              (State b (cs ++ [Call op kwargs (inr response)]) ts))
    as (new1 & r1 & H1 & _).
  simpl in H1. unfold bind at 1. rewrite H1.
  destruct r1 as [e|[]]; [discriminate|].
  intros H. apply IH in H as (newc & Hc & Hall). simpl in Hc.
  exists (Call op kwargs (inr response) :: newc). split.
  - rewrite Hc, <- app_assoc. reflexivity.
  - constructor; auto.
    unfold keywords in E. destruct record as [| | | | |d]; try discriminate.
    destruct (existsb _ _); [discriminate|]. injection E as <-.
    exists d. repeat split. unfold good, failure_of. simpl. now rewrite Eid.
Qed.

(** Everything a preparation that went through did. *)
Lemma prepare_claim_success bundled st :
  prepare_claim (start bundled) = (inr tt, st) ->
  exists first claim_id attachments invoices credit_notes invs crns,
    items_of "claim_attachments" bundled = inr attachments
    /\ items_of "invoices" bundled = inr invoices
    /\ items_of "credit_notes" bundled = inr credit_notes
    /\ calls st = first :: invs ++ crns
    /\ call_op first = op_create_claim
    /\ identifier_of first = Some claim_id
    /\ forallb complete_attachment attachments = true
    /\ tasks st = map (claim_attachment_task claim_id) attachments
    /\ Forall2 (linked op_submit_invoices claim_id) invoices invs
    /\ Forall2 (linked op_submit_credit_note claim_id) credit_notes crns.
Proof.
  rewrite prepare_claim_unfold. unfold items_of.
  set (kwargs := claim_kwargs bundled).
  destruct (create_claim_wrapper base_is_url remote kwargs (State kwargs [] []))
    as (r0 & H0 & _).
  simpl in H0. rewrite H0.
  destruct r0 as [e|resp]; [discriminate|].
  destruct (getitem resp "id") as [e|claim_id] eqn:Eid; [discriminate|].
  unfold bind at 1. unfold _process_claim_attachments at 1.
  unfold bind at 1, lift at 1.
  destruct (iter match lookup "claim_attachments" bundled with
                 | Some v => v | None => VList [] end) as [e|attachments];
    [discriminate|].
  pose proof (claim_attachment_tasks_cases attachments claim_id
                (State kwargs [Call op_create_claim kwargs (inr resp)] [])) as H1.
  destruct (forallb complete_attachment attachments) eqn:Hcomplete.
  2:{ destruct H1 as (e & ts & -> & _). discriminate. }
  rewrite H1. simpl.
  unfold bind at 1. unfold _process_invoices at 1. unfold bind at 1, lift at 1.
  destruct (iter match lookup "invoices" bundled with
                 | Some v => v | None => VList [] end) as [e|invoices];
    [discriminate|].
  rewrite invoices_loop_children.
  destruct (children_loop_spec op_submit_invoices submit_invoices_signature
              submit_invoices "invoice_attachments" invoices claim_id
              (State kwargs [Call op_create_claim kwargs (inr resp)]
                     (map (claim_attachment_task claim_id) attachments))
              (submit_invoices_wrapper base_is_url remote))
    as (invs & newt & r2 & H2 & _ & _ & _ & Hnone).
  specialize (Hnone eq_refl). subst newt. rewrite app_nil_r in H2. simpl in H2.
  pose proof H2 as H2'. rewrite H2.
  destruct r2 as [e|[]]; [discriminate|].
  apply (children_loop_success _ _ _ _ _ _ _ _ (submit_invoices_wrapper base_is_url remote))
    in H2' as (invs' & Hc2 & Hl2).
  simpl in Hc2. injection Hc2 as Hc2. subst invs'.
  unfold _process_credit_notes. unfold bind at 1, lift at 1.
  destruct (iter match lookup "credit_notes" bundled with
                 | Some v => v | None => VList [] end) as [e|credit_notes];
    [discriminate|].
  rewrite credit_notes_loop_children.
  destruct (children_loop_spec op_submit_credit_note submit_credit_note_signature
              submit_credit_note "crn_attachments" credit_notes claim_id
              (State kwargs (Call op_create_claim kwargs (inr resp) :: invs)
                     (map (claim_attachment_task claim_id) attachments))
              (submit_credit_note_wrapper base_is_url remote))
    as (crns & newt & r3 & H3 & _ & _ & _ & Hnone).
  specialize (Hnone eq_refl). subst newt. rewrite app_nil_r in H3. simpl in H3.
  pose proof H3 as H3'. rewrite H3.
  destruct r3 as [e|[]]; [discriminate|].
  apply (children_loop_success _ _ _ _ _ _ _ _
           (submit_credit_note_wrapper base_is_url remote))
    in H3' as (crns' & Hc3 & Hl3).
  simpl in Hc3. injection Hc3 as Hc3. apply app_inv_head in Hc3. subst crns'.
  intros H. injection H as <-. simpl.
  exists (Call op_create_claim kwargs (inr resp)), claim_id, attachments, invoices,
    credit_notes, invs, crns.
  repeat split; auto.
  unfold identifier_of. simpl. now rewrite Eid.
Qed.


(** X4. An orchestration that got as far as its pool built exactly one
    task per claim attachment, in the order of the record: the
    attachment operation of claims with the claim's identifier, the
    path, the type and the description ([None] when the attachment has
    none); nothing else is in the deque. *)
Theorem claim_attachment_tasks_in_order bundled schedule st p :
  send_a_claim_and_its_children bundled schedule = Some (Processing st p) ->
  exists first rest claim_id attachments,
    calls st = first :: rest
    /\ identifier_of first = Some claim_id
    /\ items_of "claim_attachments" bundled = inr attachments
    /\ forallb complete_attachment attachments = true
    /\ tasks st = map (claim_attachment_task claim_id) attachments.
Proof.
  intros H. destruct (send_cases _ _ _ _ _ _ _ H) as (r & _ & _ & _ & Hprep & _ & -> & _).
  simpl in Hprep.
  destruct (prepare_claim_success _ _ Hprep)
    as (first & claim_id & atts & invoices & credit_notes & invs & crns
        & Ha & _ & _ & Hc & _ & Hid & Hall & Ht & _).
  exists first, (invs ++ crns), claim_id, atts. repeat split; auto.
Qed.

(** X5. An orchestration that got as far as its pool submitted the
    invoices in the order of the record, then the credit notes in the
    order of the record, each with the keyword arguments of its record
    and the identifier of the claim as [claim]; each of these calls gave
    an identifier. *)
Theorem children_are_submitted_in_order bundled schedule st p :
  send_a_claim_and_its_children bundled schedule = Some (Processing st p) ->
  exists first claim_id invoices credit_notes invs crns,
    items_of "invoices" bundled = inr invoices
    /\ items_of "credit_notes" bundled = inr credit_notes
    /\ calls st = first :: invs ++ crns
    /\ call_op first = op_create_claim
    /\ identifier_of first = Some claim_id
    /\ Forall2 (linked op_submit_invoices claim_id) invoices invs
    /\ Forall2 (linked op_submit_credit_note claim_id) credit_notes crns.
Proof.
  intros H. destruct (send_cases _ _ _ _ _ _ _ H) as (r & _ & _ & _ & Hprep & _ & -> & _).
  simpl in Hprep.
  destruct (prepare_claim_success _ _ Hprep)
    as (first & claim_id & atts & invoices & credit_notes & invs & crns
        & _ & Hi & Hn & Hc & Hop & Hid & _ & _ & Hl2 & Hl3).
  exists first, claim_id, invoices, credit_notes, invs, crns. repeat split; auto.
Qed.

(** X6. A claim attachment that is not a mapping, or has no
    ["path_to_attachment"] or no ["attachment_type"], stops the
    orchestration after the claim was created: [create_claim] is the
    only call made, no invoice and no credit note is submitted, no pool
    is started, and the exception is the [TypeError] or the [KeyError] of
    the loop (unless [create_claim] itself failed). *)
Theorem malformed_claim_attachment_aborts bundled attachments schedule o :
  items_of "claim_attachments" bundled = inr attachments ->
  forallb complete_attachment attachments = false ->
  send_a_claim_and_its_children bundled schedule = Some o ->
  exists e first,
    o = Aborted (session o) e
    /\ calls (session o) = [first]
    /\ call_op first = op_create_claim
    /\ call_kwargs first = claim_kwargs bundled
    /\ (good first ->
        e = TypeError \/ e = KeyError "path_to_attachment"
        \/ e = KeyError "attachment_type").
Proof.
  intros Ha Hbad. unfold_send. rewrite prepare_claim_unfold.
  set (kwargs := claim_kwargs bundled).
  destruct (create_claim_wrapper base_is_url remote kwargs (State kwargs [] []))
    as (r0 & H0 & _).
  simpl in H0. rewrite H0.
  destruct r0 as [e|resp].
  { intros H. injection H as <-. exists e, (Call op_create_claim kwargs (inl e)).
    simpl. repeat split. unfold good, failure_of. simpl. discriminate. }
  destruct (getitem resp "id") as [e|claim_id] eqn:Eid.
  { intros H. injection H as <-. exists e, (Call op_create_claim kwargs (inr resp)).
    simpl. repeat split. unfold good, failure_of. simpl. rewrite Eid. discriminate. }
  unfold bind at 1. unfold _process_claim_attachments at 1.
  unfold bind at 1, lift at 1.
  unfold items_of in Ha. rewrite Ha.
  pose proof (claim_attachment_tasks_cases attachments claim_id
                (State kwargs [Call op_create_claim kwargs (inr resp)] [])) as H1.
  rewrite Hbad in H1. destruct H1 as (e & ts & -> & He). simpl.
  intros H. injection H as <-. exists e, (Call op_create_claim kwargs (inr resp)).
  simpl. repeat split. auto.
Qed.

End OrchestratorExtras.

Section Resending.

Variable base_is_url : string.
Variables remote remote' : list call -> request -> result value.
Variable cpu_count : option nat.
Variables perform perform' : list event -> task -> outcome.

Lemma claim_kwargs_lookup k bundled :
  k = "invoices" \/ k = "claim_attachments" \/ k = "credit_notes" ->
  lookup k (claim_kwargs bundled) = None.
Proof.
  unfold claim_kwargs.
  intros [ -> | [ -> | -> ] ];
    rewrite ?lookup_remove_same; auto;
    rewrite lookup_remove_other by discriminate;
    rewrite ?lookup_remove_same; auto;
    rewrite lookup_remove_other by discriminate;
    now rewrite lookup_remove_same.
Qed.

Lemma remove_absent k d : lookup k d = None -> remove k d = d.
Proof.
  unfold remove. induction d as [|[k' v] d IH]; simpl; auto.
  destruct (String.eqb k k'); [discriminate|]. simpl. intros H. now rewrite IH.
Qed.

Lemma claim_kwargs_idempotent bundled :
  claim_kwargs (claim_kwargs bundled) = claim_kwargs bundled.
Proof.
  unfold claim_kwargs at 1.
  rewrite (remove_absent "invoices") by (apply claim_kwargs_lookup; auto).
  rewrite (remove_absent "claim_attachments") by (apply claim_kwargs_lookup; auto).
  rewrite (remove_absent "credit_notes") by (apply claim_kwargs_lookup; auto).
  reflexivity.
Qed.

Lemma called_none_raised tr : called tr = [] -> raised_lines tr = [].
Proof.
  unfold called, raised_lines. induction tr as [|ev tr IH]; simpl; auto.
  intros H. apply app_eq_nil in H as [H1 H2]. rewrite IH by auto.
  destruct ev as [| | |w t [|m]| | | | |]; simpl in *; auto; discriminate.
Qed.

(** A pool that was given nothing to do logs nothing. *)
Lemma empty_pool_logs_nothing n perf schedule p :
  run [] n perf schedule (initial) = Some p -> logged (trace p) = [].
Proof.
  intros H. apply run_from_initial in H.
  destruct (reachable_conservation _ _ _ _ H) as [C1 _ _ C4].
  apply Permutation_nil in C1. apply app_eq_nil in C1 as [C1 _].
  rewrite (called_none_raised _ C1) in C4.
  apply Permutation_nil in C4. now apply app_eq_nil in C4 as [C4 _].
Qed.

(** X7. The orchestrator consumes the caller's record: handing the same
    record object to it again (a retry after a failure, say) calls
    [create_claim] with the same arguments once more and does nothing
    else; no invoice, credit note or attachment of the original record is
    sent the second time. *)
Theorem resending_a_consumed_record bundled schedule o schedule' o' :
  send_a_claim_and_its_children base_is_url remote cpu_count perform bundled schedule
  = Some o ->
  send_a_claim_and_its_children base_is_url remote' cpu_count perform'
    (bundled_claim (session o)) schedule' = Some o' ->
  exists first first',
    hd_error (calls (session o)) = Some first
    /\ calls (session o') = [first']
    /\ call_op first' = op_create_claim
    /\ call_kwargs first' = call_kwargs first
    /\ tasks (session o') = []
    /\ log_of o' = [].
Proof.
  intros H H'.
  destruct (send_cases _ _ _ _ _ _ _ H) as (r & first & invs & crns & _ & Hprep & _).
  rewrite (prep_bundled _ _ _ _ _ _ Hprep) in H'.
  exists first. rewrite (prep_calls _ _ _ _ _ _ Hprep), (prep_first_kwargs _ _ _ _ _ _ Hprep).
  clear H Hprep. revert H'. unfold_send. rewrite prepare_claim_unfold.
  rewrite !claim_kwargs_lookup by auto. rewrite claim_kwargs_idempotent.
  set (kwargs := claim_kwargs bundled).
  destruct (create_claim_wrapper base_is_url remote' kwargs (State kwargs [] []))
    as (r0 & H0 & _).
  simpl in H0. rewrite H0.
  destruct r0 as [e|resp].
  { intros H. injection H as <-. eexists. simpl. repeat split. }
  destruct (getitem resp "id") as [e|claim_id] eqn:Eid.
  { intros H. injection H as <-. eexists. simpl. repeat split. }
  simpl.
  destruct (run _ _ _ _ _) as [p|] eqn:Hrun; [|discriminate].
  intros H. injection H as <-. eexists. simpl. repeat split.
  eapply empty_pool_logs_nothing; eauto.
Qed.

End Resending.

(** ** The bulk dispatcher *)

Section BulkExtras.

Variable base_is_url : string.
Variable cpu_count : option nat.
Variable remote_of : nat -> list call -> request -> result value.
Variable perform_of : nat -> list event -> task -> outcome.
Variable objects : list dict.
Variable bundled_claims : list nat.
Variable num_of_workers : Z.

Local Abbreviation send_claims_in_bulk :=
  (send_claims_in_bulk base_is_url cpu_count remote_of perform_of bundled_claims
     num_of_workers).
Local Abbreviation bulk_inv :=
  (bulk_inv base_is_url cpu_count remote_of perform_of objects bundled_claims
     num_of_workers).
Local Abbreviation bulk_initial := (bulk_initial objects).

(** X8. With [num_of_workers <= 0] the constructor of the executor
    raises [ValueError] and that is all that happens: no claim is
    submitted, no request is made, nothing is logged, and the dispatcher
    does not return. *)
Theorem bulk_rejects_no_workers schedule x :
  (num_of_workers <= 0)%Z ->
  send_claims_in_bulk schedule bulk_initial = Some x ->
  (schedule = [] /\ x = bulk_initial)
  \/ (schedule = [BMain] /\ x = Executor (BRaised ValueError) [] [] [] [] [] objects).
Proof.
  intros Hn. destruct schedule as [|ch schedule]; simpl.
  { intros H. injection H as <-. auto. }
  destruct ch as [|w|w|w sch]; simpl.
  - unfold bulk_main. simpl.
    destruct (Z.leb_spec num_of_workers 0) as [_|Hlt]; [|lia].
    destruct schedule as [|ch schedule]; simpl.
    + intros H. injection H as <-. auto.
    + destruct ch as [|w|w|w sch]; simpl; try discriminate.
      * unfold bulk_take. simpl. destruct w; discriminate.
      * unfold bulk_pop. simpl. destruct w; discriminate.
      * unfold bulk_finish. simpl. destruct w; discriminate.
  - unfold bulk_take. simpl. destruct w; discriminate.
  - unfold bulk_pop. simpl. destruct w; discriminate.
  - unfold bulk_finish. simpl. destruct w; discriminate.
Qed.

Lemma running_length l : length (running l) <= length l.
Proof.
  unfold running. induction l as [|[item|] l IH]; simpl; lia.
Qed.

(** X9. No claim of the batch is orchestrated twice: the orchestrations
    that ended are for different positions of the batch, none of them is
    for a claim still waiting or still in progress, and each is for a
    position of the batch. *)
Theorem each_claim_is_orchestrated_at_most_once schedule x :
  send_claims_in_bulk schedule bulk_initial = Some x ->
  NoDup (map fst (runs x))
  /\ (forall i o, In (i, o) (runs x) ->
        i < length bundled_claims
        /\ ~ In i (map fst (running (slots x)))
        /\ ~ In i (map fst (work_queue x))).
Proof.
  intros H.
  pose proof (bulk_inv_run _ _ _ _ _ _ _ _ _ _ (bulk_inv_initial _ _ _ _ _ _ _) H) as Hinv.
  pose proof (binv_indices _ _ _ _ _ _ _ _ Hinv) as Hp.
  assert (Hnd : NoDup (map fst (runs x) ++ map fst (running (slots x))
                       ++ map fst (work_queue x))).
  { eapply Permutation_NoDup; [exact Hp|]. apply seq_NoDup. }
  split.
  - eapply NoDup_app_remove_r. exact Hnd.
  - intros i o Hin.
    assert (Hi : In i (map fst (runs x))).
    { apply in_map_iff. exists (i, o). auto. }
    split; [|split].
    + destruct (binv_runs _ _ _ _ _ _ _ _ Hinv i o Hin) as (a & _ & _ & Ha & _).
      apply nth_error_Some. congruence.
    + intros Hr. apply (NoDup_app_disjoint _ _ i Hnd Hi).
      apply in_or_app. auto.
    + intros Hq. apply (NoDup_app_disjoint _ _ i Hnd Hi).
      apply in_or_app. auto.
Qed.

(** X10. At no moment are more than [num_of_workers] claims of the batch
    being orchestrated. *)
Theorem bulk_concurrency_is_bounded schedule x :
  send_claims_in_bulk schedule bulk_initial = Some x ->
  length (running (slots x)) <= Z.to_nat num_of_workers
  /\ length (running (slots x)) + length (runs x) + length (work_queue x)
     <= length bundled_claims.
Proof.
  intros H.
  pose proof (bulk_inv_run _ _ _ _ _ _ _ _ _ _ (bulk_inv_initial _ _ _ _ _ _ _) H) as Hinv.
  split.
  - pose proof (binv_slots _ _ _ _ _ _ _ _ Hinv) as Hs.
    pose proof (running_length (slots x)) as Hl.
    destruct (bmain x); simpl in Hs;
      first [ rewrite Hs; simpl; lia | destruct Hs as [_ Hs]; lia ].
  - pose proof (binv_indices _ _ _ _ _ _ _ _ Hinv) as Hp.
    apply Permutation_length in Hp.
    rewrite length_seq, !length_app, !length_map in Hp.
    destruct (binv_claims _ _ _ _ _ _ _ _ Hinv) as (done & Hd & Hl).
    apply (f_equal (@length nat)) in Hd. rewrite length_app in Hd. lia.
Qed.

End BulkExtras.

(** ** The session *)

Section HeaderFacts.

Lemma same_header_refl k : SDK.same_header k k = true.
Proof. apply String.eqb_refl. Qed.

Lemma same_header_trans a b c :
  SDK.same_header a b = true -> SDK.same_header b c = true -> SDK.same_header a c = true.
Proof.
  unfold SDK.same_header. rewrite !String.eqb_eq. congruence.
Qed.

Lemma same_header_sym a b : SDK.same_header a b = SDK.same_header b a.
Proof. apply String.eqb_sym. Qed.

Lemma header_lookup_set k k' v h :
  SDK.header_lookup k (SDK.header_set k' v h)
  = if SDK.same_header k k' then Some v else SDK.header_lookup k h.
Proof.
  induction h as [|[k1 v1] h IH]; simpl.
  - destruct (SDK.same_header k k'); reflexivity.
  - destruct (SDK.same_header k' k1) eqn:E1; simpl.
    + destruct (SDK.same_header k k') eqn:E; auto.
      destruct (SDK.same_header k k1) eqn:E2; auto.
      rewrite same_header_sym in E1.
      rewrite (same_header_trans _ _ _ E2 E1) in E. discriminate.
    + rewrite IH. destruct (SDK.same_header k k1) eqn:E2; auto.
      destruct (SDK.same_header k k') eqn:E; auto.
      rewrite same_header_sym in E.
      rewrite (same_header_trans _ _ _ E E2) in E1. discriminate.
Qed.

Lemma header_set_length k v h :
  length (SDK.header_set k v h)
  = match SDK.header_lookup k h with
    | Some _ => length h
    | None => S (length h)
    end.
Proof.
  induction h as [|[k1 v1] h IH]; simpl; auto.
  destruct (SDK.same_header k k1); simpl; auto.
  rewrite IH. destruct (SDK.header_lookup k h); reflexivity.
Qed.

(** What [session.headers.update(new_headers)] leaves. *)
Lemma new_headers_lookup env token h k :
  SDK.header_lookup k (SDK.headers_update h (SDK.new_headers env token))
  = if SDK.same_header k "Content-Type" then Some (VStr "application/json")
    else if SDK.same_header k "Accept" then Some (VStr "*/*")
    else if SDK.same_header k "Authorization"
         then Some (VStr ("Bearer " ++ SDK.format env token))
         else SDK.header_lookup k h.
Proof.
  unfold SDK.headers_update, SDK.new_headers. simpl.
  rewrite !header_lookup_set. reflexivity.
Qed.

Lemma new_headers_length env token h :
  SDK.header_lookup "Authorization" h <> None ->
  SDK.header_lookup "Accept" h <> None ->
  SDK.header_lookup "Content-Type" h <> None ->
  length (SDK.headers_update h (SDK.new_headers env token)) = length h.
Proof.
  intros H1 H2 H3. unfold SDK.headers_update, SDK.new_headers. simpl.
  rewrite !header_set_length, !header_lookup_set.
  replace (SDK.same_header "Content-Type" "Accept") with false by reflexivity.
  replace (SDK.same_header "Content-Type" "Authorization") with false by reflexivity.
  replace (SDK.same_header "Accept" "Authorization") with false by reflexivity.
  destruct (SDK.header_lookup "Authorization" h); [|congruence].
  destruct (SDK.header_lookup "Accept" h); [|congruence].
  destruct (SDK.header_lookup "Content-Type" h); [|congruence].
  reflexivity.
Qed.

End HeaderFacts.

Section SessionFacts.

Variable env : SDK.environment.

Local Abbreviation authenticate := (SDK.authenticate env).
Local Abbreviation token_request := (SDK.token_request env).
Local Abbreviation _make_request := (SDK._make_request env).

Ltac fields :=
  cbn [SDK.headers SDK.session_expiry SDK.clock_reads SDK.exchanges SDK.file_calls
       SDK.open_files SDK.fresh tick fst snd] in *.

Ltac unfold_io :=
  unfold SDK.bind, SDK.send, SDK.raise_for_status, SDK.json_of, SDK.lift, SDK.now,
    SDK.raise, SDK.ret, SDK.read_expiry, SDK.set_expiry, SDK.set_headers in *.

(** Every way [authenticate] can end. *)
Lemma authenticate_cases s :
  let sent := SDK.exchanges s ++ [(SDK.headers s, token_request)] in
  let s1 := SDK.Session (SDK.headers s) (SDK.session_expiry s) (SDK.clock_reads s) sent
                        (SDK.file_calls s) (SDK.open_files s) in
  let s2 := SDK.Session (SDK.headers s) (SDK.session_expiry s) (S (SDK.clock_reads s))
                        sent (SDK.file_calls s) (SDK.open_files s) in
  authenticate s
  = match SDK.transport env (SDK.exchanges s) (SDK.headers s) token_request with
    | inl e => (inl e, s1)
    | inr resp =>
        if refusing resp then (inl (SDK.HTTPError (SDK.status_code resp)), s1)
        else
          match SDK.body resp with
          | None => (inl SDK.JSONDecodeError, s1)
          | Some content =>
              match get content "expires_in" (VInt 3600) with
              | inl e => (inl (SDK.Builtin e), s1)
              | inr expires_in =>
                  match SDK.shift env (SDK.clock env (SDK.clock_reads s)) expires_in with
                  | inl e => (inl e, s2)
                  | inr expiry =>
                      match getitem content "access_token" with
                      | inl e => (inl (SDK.Builtin e), SDK.set_expiry s2 expiry)
                      | inr token =>
                          (inr tt,
                           SDK.Session
                             (SDK.headers_update (SDK.headers s)
                                (SDK.new_headers env token))
                             (Some expiry) (S (SDK.clock_reads s)) sent
                             (SDK.file_calls s) (SDK.open_files s))
                      end
                  end
              end
          end
    end.
Proof.
  unfold SDK.authenticate, refusing. unfold_io. simpl.
  destruct (SDK.transport env _ _ _) as [e|resp]; auto.
  destruct ((400 <=? SDK.status_code resp)%Z && (SDK.status_code resp <? 600)%Z); auto.
  destruct (SDK.body resp) as [content|]; auto.
  destruct (get content "expires_in" (VInt 3600)) as [e|expires_in]; auto.
  simpl.
  destruct (SDK.shift env _ _) as [e|expiry]; auto.
  simpl.
  destruct (getitem content "access_token") as [e|token]; auto.
Qed.


(** Whatever [authenticate] does, it sends the token request and nothing
    else, and touches no file. *)
Lemma authenticate_frame s r s' :
  authenticate s = (r, s') ->
  SDK.exchanges s' = SDK.exchanges s ++ [(SDK.headers s, token_request)]
  /\ SDK.file_calls s' = SDK.file_calls s
  /\ SDK.open_files s' = SDK.open_files s
  /\ (SDK.session_expiry s <> None -> SDK.session_expiry s' <> None)
  /\ (forall e, r = inl e -> SDK.headers s' = SDK.headers s).
Proof.
  rewrite authenticate_cases.
  repeat match goal with
         | |- context [match ?x with _ => _ end] => destruct x
         | |- context [if ?x then _ else _] => destruct x
         end;
    intros H; injection H as <- <-; simpl; repeat split; auto; discriminate.
Qed.

(** The request proper: sent with the headers of the moment. *)
Lemma request_sent req s :
  SDK.bind (SDK.send env req)
    (fun response =>
       SDK.bind (SDK.raise_for_status response) (fun _ => SDK.json_of response)) s
  = (decoded (SDK.transport env (SDK.exchanges s) (SDK.headers s) req),
     SDK.Session (SDK.headers s) (SDK.session_expiry s) (SDK.clock_reads s)
                 (SDK.exchanges s ++ [(SDK.headers s, req)]) (SDK.file_calls s)
                 (SDK.open_files s)).
Proof.
  unfold decoded, refusing. unfold_io. simpl.
  destruct (SDK.transport env _ _ _) as [e|resp]; auto.
  destruct ((400 <=? SDK.status_code resp)%Z && (SDK.status_code resp <? 600)%Z); auto.
  destruct (SDK.body resp); auto.
Qed.

Lemma make_request_cases m url params json files expiry s :
  SDK.session_expiry s = Some expiry ->
  _make_request m url params json files s
  = let req := api_request m url params json files in
    let finish s1 :=
      (decoded (SDK.transport env (SDK.exchanges s1) (SDK.headers s1) req),
       SDK.Session (SDK.headers s1) (SDK.session_expiry s1) (SDK.clock_reads s1)
                   (SDK.exchanges s1 ++ [(SDK.headers s1, req)]) (SDK.file_calls s1)
                   (SDK.open_files s1)) in
    if (SDK.clock env (SDK.clock_reads s) >? expiry)%Z
    then match authenticate (tick s) with
         | (inr _, s1) => finish s1
         | (inl e, s1) => (inl e, s1)
         end
    else finish (tick s).
Proof.
  destruct s as [h ex reads sent fc files_open]. simpl. intros ->.
  unfold SDK._make_request, tick.
  unfold SDK.bind at 1, SDK.now at 1. unfold SDK.bind at 1, SDK.read_expiry at 1.
  simpl. unfold SDK.bind at 1.
  destruct (SDK.clock env reads >? expiry)%Z; cbv beta iota zeta.
  - destruct (authenticate _) as [[e|[]] s1]; auto.
    apply request_sent.
  - unfold SDK.ret at 1. apply request_sent.
Qed.


Lemma authenticate_success s s' :
  authenticate s = (inr tt, s') ->
  exists resp content expires_in expiry token,
    SDK.transport env (SDK.exchanges s) (SDK.headers s) token_request = inr resp
    /\ refusing resp = false
    /\ SDK.body resp = Some content
    /\ get content "expires_in" (VInt 3600) = inr expires_in
    /\ SDK.shift env (SDK.clock env (SDK.clock_reads s)) expires_in = inr expiry
    /\ getitem content "access_token" = inr token
    /\ s' = SDK.Session (SDK.headers_update (SDK.headers s) (SDK.new_headers env token))
                        (Some expiry) (S (SDK.clock_reads s))
                        (SDK.exchanges s ++ [(SDK.headers s, token_request)])
                        (SDK.file_calls s) (SDK.open_files s).
Proof.
  rewrite authenticate_cases.
  destruct (SDK.transport env _ _ _) as [e|resp] eqn:Hx; [discriminate|].
  destruct (refusing resp) eqn:Hr; [discriminate|].
  destruct (SDK.body resp) as [content|] eqn:Hb; [|discriminate].
  destruct (get content "expires_in" (VInt 3600)) as [e|expires_in] eqn:Hg;
    [discriminate|].
  destruct (SDK.shift env _ _) as [e|expiry] eqn:Hs; [discriminate|].
  destruct (getitem content "access_token") as [e|token] eqn:Ht; [discriminate|].
  intros H. injection H as <-.
  exists resp, content, expires_in, expiry, token. repeat split; auto.
Qed.

Lemma authorized_after_update env' token h expiry reads sent fc files_open :
  authorized (SDK.Session (SDK.headers_update h (SDK.new_headers env' token))
                          (Some expiry) reads sent fc files_open).
Proof.
  unfold authorized. cbn [SDK.headers SDK.session_expiry].
  rewrite !new_headers_lookup. repeat split.
  - eexists. reflexivity.
  - discriminate.
Qed.

(** X11. The constructor makes one request, the token request (a POST
    of the credentials as form data to [base_auth_url/oauth2/token/]),
    and succeeds only when the answer is a mapping with an
    ["access_token"]: the session then sends [Bearer <token>], [Accept]
    and the JSON content type, and the token expires the given number of
    seconds (an hour when none is given) after the clock was read. *)
Theorem constructor_authenticates s :
  SDK.__init__ env = (inr tt, s) ->
  authorized s
  /\ SDK.exchanges s = [(SDK.default_headers env, token_request)]
  /\ SDK.http_method token_request = "POST"
  /\ SDK.http_url token_request = (SDK.base_auth_url env ++ "/oauth2/token/")%string
  /\ SDK.http_data token_request = Some (SDK.auth_payload env)
  /\ exists resp content token expires_in expiry,
       SDK.transport env [] (SDK.default_headers env) token_request = inr resp
       /\ refusing resp = false
       /\ SDK.body resp = Some content
       /\ getitem content "access_token" = inr token
       /\ SDK.header_lookup "Authorization" (SDK.headers s)
          = Some (VStr ("Bearer " ++ SDK.format env token))
       /\ get content "expires_in" (VInt 3600) = inr expires_in
       /\ SDK.shift env (SDK.clock env 0) expires_in = inr expiry
       /\ SDK.session_expiry s = Some expiry.
Proof.
  unfold SDK.__init__. intros H.
  apply authenticate_success in H
    as (resp & content & expires_in & expiry & token & Ht & Hr & Hb & He & Hs & Ha & ->).
  fields. split; [apply authorized_after_update|].
  repeat split.
  exists resp, content, token, expires_in, expiry. fields.
  rewrite new_headers_lookup. repeat split; auto.
Qed.

(** X12. While the token has not expired a request is sent as it is,
    with the headers of the session, and nothing else is sent: no token
    is asked for, the expiry stays, and the result is the decoded body
    unless the status is a 4xx or a 5xx. *)
Theorem valid_token_is_not_refreshed m url params json files expiry s r s' :
  SDK.session_expiry s = Some expiry ->
  (SDK.clock env (SDK.clock_reads s) <= expiry)%Z ->
  _make_request m url params json files s = (r, s') ->
  SDK.exchanges s'
  = SDK.exchanges s ++ [(SDK.headers s, api_request m url params json files)]
  /\ SDK.headers s' = SDK.headers s
  /\ SDK.session_expiry s' = Some expiry
  /\ r = decoded (SDK.transport env (SDK.exchanges s) (SDK.headers s)
                    (api_request m url params json files)).
Proof.
  intros He Hc. rewrite (make_request_cases _ _ _ _ _ expiry) by auto.
  cbv zeta. destruct (Z.gtb_spec (SDK.clock env (SDK.clock_reads s)) expiry) as [Hgt|Hle]; [lia|].
  intros H. injection H as <- <-. simpl. auto.
Qed.

(** X13. Once the clock is past the expiry, the first thing a request
    does is to ask for a new token, with the headers the session had; the
    request itself is sent only if that went through, and then with the
    new [Authorization] header; the new expiry is counted from a second
    reading of the clock. *)
Theorem expired_token_is_refreshed_first m url params json files expiry s r s' :
  SDK.session_expiry s = Some expiry ->
  (expiry < SDK.clock env (SDK.clock_reads s))%Z ->
  _make_request m url params json files s = (r, s') ->
  exists rest,
    SDK.exchanges s' = SDK.exchanges s ++ (SDK.headers s, token_request) :: rest
    /\ (rest = [] \/ rest = [(SDK.headers s', api_request m url params json files)])
    /\ (forall v, r = inr v ->
        rest = [(SDK.headers s', api_request m url params json files)]
        /\ exists resp content token expires_in expiry',
             SDK.transport env (SDK.exchanges s) (SDK.headers s) token_request = inr resp
             /\ SDK.body resp = Some content
             /\ getitem content "access_token" = inr token
             /\ SDK.header_lookup "Authorization" (SDK.headers s')
                = Some (VStr ("Bearer " ++ SDK.format env token))
             /\ get content "expires_in" (VInt 3600) = inr expires_in
             /\ SDK.shift env (SDK.clock env (S (SDK.clock_reads s))) expires_in
                = inr expiry'
             /\ SDK.session_expiry s' = Some expiry').
Proof.
  intros He Hc. rewrite (make_request_cases _ _ _ _ _ expiry) by auto.
  cbv zeta. destruct (Z.gtb_spec (SDK.clock env (SDK.clock_reads s)) expiry) as [Hgt|Hle]; [|lia].
  destruct (authenticate (tick s)) as [[e|[]] s1] eqn:Ha.
  - intros H. injection H as <- <-.
    apply authenticate_frame in Ha as (Hx & _). simpl in Hx.
    exists []. split; [exact Hx|]. split; [auto|]. discriminate.
  - intros H. injection H as <- <-.
    apply authenticate_success in Ha
      as (resp & content & expires_in & expiry' & token & Ht & Hr & Hb & Hg & Hs & Hk & ->).
    fields. eexists. split; [rewrite <- app_assoc; reflexivity|].
    split; [right; reflexivity|].
    intros v Hv. split; [reflexivity|].
    exists resp, content, token, expires_in, expiry'.
    rewrite new_headers_lookup. repeat split; auto.
Qed.

(** X14. When the refresh fails, its error is the error of the call:
    the request itself is never sent, and the headers are those the
    session had, the expired token included. *)
Theorem failed_refresh_sends_nothing m url params json files expiry s e s1 :
  SDK.session_expiry s = Some expiry ->
  (expiry < SDK.clock env (SDK.clock_reads s))%Z ->
  authenticate (tick s) = (inl e, s1) ->
  _make_request m url params json files s = (inl e, s1)
  /\ SDK.exchanges s1 = SDK.exchanges s ++ [(SDK.headers s, token_request)]
  /\ SDK.headers s1 = SDK.headers s.
Proof.
  intros He Hc Ha. rewrite (make_request_cases _ _ _ _ _ expiry) by auto.
  cbv zeta. destruct (Z.gtb_spec (SDK.clock env (SDK.clock_reads s)) expiry) as [Hgt|Hle]; [|lia].
  rewrite Ha. split; auto.
  apply authenticate_frame in Ha as (Hx & _ & _ & _ & Hh). simpl in *. split; eauto.
Qed.

(** X15. [authenticate] moves the expiry before it reads the token.  A
    token response that is a mapping without ["access_token"] therefore
    raises [KeyError] with the expiry already moved and the headers left
    as they were; until the new expiry the next requests go out with the
    old headers and no token is asked for. *)
Theorem incomplete_token_response_is_not_retried
    m url params json files expiry s resp d expiry' :
  SDK.session_expiry s = Some expiry ->
  (expiry < SDK.clock env (SDK.clock_reads s))%Z ->
  SDK.transport env (SDK.exchanges s) (SDK.headers s) token_request = inr resp ->
  refusing resp = false ->
  SDK.body resp = Some (VDict d) ->
  lookup "access_token" d = None ->
  SDK.shift env (SDK.clock env (S (SDK.clock_reads s)))
    (match lookup "expires_in" d with Some v => v | None => VInt 3600 end)
  = inr expiry' ->
  exists s1,
    _make_request m url params json files s
    = (inl (SDK.Builtin (KeyError "access_token")), s1)
    /\ SDK.headers s1 = SDK.headers s
    /\ SDK.session_expiry s1 = Some expiry'
    /\ SDK.exchanges s1 = SDK.exchanges s ++ [(SDK.headers s, token_request)]
    /\ forall m' url' params' json' files' r2 s2,
         (SDK.clock env (SDK.clock_reads s1) <= expiry')%Z ->
         _make_request m' url' params' json' files' s1 = (r2, s2) ->
         SDK.exchanges s2
         = SDK.exchanges s1
           ++ [(SDK.headers s, api_request m' url' params' json' files')].
Proof.
  intros He Hc Ht Hr Hb Hk Hs.
  rewrite (make_request_cases _ _ _ _ _ expiry) by auto.
  cbv zeta. destruct (Z.gtb_spec (SDK.clock env (SDK.clock_reads s)) expiry) as [Hgt|Hle]; [|lia].
  rewrite authenticate_cases. simpl.
  rewrite Ht, Hr, Hb. simpl. rewrite Hs, Hk.
  eexists. split; [reflexivity|]. simpl. repeat split.
  intros m' url' params' json' files' r2 s2 Hc' H2.
  rewrite (make_request_cases _ _ _ _ _ expiry') in H2 by reflexivity.
  cbv zeta in H2. simpl in H2, Hc'.
  destruct (Z.gtb_spec (SDK.clock env (S (S (SDK.clock_reads s)))) expiry')
    as [Hgt'|Hle']; [lia|].
  injection H2 as <- <-. reflexivity.
Qed.

(** X16. A refresh replaces [Authorization], [Accept] and
    [Content-Type], whatever the case they were written in, and leaves
    every other header of the session alone; refreshing an authorized
    session adds no header. *)
Theorem refresh_keeps_other_headers s s' :
  authenticate s = (inr tt, s') ->
  authorized s'
  /\ (forall k,
        SDK.same_header k "Authorization" = false ->
        SDK.same_header k "Accept" = false ->
        SDK.same_header k "Content-Type" = false ->
        SDK.header_lookup k (SDK.headers s') = SDK.header_lookup k (SDK.headers s))
  /\ (authorized s -> length (SDK.headers s') = length (SDK.headers s)).
Proof.
  intros H. apply authenticate_success in H
    as (resp & content & expires_in & expiry & token & _ & _ & _ & _ & _ & _ & ->).
  split; [apply authorized_after_update|]. fields. split.
  - intros k H1 H2 H3. rewrite new_headers_lookup, H1, H2, H3. reflexivity.
  - intros ((tok & H1) & H2 & H3 & _). apply new_headers_length; congruence.
Qed.

End SessionFacts.

Section AttachmentFacts.

Variable env : SDK.environment.

Ltac fields :=
  cbn [SDK.headers SDK.session_expiry SDK.clock_reads SDK.exchanges SDK.file_calls
       SDK.open_files SDK.fresh SDK.set_open_files tick asked fst snd] in *.

Lemma make_request_frame m url params json files s r s' :
  SDK._make_request env m url params json files s = (r, s') ->
  SDK.file_calls s' = SDK.file_calls s /\ SDK.open_files s' = SDK.open_files s.
Proof.
  destruct (SDK.session_expiry s) as [expiry|] eqn:He.
  - rewrite (make_request_cases _ _ _ _ _ _ expiry) by auto. cbv zeta.
    destruct (_ >? _)%Z.
    + destruct (SDK.authenticate env (tick s)) as [[e|[]] s1] eqn:Ha;
        apply authenticate_frame in Ha as (_ & Hf & Ho & _);
        intros H; injection H as <- <-; fields; auto.
    + intros H. injection H as <- <-. fields. auto.
  - unfold SDK._make_request.
    unfold SDK.bind at 1, SDK.now at 1. unfold SDK.bind at 1, SDK.read_expiry at 1.
    fields. rewrite He. intros H. injection H as <- <-. fields. auto.
Qed.

(** What a request sends from an authorized session. *)
Lemma make_request_sent m url params json files s r s' :
  authorized s ->
  SDK._make_request env m url params json files s = (r, s') ->
  authorized s'
  /\ exists new,
       SDK.exchanges s' = SDK.exchanges s ++ new
       /\ Forall (fun x => snd x = SDK.token_request env
                           \/ (snd x = api_request m url params json files
                               /\ SDK.header_lookup "Content-Type" (fst x)
                                  = Some (VStr "application/json"))) new.
Proof.
  intros Hauth. pose proof Hauth as (Htok & Hacc & Hct & Hexp).
  destruct (SDK.session_expiry s) as [expiry|] eqn:He; [|congruence].
  rewrite (make_request_cases _ _ _ _ _ _ expiry) by auto. cbv zeta.
  destruct (_ >? _)%Z.
  - destruct (SDK.authenticate env (tick s)) as [[e|[]] s1] eqn:Ha.
    + pose proof Ha as Hfr.
      apply authenticate_frame in Hfr as (Hx & _ & _ & Hsome & Hh).
      intros H. injection H as <- <-. fields. split.
      * unfold authorized. rewrite (Hh e eq_refl). repeat split; auto.
        apply Hsome. congruence.
      * eexists. split; [exact Hx|]. constructor; auto.
    + apply authenticate_success in Ha
        as (resp & content & expires_in & expiry' & token & _ & _ & _ & _ & _ & _ & ->).
      intros H. injection H as <- <-. fields. split.
      * apply authorized_after_update.
      * eexists. split; [rewrite <- app_assoc; reflexivity|].
        constructor; [left; reflexivity|]. constructor; [|constructor].
        right. split; [reflexivity|]. fields.
        rewrite !header_lookup_set. reflexivity.
  - intros H. injection H as <- <-. fields. split.
    + unfold authorized. fields. rewrite He. auto.
    + eexists. split; [reflexivity|]. constructor; [|constructor].
      right. split; [reflexivity|]. exact Hct.
Qed.

(** The part that the two attachment operations share. *)
Local Abbreviation upload url payload path :=
  (SDK.bind (SDK.exists_ env path)
     (fun found : bool =>
        if negb found then SDK.raise (SDK.not_found env path)
        else SDK.with_open env path
               (fun attachment =>
                  SDK._make_request env "POST" url None (Some payload)
                    (Some [("attachment", attachment)])))).

Lemma filter_fresh (fd : nat) (l : list (nat * value)) n :
  Forall (fun f => fst f < n) l -> n <= fd ->
  filter (fun f => negb (fst f =? fd)) l = l.
Proof.
  intros Hall Hn. induction Hall as [|f l Hf _ IH]; simpl; auto.
  destruct (Nat.eqb_spec (fst f) fd); [lia|]. simpl. now rewrite IH.
Qed.

Lemma upload_missing url payload path s :
  SDK.path_exists env (SDK.file_calls s) path = inr false ->
  upload url payload path s = (inl (SDK.not_found env path), asked s).
Proof.
  intros H. unfold SDK.bind, SDK.exists_. rewrite H. reflexivity.
Qed.

Lemma upload_closes url payload path s r s' :
  files_in_order s ->
  upload url payload path s = (r, s') ->
  SDK.open_files s' = SDK.open_files s /\ files_in_order s'.
Proof.
  unfold files_in_order. intros Hwf. unfold SDK.bind at 1, SDK.exists_ at 1.
  destruct (SDK.path_exists env _ _) as [e|[|]]; simpl.
  - intros H. injection H as <- <-. fields. split; auto.
    eapply Forall_impl; [|exact Hwf]. simpl. intros; lia.
  - unfold SDK.with_open. fields.
    destruct (SDK.open_rb env _ _) as [e|].
    + intros H. injection H as <- <-. fields. split; auto.
      eapply Forall_impl; [|exact Hwf]. simpl. intros; lia.
    + destruct (SDK._make_request env _ _ _ _ _ _) as [r2 s2] eqn:Hm.
      apply make_request_frame in Hm as (Hf & Ho). fields.
      intros H. injection H as <- <-. fields. rewrite Ho, Hf. simpl.
      rewrite Nat.eqb_refl. simpl.
      rewrite (filter_fresh _ _ (SDK.file_calls s)) by auto. split; auto.
      eapply Forall_impl; [|exact Hwf]. simpl. intros; lia.
  - unfold SDK.raise. intros H. injection H as <- <-. fields. split; auto.
    eapply Forall_impl; [|exact Hwf]. simpl. intros; lia.
Qed.

Lemma authorized_same_headers s s' :
  SDK.headers s' = SDK.headers s -> SDK.session_expiry s' = SDK.session_expiry s ->
  authorized s -> authorized s'.
Proof. unfold authorized. intros -> ->. auto. Qed.

Lemma upload_sent url payload path s r s' :
  authorized s ->
  upload url payload path s = (r, s') ->
  authorized s'
  /\ exists new,
       SDK.exchanges s' = SDK.exchanges s ++ new
       /\ Forall (fun x => snd x = SDK.token_request env \/ upload_of path x) new.
Proof.
  intros Hauth. unfold SDK.bind at 1, SDK.exists_ at 1.
  assert (Hnone : forall s0,
            SDK.headers s0 = SDK.headers s ->
            SDK.session_expiry s0 = SDK.session_expiry s ->
            SDK.exchanges s0 = SDK.exchanges s ->
            authorized s0
            /\ exists new,
                 SDK.exchanges s0 = SDK.exchanges s ++ new
                 /\ Forall (fun x => snd x = SDK.token_request env \/ upload_of path x)
                      new).
  { intros s0 Hh He Hx. split; [eapply authorized_same_headers; eauto|].
    exists []. rewrite app_nil_r. auto. }
  destruct (SDK.path_exists env _ _) as [e|[|]]; simpl.
  - intros H. injection H as <- <-. apply Hnone; reflexivity.
  - unfold SDK.with_open. fields.
    destruct (SDK.open_rb env _ _) as [e|].
    + intros H. injection H as <- <-. apply Hnone; reflexivity.
    + destruct (SDK._make_request env _ _ _ _ _ _) as [r2 s2] eqn:Hm.
      apply make_request_sent in Hm as (Hauth2 & new & Hx & Hall).
      2:{ eapply authorized_same_headers; [| |exact Hauth]; reflexivity. }
      intros H. injection H as <- <-. split.
      * eapply authorized_same_headers; [| |exact Hauth2]; reflexivity.
      * exists new. fields. split; [exact Hx|].
        eapply Forall_impl; [|exact Hall]. simpl.
        intros [hdrs req] [Ht|(Hreq & Hct)]; [left; exact Ht|right].
        simpl in Hreq. subst req.
        unfold upload_of. simpl in *. repeat split; auto. discriminate.
  - unfold SDK.raise. intros H. injection H as <- <-. apply Hnone; reflexivity.
Qed.

(** X17. An attachment whose file does not exist is refused before
    anything else happens: [FileNotFoundError] with the path in its
    message, and no clock read, no token asked for, no request, no file
    opened. *)
Theorem missing_attachment_file claim invoice path kind description s :
  SDK.path_exists env (SDK.file_calls s) path = inr false ->
  let refused :=
    (inl (SDK.FileNotFoundError
            ("Attachment file '" ++ SDK.format env path ++ "' not found.")%string),
     asked s) in
  SDK.submit_claim_attachment env claim path kind description s = refused
  /\ SDK.submit_invoice_attachment env invoice path description s = refused
  /\ SDK.exchanges (asked s) = SDK.exchanges s
  /\ SDK.clock_reads (asked s) = SDK.clock_reads s
  /\ SDK.open_files (asked s) = SDK.open_files s.
Proof.
  intros H. cbv zeta. split; [|split; [|repeat split]].
  - unfold SDK.submit_claim_attachment. apply upload_missing. exact H.
  - unfold SDK.submit_invoice_attachment. apply upload_missing. exact H.
Qed.

(** X18. Whatever a task does (the file is missing, it cannot be opened,
    the token cannot be refreshed, the upload is refused or goes through,
    the arguments do not fit), the file it opened is closed when it ends:
    the files open afterwards are those open before. *)
Theorem attachment_file_is_closed t s r s' :
  files_in_order s ->
  call_task env t s = (r, s') ->
  SDK.open_files s' = SDK.open_files s /\ files_in_order s'.
Proof.
  intros Hwf. unfold call_task.
  assert (Hraise : (inl (SDK.Builtin TypeError) : SDK.failure + value, s) = (r, s') ->
                   SDK.open_files s' = SDK.open_files s /\ files_in_order s').
  { intros H. injection H as <- <-. auto. }
  destruct (func t), (args t) as [|a1 [|a2 [|a3 [|a4 [|a5 l]]]]]; try exact Hraise.
  all: first [ unfold SDK.submit_claim_attachment | unfold SDK.submit_invoice_attachment ].
  all: apply upload_closes; exact Hwf.
Qed.

(** X19. What a task sends from an authorized session: token requests
    and uploads of its file, nothing else.  Every upload is a POST that
    carries the file and a JSON body, has no headers of its own, and goes
    out under the JSON content type of the session; the session stays
    authorized. *)
Theorem uploads_are_sent_as_json t s r s' :
  authorized s ->
  call_task env t s = (r, s') ->
  authorized s'
  /\ exists new,
       SDK.exchanges s' = SDK.exchanges s ++ new
       /\ Forall (fun x => snd x = SDK.token_request env
                           \/ upload_of (nth 1 (args t) VNone) x) new.
Proof.
  intros Hauth. unfold call_task.
  assert (Hraise : (inl (SDK.Builtin TypeError) : SDK.failure + value, s) = (r, s') ->
            authorized s'
            /\ exists new,
                 SDK.exchanges s' = SDK.exchanges s ++ new
                 /\ Forall (fun x => snd x = SDK.token_request env
                                     \/ upload_of (nth 1 (args t) VNone) x) new).
  { intros H. injection H as <- <-. split; auto. exists []. rewrite app_nil_r. auto. }
  destruct (func t), (args t) as [|a1 [|a2 [|a3 [|a4 [|a5 l]]]]]; try exact Hraise.
  all: first [ unfold SDK.submit_claim_attachment | unfold SDK.submit_invoice_attachment ].
  all: simpl nth; apply upload_sent; exact Hauth.
Qed.

End AttachmentFacts.

Section WrapperFacts.

Variable env : SDK.environment.

Lemma make_request_valid m url params json files expiry s :
  SDK.session_expiry s = Some expiry ->
  (SDK.clock env (SDK.clock_reads s) <= expiry)%Z ->
  SDK._make_request env m url params json files s
  = (decoded (SDK.transport env (SDK.exchanges s) (SDK.headers s)
                (api_request m url params json files)),
     SDK.Session (SDK.headers s) (SDK.session_expiry s) (S (SDK.clock_reads s))
                 (SDK.exchanges s ++ [(SDK.headers s, api_request m url params json files)])
                 (SDK.file_calls s) (SDK.open_files s)).
Proof.
  intros He Hc. rewrite (make_request_cases _ _ _ _ _ _ expiry) by auto.
  cbv zeta. destruct (Z.gtb_spec (SDK.clock env (SDK.clock_reads s)) expiry) as [Hgt|Hle];
    [lia|].
  reflexivity.
Qed.

Lemma bare_path_has_no_scheme base path :
  ("/v1/beneficiaries/member_eligibility" = base ++ path)%string ->
  String.prefix "http" base = false.
Proof.
  destruct base as [|c base]; [reflexivity|]. simpl.
  intros H. injection H as <- _. reflexivity.
Qed.

(** X21. In a session whose token has not expired every wrapper of
    [Visit] and [Remittance] sends one request.  The address is under
    the EDI or the Integration Services base URL of the client, except
    for [get_member_eligibility]: it hands the bare path to the session,
    whatever the base URLs are, so the address names no host.
    [request_otp] gives [None] whatever the service answered. *)
Theorem wrapper_addresses expiry s
    member_number payer_slade_code contact_id
    beneficiary_id factors benefit_type benefit_code policy_number
    policy_effective_date otp beneficiary_contact scheme_name scheme_code
    first_name last_name other_names auth_token visit_type payer_code
    authorization invoice_number amount claim_remittance_id :
  SDK.session_expiry s = Some expiry ->
  (SDK.clock env (SDK.clock_reads s) <= expiry)%Z ->
  let sends (op : SDK.IO value) (method url : string) :=
    exists req,
      SDK.exchanges (snd (op s)) = SDK.exchanges s ++ [(SDK.headers s, req)]
      /\ SDK.http_method req = method
      /\ SDK.http_url req = url in
  (sends (SDK.get_member_eligibility env member_number payer_slade_code)
     "GET" "/v1/beneficiaries/member_eligibility"
   /\ forall base path,
        ("/v1/beneficiaries/member_eligibility" = base ++ path)%string ->
        String.prefix "http" base = false)
  /\ (sends (SDK.request_otp env contact_id) "POST"
        (SDK.base_edi_url env ++ "/v1/beneficiaries/beneficiary_contacts/"
         ++ SDK.format env contact_id ++ "/send_otp/")%string
      /\ forall v, fst (SDK.request_otp env contact_id s) = inr v -> v = VNone)
  /\ sends (SDK.start_visit_via_otp env beneficiary_id factors benefit_type
              benefit_code policy_number policy_effective_date otp
              beneficiary_contact scheme_name scheme_code)
       "POST" (SDK.base_is_url env ++ "/v1/authorizations/start_visit/")%string
  /\ sends (SDK.validate_authorization_token env first_name last_name other_names
              member_number auth_token visit_type scheme_code scheme_name payer_code)
       "POST"
       (SDK.base_is_url env ++ "/v1/authorizations/validate_authorization_token/")%string
  /\ sends (SDK.create_balance_reservation env authorization invoice_number amount)
       "POST"
       (SDK.base_edi_url env
        ++ "/v1/balances/reservations/reserve_from_authorization/")%string
  /\ sends (SDK.list_remittances env) "GET"
       (SDK.base_edi_url env ++ "/v1/remittances")%string
  /\ sends (SDK.get_remittance env claim_remittance_id) "GET"
       (SDK.base_edi_url env ++ "/v1/remittances/claim_remittance")%string.
Proof.
  intros He Hc. cbv zeta.
  unfold SDK.get_member_eligibility, SDK.request_otp, SDK.start_visit_via_otp,
    SDK.validate_authorization_token, SDK.create_balance_reservation,
    SDK.list_remittances, SDK.get_remittance.
  unfold SDK.bind. rewrite !(make_request_valid _ _ _ _ _ expiry) by assumption.
  repeat split; try (eexists; simpl; repeat split; reflexivity).
  - apply bare_path_has_no_scheme.
  - eexists. destruct (decoded _); simpl; repeat split; reflexivity.
  - destruct (decoded _); simpl; [discriminate|]. unfold SDK.ret. simpl. congruence.
Qed.

End WrapperFacts.

Section CallFacts.

Variable task_list : list task.
Variable num_workers : nat.
Variable perform : list event -> task -> outcome.

(** A step adds at most one event to the trace, and the outcome of a
    call it adds is what [perform] gives after the trace so far. *)
Lemma step_trace who s s' :
  step task_list num_workers perform who s = Some s' ->
  trace s' = trace s
  \/ exists ev,
       trace s' = trace s ++ [ev]
       /\ forall w t o, ev = EvCall w t o -> o = perform (trace s) t.
Proof.
  intros H. destruct s as [m th q u tr], who as [|w]; simpl in *.
  - unfold_step H; simpl in H.
    repeat match type of H with
           | context [match ?x with _ => _ end] => destruct x eqn:?
           | context [if ?x then _ else _] => destruct x eqn:?
           end; try discriminate H; injection H as <-; simpl; auto;
      right; eexists; (split; [reflexivity|]); discriminate.
  - unfold_step H; simpl in H.
    repeat match type of H with
           | context [match ?x with _ => _ end] => destruct x eqn:?
           | context [if ?x then _ else _] => destruct x eqn:?
           end; try discriminate H; injection H as <-; simpl; auto;
      right; eexists; (split; [reflexivity|]); intros w' t' o' Hev;
      try discriminate Hev; injection Hev as _ <- <-; congruence.
Qed.

Lemma reachable_calls s pre w t o post :
  reachable task_list num_workers perform s ->
  trace s = pre ++ EvCall w t o :: post ->
  o = perform pre t.
Proof.
  intros Hr. revert pre post.
  induction Hr as [|s who s' Hr IH H]; intros pre post Htr.
  - destruct pre; discriminate.
  - destruct (step_trace _ _ _ H) as [Heq|(ev & Heq & Hev)]; rewrite Heq in Htr.
    + eauto.
    + destruct (snoc_split _ _ _ _ _ Htr) as [(-> & -> & Hx)|(post' & -> & Hs)].
      * eapply Hev. symmetry. exact Hx.
      * eauto.
Qed.

Lemma called_in tr t : In t (called tr) -> exists w o, In (EvCall w t o) tr.
Proof.
  unfold called. rewrite in_flat_map. intros (ev & Hin & Ht).
  destruct ev; simpl in Ht; try contradiction.
  destruct Ht as [<-|[]]. eauto.
Qed.

Lemma raised_in_lines tr w t m :
  In (EvCall w t (Raised m)) tr -> In (log_line m) (raised_lines tr).
Proof.
  intros H. unfold raised_lines. apply in_flat_map. eexists. split; [exact H|].
  simpl. auto.
Qed.

End CallFacts.

Section TaskFacts.

Variable env : SDK.environment.
Variable base_is_url : string.
Variable remote : list call -> request -> result value.
Variable cpu_count : option nat.

Lemma session_after_app s tr tr' :
  session_after env s (tr ++ tr') = session_after env (session_after env s tr) tr'.
Proof.
  revert s. induction tr as [|ev tr IH]; intros s; simpl; auto.
  destruct ev; auto.
Qed.

(** X20. In the pool of an orchestration whose tasks are the attachment
    operations run one after the other on a session, every task fits the
    operation it calls: [func( *args )] binds the four arguments of
    [submit_claim_attachment], so no task fails for the number of its
    arguments.  When the file of a task is not there, the call raises
    the [FileNotFoundError] that names the file after asking the file
    system and nothing else, in whatever state the session is; every call
    of that task in the trace of the pool raises it and leaves what the
    session has sent as it was; and
    once the pool has returned, the task was called and the log of the
    pool holds the line ["Error processing task: Attachment file '...'
    not found."] for it. *)
Theorem missing_file_is_logged s0 bundled schedule st p t :
  send_a_claim_and_its_children base_is_url remote cpu_count (sdk_perform env s0)
    bundled schedule = Some (Processing st p) ->
  In t (tasks st) ->
  (forall n, SDK.path_exists env n (nth 1 (args t) VNone) = inr false) ->
  let path := nth 1 (args t) VNone in
  let text := ("Attachment file '" ++ SDK.format env path ++ "' not found.")%string in
  (exists claim kind description,
      t = Task submit_claim_attachment [claim; path; kind; description]
      /\ call_task env t = SDK.submit_claim_attachment env claim path kind description)
  /\ (forall s, run_task env t s = (Raised text, asked s))
  /\ (forall pre w o post,
        trace p = pre ++ EvCall w t o :: post ->
        o = Raised text
        /\ SDK.exchanges (session_after env s0 (pre ++ [EvCall w t o]))
           = SDK.exchanges (session_after env s0 pre))
  /\ (main p = MReturned ->
      (exists w, In (EvCall w t (Raised text)) (trace p))
      /\ In ("Error processing task: " ++ text)%string (logged (trace p))).
Proof.
  intros H Hin Hgone. cbv zeta.
  destruct (send_cases _ _ _ _ _ _ _ H) as (r & _ & _ & _ & Hprep & _ & -> & Hpool).
  simpl in Hprep.
  destruct (prepare_claim_success _ _ _ _ Hprep)
    as (first & claim_id & atts & invoices & credit_notes & invs & crns
        & _ & _ & _ & _ & _ & _ & _ & Ht & _).
  rewrite Ht in Hin. apply in_map_iff in Hin as (a & <- & Hina).
  unfold claim_attachment_task in *. simpl in *.
  set (path := field a "path_to_attachment") in *.
  set (t := Task submit_claim_attachment
              [claim_id; path; field a "attachment_type"; field a "description"]) in *.
  assert (Hrun : forall s,
            run_task env t s
            = (Raised ("Attachment file '" ++ SDK.format env path ++ "' not found.")%string,
               asked s)).
  { intros s. unfold run_task, call_task. simpl.
    unfold SDK.submit_claim_attachment.
    rewrite upload_missing by apply Hgone. reflexivity. }
  assert (Hreach : reachable (tasks st) (DEFAULT_NUM_OF_WORKERS cpu_count)
                     (sdk_perform env s0) p).
  { eapply run_reachable; eauto. constructor. }
  assert (Hcalls : forall pre w o post,
            trace p = pre ++ EvCall w t o :: post ->
            o = Raised ("Attachment file '" ++ SDK.format env path ++ "' not found.")%string).
  { intros pre w o post Htr.
    rewrite (reachable_calls _ _ _ _ _ _ _ _ _ Hreach Htr).
    unfold sdk_perform. now rewrite Hrun. }
  split; [|split; [|split]].
  - exists claim_id, (field a "attachment_type"), (field a "description"). auto.
  - exact Hrun.
  - intros pre w o post Htr. split; [eauto|].
    rewrite session_after_app. simpl. now rewrite Hrun.
  - intros Hmain.
    destruct (returned_facts _ _ _ _ Hreach Hmain) as (_ & Hcalled & Hlogged & _).
    assert (Hint : In t (called (trace p))).
    { eapply Permutation_in; [exact Hcalled|]. rewrite Ht. apply in_map_iff.
      exists a. split; [reflexivity|exact Hina]. }
    destruct (called_in _ _ Hint) as (w & o & Hev).
    destruct (in_split _ _ Hev) as (pre & post & Htr).
    pose proof (Hcalls pre w o post Htr) as ->.
    split; [eauto|].
    eapply Permutation_in; [exact Hlogged|].
    exact (raised_in_lines _ _ _ _ Hev).
Qed.

End TaskFacts.

(** ** The properties above on the examples *)

Lemma tasks_are_dispatched_in_order_witness :
  example_tasks
  = dequeued (trace example_pool_end) ++ queued (queue example_pool_end)
    ++ pending example_tasks (main example_pool_end).
Proof.
  apply (tasks_are_dispatched_in_order example_tasks 2 example_perform
           example_pool_schedule example_pool_end).
  reflexivity.
Defined.

Lemma no_workers_never_return_witness :
  main example_stuck_pool <> MReturned
  /\ threads example_stuck_pool = []
  /\ dequeued (trace example_stuck_pool) = []
  /\ queued (queue example_stuck_pool) ++ pending example_tasks (main example_stuck_pool)
     = example_tasks.
Proof.
  apply (no_workers_never_return example_tasks example_perform [Main; Main; Main; Main]
           example_stuck_pool).
  - discriminate.
  - reflexivity.
Defined.

Lemma task_done_never_raises_witness :
  Forall (fun pc => pc <> WCrashed) (threads example_pool_end)
  /\ unfinished_tasks example_pool_end
     = length (queue example_pool_end) + count busy (threads example_pool_end)
       + count exited (threads example_pool_end).
Proof.
  apply (task_done_never_raises example_tasks 2 example_perform example_pool_schedule
           example_pool_end).
  reflexivity.
Defined.

Lemma claim_attachment_tasks_in_order_witness :
  exists first rest claim_id attachments,
    calls (session example_orchestration) = first :: rest
    /\ identifier_of first = Some claim_id
    /\ items_of "claim_attachments" example_bundled = inr attachments
    /\ forallb complete_attachment attachments = true
    /\ tasks (session example_orchestration)
       = map (claim_attachment_task claim_id) attachments.
Proof.
  apply (claim_attachment_tasks_in_order example_url example_remote (Some 4)
           example_perform example_bundled example_claim_schedule
           (session example_orchestration) example_claim_pool).
  reflexivity.
Defined.

Lemma children_are_submitted_in_order_witness :
  exists first claim_id invoices credit_notes invs crns,
    items_of "invoices" example_bundled = inr invoices
    /\ items_of "credit_notes" example_bundled = inr credit_notes
    /\ calls (session example_orchestration) = first :: invs ++ crns
    /\ call_op first = op_create_claim
    /\ identifier_of first = Some claim_id
    /\ Forall2 (linked op_submit_invoices claim_id) invoices invs
    /\ Forall2 (linked op_submit_credit_note claim_id) credit_notes crns.
Proof.
  apply (children_are_submitted_in_order example_url example_remote (Some 4)
           example_perform example_bundled example_claim_schedule
           (session example_orchestration) example_claim_pool).
  reflexivity.
Defined.

Lemma malformed_claim_attachment_aborts_witness :
  exists e first,
    example_malformed_orchestration
    = Aborted (session example_malformed_orchestration) e
    /\ calls (session example_malformed_orchestration) = [first]
    /\ call_op first = op_create_claim
    /\ call_kwargs first = claim_kwargs example_malformed
    /\ (good first ->
        e = TypeError \/ e = KeyError "path_to_attachment"
        \/ e = KeyError "attachment_type").
Proof.
  apply (malformed_claim_attachment_aborts example_url example_remote (Some 4)
           example_perform example_malformed
           [VDict [("attachment_type", VStr "PRESCRIPTION")]] []
           example_malformed_orchestration).
  - reflexivity.
  - reflexivity.
  - reflexivity.
Defined.

Lemma resending_a_consumed_record_witness :
  exists first first',
    hd_error (calls (session example_orchestration)) = Some first
    /\ calls (session example_second_orchestration) = [first']
    /\ call_op first' = op_create_claim
    /\ call_kwargs first' = call_kwargs first
    /\ tasks (session example_second_orchestration) = []
    /\ log_of example_second_orchestration = [].
Proof.
  apply (resending_a_consumed_record example_url example_remote example_remote (Some 4)
           example_perform example_perform example_bundled example_claim_schedule
           example_orchestration
           (repeat Main 12 ++ [Worker 0; Worker 1; Worker 2; Worker 3] ++ repeat Main 5)
           example_second_orchestration).
  - reflexivity.
  - reflexivity.
Defined.

Lemma bulk_rejects_no_workers_witness :
  ([BMain] = []
   /\ Executor (BRaised ValueError) [] [] [] [] [] example_objects
      = bulk_initial example_objects)
  \/ ([BMain] = [BMain]
      /\ Executor (BRaised ValueError) [] [] [] [] [] example_objects
         = Executor (BRaised ValueError) [] [] [] [] [] example_objects).
Proof.
  apply (bulk_rejects_no_workers example_url (Some 4) example_remote_of
           (fun _ => example_perform) example_objects example_batch 0 [BMain]
           (Executor (BRaised ValueError) [] [] [] [] [] example_objects)).
  - lia.
  - reflexivity.
Defined.

Lemma each_claim_is_orchestrated_at_most_once_witness :
  NoDup (map fst (runs example_bulk_end))
  /\ (forall i o, In (i, o) (runs example_bulk_end) ->
        i < length example_batch
        /\ ~ In i (map fst (running (slots example_bulk_end)))
        /\ ~ In i (map fst (work_queue example_bulk_end))).
Proof.
  apply (each_claim_is_orchestrated_at_most_once example_url (Some 4) example_remote_of
           (fun _ => example_perform) example_objects example_batch 2
           example_bulk_schedule example_bulk_end).
  reflexivity.
Defined.

Lemma bulk_concurrency_is_bounded_witness :
  length (running (slots example_bulk_end)) <= Z.to_nat 2
  /\ length (running (slots example_bulk_end)) + length (runs example_bulk_end)
     + length (work_queue example_bulk_end)
     <= length example_batch.
Proof.
  apply (bulk_concurrency_is_bounded example_url (Some 4) example_remote_of
           (fun _ => example_perform) example_objects example_batch 2
           example_bulk_schedule example_bulk_end).
  reflexivity.
Defined.

Lemma constructor_authenticates_witness :
  authorized example_session
  /\ SDK.exchanges example_session
     = [(SDK.default_headers example_env, SDK.token_request example_env)].
Proof.
  destruct (constructor_authenticates example_env example_session) as (H1 & H2 & _).
  - reflexivity.
  - split; [exact H1|exact H2].
Defined.

Lemma valid_token_is_not_refreshed_witness :
  SDK.exchanges (snd example_reply)
  = SDK.exchanges example_session
    ++ [(SDK.headers example_session,
         api_request "GET" "https://edi.example/v1/remittances" None None None)]
  /\ SDK.headers (snd example_reply) = SDK.headers example_session.
Proof.
  destruct (valid_token_is_not_refreshed example_env "GET"
              "https://edi.example/v1/remittances" None None None 60000000%Z
              example_session (fst example_reply) (snd example_reply))
    as (H1 & H2 & _).
  - reflexivity.
  - vm_compute. discriminate.
  - reflexivity.
  - split; [exact H1|exact H2].
Defined.

Lemma expired_token_is_refreshed_first_witness :
  exists rest,
    SDK.exchanges (snd example_late_reply)
    = SDK.exchanges example_expired
      ++ (SDK.headers example_expired, SDK.token_request example_env) :: rest.
Proof.
  destruct (expired_token_is_refreshed_first example_env "GET"
              "https://edi.example/v1/remittances" None None None 0%Z
              example_expired (fst example_late_reply) (snd example_late_reply))
    as (rest & H & _).
  - reflexivity.
  - vm_compute. reflexivity.
  - reflexivity.
  - exists rest. exact H.
Defined.

Lemma failed_refresh_sends_nothing_witness :
  SDK._make_request example_env_refusing "GET" "https://edi.example/v1/remittances"
    None None None example_expired
  = (inl (SDK.HTTPError 401), snd example_refused)
  /\ SDK.headers (snd example_refused) = SDK.headers example_expired.
Proof.
  destruct (failed_refresh_sends_nothing example_env_refusing "GET"
              "https://edi.example/v1/remittances" None None None 0%Z
              example_expired (SDK.HTTPError 401) (snd example_refused))
    as (H1 & _ & H3).
  - reflexivity.
  - vm_compute. reflexivity.
  - reflexivity.
  - split; [exact H1|exact H3].
Defined.

Lemma incomplete_token_response_is_not_retried_witness :
  exists s1,
    SDK._make_request example_env_incomplete "GET" "https://edi.example/v1/remittances"
      None None None example_expired
    = (inl (SDK.Builtin (KeyError "access_token")), s1)
    /\ SDK.headers s1 = SDK.headers example_expired
    /\ SDK.session_expiry s1 = Some 3602000000%Z.
Proof.
  destruct (incomplete_token_response_is_not_retried example_env_incomplete "GET"
              "https://edi.example/v1/remittances" None None None 0%Z
              example_expired
              (SDK.Response 200 (Some (VDict [("token_type", VStr "Bearer")])))
              [("token_type", VStr "Bearer")] 3602000000%Z)
    as (s1 & H1 & H2 & H3 & _).
  - reflexivity.
  - vm_compute. reflexivity.
  - reflexivity.
  - reflexivity.
  - reflexivity.
  - reflexivity.
  - reflexivity.
  - exists s1. split; [exact H1|]. split; [exact H2|exact H3].
Defined.

Lemma refresh_keeps_other_headers_witness :
  SDK.header_lookup "user-agent" (SDK.headers example_refreshed)
  = SDK.header_lookup "user-agent" (SDK.headers example_session)
  /\ length (SDK.headers example_refreshed) = length (SDK.headers example_session).
Proof.
  destruct (refresh_keeps_other_headers example_env example_session example_refreshed)
    as (_ & H2 & H3).
  - reflexivity.
  - split.
    + apply H2; reflexivity.
    + apply H3. unfold authorized. simpl. repeat split.
      * exists "Bearer t0". reflexivity.
      * discriminate.
Defined.

Lemma missing_attachment_file_witness :
  SDK.submit_claim_attachment example_env (VInt 0) (VStr "rx.pdf") (VStr "PRESCRIPTION")
    VNone example_session
  = (inl (SDK.FileNotFoundError "Attachment file 'rx.pdf' not found."),
     asked example_session).
Proof.
  destruct (missing_attachment_file example_env (VInt 0) (VInt 1) (VStr "rx.pdf")
              (VStr "PRESCRIPTION") VNone example_session) as (H & _).
  - reflexivity.
  - exact H.
Defined.

Lemma attachment_file_is_closed_witness :
  SDK.open_files (snd example_upload) = SDK.open_files example_session
  /\ files_in_order (snd example_upload).
Proof.
  apply (attachment_file_is_closed example_env
           (Task submit_invoice_attachment [VInt 1; VStr "invoice.pdf"; VStr ""])
           example_session (fst example_upload) (snd example_upload)).
  - unfold files_in_order. simpl. constructor.
  - reflexivity.
Defined.

Lemma uploads_are_sent_as_json_witness :
  authorized (snd example_upload)
  /\ exists new,
       SDK.exchanges (snd example_upload) = SDK.exchanges example_session ++ new
       /\ Forall (fun x => snd x = SDK.token_request example_env
                           \/ upload_of (VStr "invoice.pdf") x) new.
Proof.
  apply (uploads_are_sent_as_json example_env
           (Task submit_invoice_attachment [VInt 1; VStr "invoice.pdf"; VStr ""])
           example_session (fst example_upload) (snd example_upload)).
  - unfold authorized. simpl. repeat split.
    + exists "Bearer t0". reflexivity.
    + discriminate.
  - reflexivity.
Defined.

Lemma missing_file_is_logged_witness :
  main example_sdk_pool = MReturned
  /\ In "Error processing task: Attachment file 'rx.pdf' not found."
       (logged (trace example_sdk_pool)).
Proof.
  destruct (missing_file_is_logged example_env example_url example_remote (Some 4)
              example_session example_bundled example_claim_schedule
              (session example_sdk_orchestration) example_sdk_pool
              (Task submit_claim_attachment
                 [VInt 0; VStr "rx.pdf"; VStr "PRESCRIPTION"; VNone]))
    as (_ & _ & _ & H).
  - reflexivity.
  - simpl. left. reflexivity.
  - intros n. reflexivity.
  - split; [reflexivity|]. destruct (H eq_refl) as (_ & Hline). exact Hline.
Defined.

Lemma wrapper_addresses_witness :
  exists req,
    SDK.exchanges
      (snd (SDK.get_member_eligibility example_env (VStr "M-001") (VInt 7)
              example_session))
    = SDK.exchanges example_session ++ [(SDK.headers example_session, req)]
    /\ SDK.http_method req = "GET"
    /\ SDK.http_url req = "/v1/beneficiaries/member_eligibility".
Proof.
  destruct (wrapper_addresses example_env 60000000%Z example_session
              (VStr "M-001") (VInt 7) (VInt 1)
              (VInt 1) (VList [VStr "OTP"]) (VStr "OUTPATIENT") (VStr "B1") (VStr "P-1")
              (VStr "2024-01-01") (VInt 1234) (VStr "+254700000000") None None
              (VStr "Jane") (VStr "Doe") (VStr "") (VStr "tok") None None
              (VStr "guid") (VStr "INV-1") (VInt 100) (VInt 1))
    as ((H & _) & _).
  - reflexivity.
  - vm_compute. discriminate.
  - exact H.
Defined.
